(** * Streamduck node client: the transport / correlation engine

    A shallow embedding of the three client variants of the repository

    - [Unix]   : [buildRequestProtocol] + [newUnixClient] of src/index.js
                 (delimiter framing, events on the same channel);
    - [Legacy] : the older [newUnixClient] of src/unnamed/part_001
                 (delimiter framing, no events, [destroy] on the handle);
    - [Ws]     : [buildRequestProtocol] + [newClient] of src/unnamed/part_000
                 (message framing over a WebSocket, queue-and-retry send).

    Node runs every callback to completion on one thread, so a client is
    modelled as a state record and one total function per callback; the
    runtime (socket events, timers firing, calls of the public API) is the
    list of events a client is run on.  Promises and timers are runtime
    objects: a promise is a slot that is settled at most once, a timer is an
    entry in the set of armed timers and fires only while it is armed. *)

From Stdlib Require Import ZArith Ascii String.
From stdpp Require Import base option list strings gmap fin_maps pretty.



(* ===================================================================== *)
(** * JSON values as the handlers see them *)
(* ===================================================================== *)

Module Json.

#[local] Set Warnings "-register-all".

Inductive json :=
| JNull
| JBool (b : bool)
| JNum (z : Z)
| JStr (s : string)
| JArr (l : list json)
| JObj (kvs : list (string * json)).

(** A JavaScript value read from a decoded document: [None] is [undefined]. *)
Definition jsval := option json.

(** [JSON.parse] is a built-in of the runtime; the handlers are written
    against this interface, [None] standing for the [SyntaxError] it throws. *)
Class JsonParser := JSON_parse : string → option json.

(** Own property of a plain object; with duplicate keys the last one wins,
    as [JSON.parse] builds it. *)
Definition own_prop (k : string) (kvs : list (string * json)) : jsval :=
  fold_left (λ acc kv, if String.eqb (fst kv) k then Some (snd kv) else acc) kvs None.

(** [obj.k] for [k] one of [ty], [requester], [data], [RequestID], [Data]:
    reading a property of [null] throws a [TypeError] (outer [None]); numbers,
    booleans, strings and arrays have no such property. *)
Definition get_prop (obj : json) (k : string) : option jsval :=
  match obj with
  | JNull => None
  | JObj kvs => Some (own_prop k kvs)
  | _ => Some None
  end.

(** [data.k = v] on a plain object. *)
Fixpoint set_field (k : string) (v : json) (kvs : list (string * json)) : list (string * json) :=
  match kvs with
  | [] => [(k, v)]
  | (k', v') :: kvs' =>
      if String.eqb k' k then (k, v) :: kvs' else (k', v') :: set_field k v kvs'
  end.

Definition join (sep : string) (l : list string) : string :=
  match l with
  | [] => ""
  | x :: l' => fold_left (λ acc y, acc +:+ sep +:+ y) l' x
  end.

(** [ToString], applied by [pool[v]] to the key.  Integers print in decimal
    (exact for the safe-integer range), arrays join their elements with a
    comma, [null] elements printing as the empty string. *)
Fixpoint to_js_string (v : json) : string :=
  match v with
  | JNull => "null"
  | JBool true => "true"
  | JBool false => "false"
  | JNum z => pretty z
  | JStr s => s
  | JArr l =>
      join "," (map (λ x, match x with JNull => "" | _ => to_js_string x end) l)
  | JObj _ => "[object Object]"
  end.

(** The property key [pool[v]] reads, writes or deletes. *)
Definition to_key (v : jsval) : string :=
  match v with
  | None => "undefined"
  | Some j => to_js_string j
  end.

(** [v === "event"] *)
Definition is_event_tag (v : jsval) : bool :=
  match v with
  | Some (JStr s) => String.eqb s "event"
  | _ => false
  end.

(** ** A reference parser for the fragment the wire protocol uses

    Objects, arrays, strings with the two-character escapes, integer
    literals, [true], [false], [null], and insignificant white space.  Number
    literals with a fraction or an exponent and [\u] escapes are outside the
    fragment.  Raw control characters (0x04 among them) are refused inside
    strings and everywhere else, as by [JSON.parse]. *)

Definition is_ws (c : ascii) : bool :=
  match c with
  | " "%char | "009"%char | "010"%char | "013"%char => true
  | _ => false
  end.

Fixpoint skip_ws (s : string) : string :=
  match s with
  | String c s' => if is_ws c then skip_ws s' else s
  | EmptyString => s
  end.

Definition digit_of (c : ascii) : option Z :=
  let n := Z.of_nat (nat_of_ascii c) in
  if ((48 <=? n) && (n <=? 57))%Z then Some (n - 48)%Z else None.

Fixpoint parse_digits (acc : Z) (s : string) : Z * string :=
  match s with
  | String c s' =>
      match digit_of c with
      | Some d => parse_digits (10 * acc + d)%Z s'
      | None => (acc, s)
      end
  | EmptyString => (acc, s)
  end.

(** An integer literal: no leading zero, nothing of a fraction or exponent. *)
Definition parse_int (s : string) : option (Z * string) :=
  match s with
  | String c s' =>
      match digit_of c with
      | Some d =>
          let '(z, rest) := if (d =? 0)%Z then (0%Z, s') else parse_digits d s' in
          match rest with
          | String c' _ =>
              if existsb (Ascii.eqb c') ["."; "e"; "E"]%char
              then None
              else if (d =? 0)%Z then (if digit_of c' is Some _ then None else Some (z, rest))
              else Some (z, rest)
          | EmptyString => Some (z, rest)
          end
      | None => None
      end
  | EmptyString => None
  end.

Definition unescape (c : ascii) : option ascii :=
  match c with
  | "034"%char => Some "034"%char      (* the double quote *)
  | "092"%char => Some "092"%char      (* the backslash *)
  | "/"%char => Some "/"%char
  | "b"%char => Some "008"%char
  | "f"%char => Some "012"%char
  | "n"%char => Some "010"%char
  | "r"%char => Some "013"%char
  | "t"%char => Some "009"%char
  | _ => None
  end.

(** The characters of a string literal after its opening quote. *)
Fixpoint parse_chars (s : string) : option (string * string) :=
  match s with
  | EmptyString => None
  | String c s' =>
      if Ascii.eqb c "034" then Some ("", s')
      else if Ascii.eqb c "092" then
        match s' with
        | String e s'' =>
            match unescape e, parse_chars s'' with
            | Some c', Some (str, rest) => Some (String c' str, rest)
            | _, _ => None
            end
        | EmptyString => None
        end
      else if (nat_of_ascii c <? 32)%nat then None
      else
        match parse_chars s' with
        | Some (str, rest) => Some (String c str, rest)
        | None => None
        end
  end.

Definition strip_prefix (p s : string) : option string :=
  if String.prefix p s
  then Some (String.substring (String.length p) (String.length s - String.length p) s)
  else None.

Fixpoint parse_value (fuel : nat) (s : string) : option (json * string) :=
  match fuel with
  | O => None
  | S fuel =>
      match skip_ws s with
      | String "{" s' =>
          match skip_ws s' with
          | String "}" rest => Some (JObj [], rest)
          | _ =>
              match parse_members fuel s' with
              | Some (kvs, rest) => Some (JObj kvs, rest)
              | None => None
              end
          end
      | String "[" s' =>
          match skip_ws s' with
          | String "]" rest => Some (JArr [], rest)
          | _ =>
              match parse_elements fuel s' with
              | Some (l, rest) => Some (JArr l, rest)
              | None => None
              end
          end
      | String "034" s' =>
          match parse_chars s' with
          | Some (str, rest) => Some (JStr str, rest)
          | None => None
          end
      | String "-" s' =>
          match parse_int s' with
          | Some (z, rest) => Some (JNum (- z), rest)
          | None => None
          end
      | String c s' as s0 =>
          if digit_of c is Some _ then
            match parse_int s0 with
            | Some (z, rest) => Some (JNum z, rest)
            | None => None
            end
          else
            match strip_prefix "true" s0, strip_prefix "false" s0, strip_prefix "null" s0 with
            | Some rest, _, _ => Some (JBool true, rest)
            | _, Some rest, _ => Some (JBool false, rest)
            | _, _, Some rest => Some (JNull, rest)
            | _, _, _ => None
            end
      | EmptyString => None
      end
  end
with parse_elements (fuel : nat) (s : string) : option (list json * string) :=
  match fuel with
  | O => None
  | S fuel =>
      match parse_value fuel s with
      | Some (v, rest) =>
          match skip_ws rest with
          | String "]" rest' => Some ([v], rest')
          | String "," rest' =>
              match parse_elements fuel rest' with
              | Some (l, rest'') => Some (v :: l, rest'')
              | None => None
              end
          | _ => None
          end
      | None => None
      end
  end
with parse_members (fuel : nat) (s : string) : option (list (string * json) * string) :=
  match fuel with
  | O => None
  | S fuel =>
      match skip_ws s with
      | String "034" s' =>
          match parse_chars s' with
          | Some (k, rest) =>
              match skip_ws rest with
              | String ":" rest' =>
                  match parse_value fuel rest' with
                  | Some (v, rest'') =>
                      match skip_ws rest'' with
                      | String "}" rest3 => Some ([(k, v)], rest3)
                      | String "," rest3 =>
                          match parse_members fuel rest3 with
                          | Some (kvs, rest4) => Some ((k, v) :: kvs, rest4)
                          | None => None
                          end
                      | _ => None
                      end
                  | None => None
                  end
              | _ => None
              end
          | None => None
          end
      | _ => None
      end
  end.

(** The whole text must be one value, white space apart. *)
Definition parse (s : string) : option json :=
  match parse_value (2 * String.length s + 2) s with
  | Some (v, rest) =>
      match skip_ws rest with
      | EmptyString => Some v
      | _ => None
      end
  | None => None
  end.

End Json.

Import Json.


(* ===================================================================== *)
(** * Runtime objects shared by the three variants *)
(* ===================================================================== *)

Module Runtime.

(** What the caller of [request] observes once its promise is settled. *)
Inductive outcome :=
| Resolved (v : jsval)
| Rejected (reason : string).

(** A promise is [None] while pending.  [resolve] and [reject] of a promise
    that is already settled do nothing. *)
Definition settle (p : nat) (o : outcome) (ps : list (option outcome)) : list (option outcome) :=
  match ps !! p with
  | Some None => <[p := Some o]> ps
  | _ => ps
  end.

Inductive error := TypeError | SyntaxError | ListenerError.

(** How a block of statements ends: normally, or by a throw; the state
    reached by then is kept in both cases. *)
Inductive completion (S : Type) :=
| Normal (st : S)
| Throw (e : error) (st : S).
Arguments Normal {S} st.
Arguments Throw {S} e st.

(** The state a block leaves behind, however it ended. *)
Definition state_after {S} (c : completion S) : S :=
  match c with
  | Normal st => st
  | Throw _ st => st
  end.

(** [try { c } catch (e) { }]: the exception is dropped, execution goes on
    from the state reached. *)
Abbreviation catch := state_after (only parsing).

(** The frame terminator, [\u0004]. *)
Definition EOT : ascii := "004"%char.

(** [s.includes(sep)] for a one-character [sep]. *)
Fixpoint includes (sep : ascii) (s : string) : bool :=
  match s with
  | EmptyString => false
  | String c s' => Ascii.eqb c sep || includes sep s'
  end.

(** [s.split(sep)] for a one-character [sep]: one segment more than there
    are separators, the last being what follows the last separator. *)
Fixpoint split (sep : ascii) (s : string) : list string :=
  match s with
  | EmptyString => [""]
  | String c s' =>
      if Ascii.eqb c sep then "" :: split sep s'
      else
        match split sep s' with
        | seg :: segs => String c seg :: segs
        | [] => [String c ""]
        end
  end.

(** [timeout || opts.timeout]: [undefined] and [0] fall back to the default. *)
Definition or_default (timeout : option nat) (default : nat) : nat :=
  match timeout with
  | Some (S t) => S t
  | _ => default
  end.

End Runtime.

Import Runtime.

(* ===================================================================== *)
(** * src/index.js: [buildRequestProtocol] and [newUnixClient] *)
(* ===================================================================== *)

Module Unix.

(** A registered event listener: a caller-supplied function, known by its
    identity; called with an event payload it returns or throws.  What else
    a listener does, calling back into the client included, is outside the
    model. *)
Record listener := Listener {
  l_id : nat;
  l_throws : jsval → bool;
}.

(** [protocol_options], [protocol] and the runtime objects they refer to.
    A pool entry is the closure [function (data) { clearTimeout(timer);
    resolve(data) }] of one call of [request]; it is recorded as the number
    of the promise whose [resolve] and [timer] it captured.

    [pool] holds the own properties of [protocol.pool].  A name inherited
    from [Object.prototype] is read as absent: request ids are 32
    alphanumeric characters, so no entry is stored under such a name, and
    what [pool[name]] yields there is a built-in whose call changes nothing
    of the client or throws inside the [try] block of the handler. *)
Record state := State {
  collected_string : string;
  client : option nat;                 (* null, or the socket *)
  opts_timeout : nat;
  reconnect : bool;
  pool : gmap string nat;
  event_listeners : list listener;
  promises : list (option outcome);    (* one per [new Promise] *)
  timers : gmap nat nat;               (* armed [setTimeout]s, with their delay *)
  sockets : nat;                       (* [net.createConnection] calls so far *)
  written : list (nat * json);         (* [client.write]: socket, document *)
  destroyed : list nat;                (* sockets [destroy()] was called on *)
  delivered : list (nat * jsval);      (* listener calls: listener, argument *)
}.

Definition set_collected_string (s : string) (st : state) : state :=
  State s (client st) (opts_timeout st) (reconnect st) (pool st) (event_listeners st)
        (promises st) (timers st) (sockets st) (written st) (destroyed st) (delivered st).

Definition set_client (c : option nat) (st : state) : state :=
  State (collected_string st) c (opts_timeout st) (reconnect st) (pool st) (event_listeners st)
        (promises st) (timers st) (sockets st) (written st) (destroyed st) (delivered st).

Definition set_pool (m : gmap string nat) (st : state) : state :=
  State (collected_string st) (client st) (opts_timeout st) (reconnect st) m (event_listeners st)
        (promises st) (timers st) (sockets st) (written st) (destroyed st) (delivered st).

Definition set_event_listeners (ls : list listener) (st : state) : state :=
  State (collected_string st) (client st) (opts_timeout st) (reconnect st) (pool st) ls
        (promises st) (timers st) (sockets st) (written st) (destroyed st) (delivered st).

Definition set_promises (ps : list (option outcome)) (st : state) : state :=
  State (collected_string st) (client st) (opts_timeout st) (reconnect st) (pool st) (event_listeners st)
        ps (timers st) (sockets st) (written st) (destroyed st) (delivered st).

Definition set_timers (ts : gmap nat nat) (st : state) : state :=
  State (collected_string st) (client st) (opts_timeout st) (reconnect st) (pool st) (event_listeners st)
        (promises st) ts (sockets st) (written st) (destroyed st) (delivered st).

Definition set_sockets (n : nat) (st : state) : state :=
  State (collected_string st) (client st) (opts_timeout st) (reconnect st) (pool st) (event_listeners st)
        (promises st) (timers st) n (written st) (destroyed st) (delivered st).

Definition set_written (w : list (nat * json)) (st : state) : state :=
  State (collected_string st) (client st) (opts_timeout st) (reconnect st) (pool st) (event_listeners st)
        (promises st) (timers st) (sockets st) w (destroyed st) (delivered st).

Definition set_destroyed (d : list nat) (st : state) : state :=
  State (collected_string st) (client st) (opts_timeout st) (reconnect st) (pool st) (event_listeners st)
        (promises st) (timers st) (sockets st) (written st) d (delivered st).

Definition set_delivered (d : list (nat * jsval)) (st : state) : state :=
  State (collected_string st) (client st) (opts_timeout st) (reconnect st) (pool st) (event_listeners st)
        (promises st) (timers st) (sockets st) (written st) (destroyed st) d.

(** ** [buildRequestProtocol] *)

(** The pool entry of promise [p], called with a response payload:
    [clearTimeout(timer); resolve(data)]. *)
Definition run_callback (p : nat) (data : jsval) (st : state) : state :=
  set_promises (settle p (Resolved data) (promises st))
    (set_timers (delete p (timers st)) st).

(** The timer of promise [p] fires: [reject("Request timed out")].  The
    runtime runs the callback of an armed timer only, and once. *)
Definition timer_fired (p : nat) (st : state) : state :=
  match timers st !! p with
  | Some _ =>
      set_promises (settle p (Rejected "Request timed out") (promises st))
        (set_timers (delete p (timers st)) st)
  | None => st
  end.

(** [protocol.request(data, timeout)], [requester] being the string
    [randomstring.generate()] returned.  The result is the number of the
    promise handed to the caller. *)
Definition request (requester : string) (data : list (string * json))
    (timeout : option nat) (st : state) : nat * state :=
  let p := length (promises st) in
  match client st with
  | Some sock =>
      let st1 := set_written (written st ++ [(sock, JObj (set_field "requester" (JStr requester) data))]) st in
      let st2 := set_promises (promises st1 ++ [None]) st1 in
      let st3 := set_timers (<[p := or_default timeout (opts_timeout st2)]> (timers st2)) st2 in
      (p, set_pool (<[requester := p]> (pool st3)) st3)
  | None =>
      (p, set_promises (promises st ++ [Some (Rejected "Client not connected")]) st)
  end.

Definition add_event_listener (func : listener) (st : state) : state :=
  set_event_listeners (event_listeners st ++ [func]) st.

(** [opts.destroy]: the object literal [protocol_options] has the keys
    [collected_string], [client] and [timeout], and nothing assigns another. *)
Definition opts_destroy : option (state → state) := None.

(** [protocol.destroy = () => { opts.destroy(); }] *)
Definition destroy (st : state) : completion state :=
  match opts_destroy with
  | Some f => Normal (f st)
  | None => Throw TypeError st
  end.

(** ** [newUnixClient] *)

Section Handlers.
Context `{JsonParser}.

(** [for (const listener of protocol.event_listeners) listener(obj.data)] *)
Fixpoint call_listeners (ls : list listener) (data : jsval) (st : state) : completion state :=
  match ls with
  | [] => Normal st
  | l :: ls' =>
      let st' := set_delivered (delivered st ++ [(l_id l, data)]) st in
      if l_throws l data then Throw ListenerError st'
      else call_listeners ls' data st'
  end.

(** What the handler does with a decoded document. *)
Definition dispatch (obj : json) (st : state) : completion state :=
  match get_prop obj "ty", get_prop obj "data", get_prop obj "requester" with
  | Some ty, Some data, Some requester =>
      if is_event_tag ty then call_listeners (event_listeners st) data st
      else
        let key := to_key requester in
        let st1 :=
          match pool st !! key with
          | Some p => run_callback p data st
          | None => st
          end in
        Normal (set_pool (delete key (pool st1)) st1)
  | _, _, _ => Throw TypeError st
  end.

(** The body of the [try] block for one segment, with the document
    [JSON.parse] returned, if it did. *)
Definition try_segment (text : string) (st : state) : option json * completion state :=
  match JSON_parse text with
  | Some obj => (Some obj, dispatch obj st)
  | None => (None, Throw SyntaxError st)
  end.

(** One turn of the [forEach] on the segment [text] (the source's [json]):
    [if (json) { try { ... } catch (e) { } }] *)
Definition segment (text : string) (st : state) : option json * state :=
  match text with
  | EmptyString => (None, st)
  | _ => let '(doc, c) := try_segment text st in (doc, catch c)
  end.

(** [segments.forEach(...)], with the documents decoded on the way. *)
Fixpoint for_each (segments : list string) (st : state) : list json * state :=
  match segments with
  | [] => ([], st)
  | text :: rest =>
      let '(doc, st1) := segment text st in
      let '(docs, st2) := for_each rest st1 in
      (option_list doc ++ docs, st2)
  end.

(** The ['data'] handler; [data] is the chunk after [data.toString()], a
    string of bytes (a multi-byte character cut in two by a chunk boundary is
    outside the model).  The result lists the documents decoded in this
    turn. *)
Definition on_data (data : string) (st : state) : list json * state :=
  let st1 := set_collected_string (collected_string st +:+ data) st in
  if includes EOT (collected_string st1) then
    let '(docs, st2) := for_each (split EOT (collected_string st1)) st1 in
    (docs, set_collected_string "" st2)
  else ([], st1).

(** The ['error'] and ['close'] handlers. *)
Definition on_close (st : state) : state :=
  let st1 :=
    match client st with
    | Some sock => set_destroyed (destroyed st ++ [sock]) st
    | None => st
    end in
  set_client None st1.

(** [rec()]: a new connection replaces the handle. *)
Definition rec (st : state) : state :=
  set_sockets (S (sockets st)) (set_client (Some (sockets st)) st).

(** The callback of the supervisor's [setInterval]. *)
Definition on_tick (st : state) : state :=
  match client st with
  | None => if reconnect st then rec st else st
  | Some _ => st
  end.

(** The ['connect'] handler calls [streamduck.version()], a request. *)
Definition on_connect (requester : string) (st : state) : state :=
  snd (request requester [("ty", JStr "socket_version")] None st).

(** What the runtime and the caller can do to a client.  The runtime
    decides when sockets report and timers fire; [Timeout p] for a timer
    that is not armed does nothing.  An exception of [destroy] goes to its
    caller and leaves the client in the state reached. *)
Inductive event :=
| Request (requester : string) (data : list (string * json)) (timeout : option nat)
| AddListener (func : listener)
| Destroy
| Connect (requester : string)
| Data (chunk : string)
| Error
| Close
| Tick
| Timeout (p : nat).

Definition step (st : state) (e : event) : state :=
  match e with
  | Request requester data timeout => snd (request requester data timeout st)
  | AddListener func => add_event_listener func st
  | Destroy => state_after (destroy st)
  | Connect requester => on_connect requester st
  | Data chunk => snd (on_data chunk st)
  | Error | Close => on_close st
  | Tick => on_tick st
  | Timeout p => timer_fired p st
  end.

Definition run (st : state) (es : list event) : state := fold_left step es st.

(** [newUnixClient(opts)], with [timeout] and [reconnect] as read from
    [opts] (5000 and [true] when not given): empty pool and buffer, and the
    first [rec()]. *)
Definition init (timeout : nat) (reconnect : bool) : state :=
  rec (State "" None timeout reconnect ∅ [] [] ∅ 0 [] [] []).

(** All documents the handler decodes over a sequence of chunks. *)
Fixpoint feed (chunks : list string) (st : state) : list json * state :=
  match chunks with
  | [] => ([], st)
  | c :: rest =>
      let '(docs, st1) := on_data c st in
      let '(docs', st2) := feed rest st1 in
      (docs ++ docs', st2)
  end.

End Handlers.

End Unix.

(* ===================================================================== *)
(** * src/unnamed/part_001: the older [newUnixClient] *)
(* ===================================================================== *)

Module Legacy.

(** The older variant keeps the same data as locals of [newUnixClient]
    ([collected_string], [client], [timeout], [reconnect]) and in
    [protocol.pool]; it has no event listeners, so [event_listeners] and
    [delivered] of the record stay empty. *)
Abbreviation state := Unix.state.

Import Unix.

(** [protocol.request(data)]: as in src/index.js, with the client's
    [timeout] for every request. *)
Definition request (requester : string) (data : list (string * json)) (st : state) : nat * state :=
  let p := length (promises st) in
  match client st with
  | Some sock =>
      let st1 := set_written (written st ++ [(sock, JObj (set_field "requester" (JStr requester) data))]) st in
      let st2 := set_promises (promises st1 ++ [None]) st1 in
      let st3 := set_timers (<[p := opts_timeout st2]> (timers st2)) st2 in
      (p, set_pool (<[requester := p]> (pool st3)) st3)
  | None =>
      (p, set_promises (promises st ++ [Some (Rejected "Client not connected")]) st)
  end.

(** [protocol.destroy = () => { client.destroy(); }] *)
Definition destroy (st : state) : completion state :=
  match client st with
  | Some sock => Normal (set_destroyed (destroyed st ++ [sock]) st)
  | None => Throw TypeError st
  end.

Section Handlers.
Context `{JsonParser}.

Definition dispatch (obj : json) (st : state) : completion state :=
  match get_prop obj "requester", get_prop obj "data" with
  | Some requester, Some data =>
      let key := to_key requester in
      let st1 :=
        match pool st !! key with
        | Some p => run_callback p data st
        | None => st
        end in
      Normal (set_pool (delete key (pool st1)) st1)
  | _, _ => Throw TypeError st
  end.

Definition try_segment (text : string) (st : state) : option json * completion state :=
  match JSON_parse text with
  | Some obj => (Some obj, dispatch obj st)
  | None => (None, Throw SyntaxError st)
  end.

Definition segment (text : string) (st : state) : option json * state :=
  match text with
  | EmptyString => (None, st)
  | _ => let '(doc, c) := try_segment text st in (doc, catch c)
  end.

Fixpoint for_each (segments : list string) (st : state) : list json * state :=
  match segments with
  | [] => ([], st)
  | text :: rest =>
      let '(doc, st1) := segment text st in
      let '(docs, st2) := for_each rest st1 in
      (option_list doc ++ docs, st2)
  end.

Definition on_data (data : string) (st : state) : list json * state :=
  let st1 := set_collected_string (collected_string st +:+ data) st in
  if includes EOT (collected_string st1) then
    let '(docs, st2) := for_each (split EOT (collected_string st1)) st1 in
    (docs, set_collected_string "" st2)
  else ([], st1).

Definition on_connect (requester : string) (st : state) : state :=
  snd (request requester [("ty", JStr "socket_version")] st).

Inductive event :=
| Request (requester : string) (data : list (string * json))
| Destroy
| Connect (requester : string)
| Data (chunk : string)
| Error
| Close
| Tick
| Timeout (p : nat).

Definition step (st : state) (e : event) : state :=
  match e with
  | Request requester data => snd (request requester data st)
  | Destroy => state_after (destroy st)
  | Connect requester => on_connect requester st
  | Data chunk => snd (on_data chunk st)
  | Error | Close => on_close st
  | Tick => on_tick st
  | Timeout p => timer_fired p st
  end.

Definition run (st : state) (es : list event) : state := fold_left step es st.

Definition init (timeout : nat) (reconnect : bool) : state := Unix.init timeout reconnect.

Fixpoint feed (chunks : list string) (st : state) : list json * state :=
  match chunks with
  | [] => ([], st)
  | c :: rest =>
      let '(docs, st1) := on_data c st in
      let '(docs', st2) := feed rest st1 in
      (docs ++ docs', st2)
  end.

End Handlers.

End Legacy.

(* ===================================================================== *)
(** * src/unnamed/part_000: the WebSocket client *)
(* ===================================================================== *)

Module Ws.

(** [readyState] of a [ws.WebSocket]: 0, 1, 2, 3. *)
Inductive ready_state := CONNECTING | OPEN | CLOSING | CLOSED.

(** [protocol_opts], [protocol] and the runtime objects they refer to.  The
    retry interval of a request is the closure that captured its [data]; it
    is kept under the number of the request's promise, as its timer is. *)
Record state := State {
  client : option ready_state;          (* null, or the socket *)
  opts_timeout : nat;
  retry_interval : nat;
  reconnect : bool;
  pool : gmap string nat;
  promises : list (option outcome);
  timers : gmap nat nat;                (* armed [setTimeout]s, with their delay *)
  intervals : gmap nat json;            (* armed [setInterval]s, with their document *)
  sent : list (nat * json);             (* [client.send]: request, document *)
  sockets : nat;                        (* [new ws.WebSocket] calls so far *)
}.

Definition set_client (c : option ready_state) (st : state) : state :=
  State c (opts_timeout st) (retry_interval st) (reconnect st) (pool st) (promises st)
        (timers st) (intervals st) (sent st) (sockets st).

Definition set_pool (m : gmap string nat) (st : state) : state :=
  State (client st) (opts_timeout st) (retry_interval st) (reconnect st) m (promises st)
        (timers st) (intervals st) (sent st) (sockets st).

Definition set_promises (ps : list (option outcome)) (st : state) : state :=
  State (client st) (opts_timeout st) (retry_interval st) (reconnect st) (pool st) ps
        (timers st) (intervals st) (sent st) (sockets st).

Definition set_timers (ts : gmap nat nat) (st : state) : state :=
  State (client st) (opts_timeout st) (retry_interval st) (reconnect st) (pool st) (promises st)
        ts (intervals st) (sent st) (sockets st).

Definition set_intervals (m : gmap nat json) (st : state) : state :=
  State (client st) (opts_timeout st) (retry_interval st) (reconnect st) (pool st) (promises st)
        (timers st) m (sent st) (sockets st).

Definition set_sent (l : list (nat * json)) (st : state) : state :=
  State (client st) (opts_timeout st) (retry_interval st) (reconnect st) (pool st) (promises st)
        (timers st) (intervals st) l (sockets st).

Definition set_sockets (n : nat) (st : state) : state :=
  State (client st) (opts_timeout st) (retry_interval st) (reconnect st) (pool st) (promises st)
        (timers st) (intervals st) (sent st) n.

(** [protocol.connected()] *)
Definition connected (st : state) : bool :=
  match client st with
  | Some OPEN => true
  | _ => false
  end.

(** [opts.client.send(JSON.stringify(data))], on behalf of request [p]. *)
Definition send (p : nat) (data : json) (st : state) : state :=
  set_sent (sent st ++ [(p, data)]) st.

(** The callback of the retry interval of request [p]; it runs only while
    the interval is armed. *)
Definition retry_fired (p : nat) (st : state) : state :=
  match intervals st !! p with
  | Some data =>
      if connected st
      then set_intervals (delete p (intervals st)) (send p data st)
      else st
  | None => st
  end.

(** The callback of the timer of request [p]:
    [if (interval) clearInterval(interval); reject("Request timed out")]. *)
Definition timer_fired (p : nat) (st : state) : state :=
  match timers st !! p with
  | Some _ =>
      set_promises (settle p (Rejected "Request timed out") (promises st))
        (set_intervals (delete p (intervals st))
          (set_timers (delete p (timers st)) st))
  | None => st
  end.

(** The pool entry of request [p]: [clearTimeout(timer); resolve(data)]. *)
Definition run_callback (p : nat) (data : jsval) (st : state) : state :=
  set_promises (settle p (Resolved data) (promises st))
    (set_timers (delete p (timers st)) st).

(** [protocol.request(name, data, timeout)], [request_id] being the string
    [randomstring.generate()] returned; [data] is [None] for a missing
    argument ([data ?? {}]). *)
Definition request (request_id : string) (name : string) (data : option (list (string * json)))
    (timeout : option nat) (st : state) : nat * state :=
  let p := length (promises st) in
  let doc := JObj (set_field "RequestID" (JStr request_id)
                     (set_field "Name" (JStr name) (default [] data))) in
  let st1 := set_promises (promises st ++ [None]) st in
  let st2 :=
    if connected st1 then send p doc st1
    else set_intervals (<[p := doc]> (intervals st1)) st1 in
  let st3 := set_timers (<[p := or_default timeout (opts_timeout st2)]> (timers st2)) st2 in
  (p, set_pool (<[request_id := p]> (pool st3)) st3).

(** [protocol.close = () => { opts.client.close(); }] *)
Definition close (st : state) : completion state :=
  match client st with
  | Some OPEN | Some CONNECTING => Normal (set_client (Some CLOSING) st)
  | Some _ => Normal st
  | None => Throw TypeError st
  end.

Section Handlers.
Context `{JsonParser}.

(** The body of the [try] block of the ['message'] handler. *)
Definition dispatch (obj : json) (st : state) : completion state :=
  match get_prop obj "RequestID", get_prop obj "Data" with
  | Some request_id, Some data =>
      let key := to_key request_id in
      let st1 :=
        match pool st !! key with
        | Some p => run_callback p data st
        | None => st
        end in
      Normal (set_pool (delete key (pool st1)) st1)
  | _, _ => Throw TypeError st
  end.

Definition try_message (data : string) (st : state) : option json * completion state :=
  match JSON_parse data with
  | Some obj => (Some obj, dispatch obj st)
  | None => (None, Throw SyntaxError st)
  end.

(** The ['message'] handler: one message is one document. *)
Definition on_message (data : string) (st : state) : option json * state :=
  let '(doc, c) := try_message data st in (doc, catch c).

(** The ['open'] event of the socket. *)
Definition on_open (st : state) : state :=
  match client st with
  | Some _ => set_client (Some OPEN) st
  | None => st
  end.

(** The ['error'] and ['close'] handlers: [terminate()] and forget. *)
Definition on_close (st : state) : state := set_client None st.

Definition rec (st : state) : state :=
  set_sockets (S (sockets st)) (set_client (Some CONNECTING) st).

Definition on_tick (st : state) : state :=
  match client st with
  | None => if reconnect st then rec st else st
  | Some _ => st
  end.

Inductive event :=
| Request (request_id name : string) (data : option (list (string * json))) (timeout : option nat)
| CloseCall
| Open
| Message (data : string)
| Error
| Close
| Tick
| Timeout (p : nat)
| Retry (p : nat).

Definition step (st : state) (e : event) : state :=
  match e with
  | Request request_id name data timeout => snd (request request_id name data timeout st)
  | CloseCall => state_after (close st)
  | Open => on_open st
  | Message data => snd (on_message data st)
  | Error | Close => on_close st
  | Tick => on_tick st
  | Timeout p => timer_fired p st
  | Retry p => retry_fired p st
  end.

Definition run (st : state) (es : list event) : state := fold_left step es st.

(** [newClient(opts)] *)
Definition init (timeout retry_interval : nat) (reconnect : bool) : state :=
  rec (State None timeout retry_interval reconnect ∅ [] ∅ ∅ [] 0).

End Handlers.

End Ws.

(* ===================================================================== *)
(** * src/index.js: [newWindowsClient] *)
(* ===================================================================== *)

Module Windows.

(** [protocol_options] of [newWindowsClient] and what goes with it.  The
    part [buildRequestProtocol] works on (the request handle [client],
    [timeout], the pool, the listeners, the promises and timers) is kept as a
    [Unix.state], [base], whose buffer is [collected_string_request] here and
    whose [sockets], [written], [destroyed] and [delivered] serve both
    channels. *)
Record state := State {
  base : Unix.state;
  collected_string_event : string;
  eventClient : option nat;             (* null, or the socket *)
  events : bool;
}.

Definition set_base (b : Unix.state) (st : state) : state :=
  State b (collected_string_event st) (eventClient st) (events st).

Definition set_collected_string_event (s : string) (st : state) : state :=
  State (base st) s (eventClient st) (events st).

Definition set_eventClient (c : option nat) (st : state) : state :=
  State (base st) (collected_string_event st) c (events st).

Section Handlers.
Context `{JsonParser}.

(** The ['data'] handler of the request pipe (index.js:1181-1206): the
    handler of the older [newUnixClient], on [collected_string_request]. *)
Definition on_request_data (data : string) (st : state) : list json * state :=
  let '(docs, b) := Legacy.on_data data (base st) in (docs, set_base b st).

(** The body of the [try] block of the event pipe: a document whose [ty] is
    not [event] is left alone. *)
Definition event_dispatch (obj : json) (b : Unix.state) : completion Unix.state :=
  match get_prop obj "ty", get_prop obj "data" with
  | Some ty, Some data =>
      if is_event_tag ty
      then Unix.call_listeners (Unix.event_listeners b) data b
      else Normal b
  | _, _ => Throw TypeError b
  end.

Definition try_event_segment (text : string) (b : Unix.state) : option json * completion Unix.state :=
  match JSON_parse text with
  | Some obj => (Some obj, event_dispatch obj b)
  | None => (None, Throw SyntaxError b)
  end.

Definition event_segment (text : string) (b : Unix.state) : option json * Unix.state :=
  match text with
  | EmptyString => (None, b)
  | _ => let '(doc, c) := try_event_segment text b in (doc, catch c)
  end.

Fixpoint event_for_each (segments : list string) (b : Unix.state) : list json * Unix.state :=
  match segments with
  | [] => ([], b)
  | text :: rest =>
      let '(doc, b1) := event_segment text b in
      let '(docs, b2) := event_for_each rest b1 in
      (option_list doc ++ docs, b2)
  end.

(** The ['data'] handler of the event pipe (index.js:1222-1245). *)
Definition on_event_data (data : string) (st : state) : list json * state :=
  let st1 := set_collected_string_event (collected_string_event st +:+ data) st in
  if includes EOT (collected_string_event st1) then
    let '(docs, b) := event_for_each (split EOT (collected_string_event st1)) (base st1) in
    (docs, set_collected_string_event "" (set_base b st1))
  else ([], st1).

(** The ['error'] and ['close'] handlers of the request pipe. *)
Definition on_request_close (st : state) : state :=
  set_base (Unix.on_close (base st)) st.

(** The ['error'] and ['close'] handlers of the event pipe. *)
Definition on_event_close (st : state) : state :=
  let st1 :=
    match eventClient st with
    | Some sock =>
        set_base (Unix.set_destroyed (Unix.destroyed (base st) ++ [sock]) (base st)) st
    | None => st
    end in
  set_eventClient None st1.

(** [rec()]: a new request connection replaces the handle, and with
    [events] a new event connection replaces the other. *)
Definition rec (st : state) : state :=
  let b := Unix.rec (base st) in
  if events st
  then set_eventClient (Some (Unix.sockets b))
         (set_base (Unix.set_sockets (S (Unix.sockets b)) b) st)
  else set_base b st.

(** The callback of the supervisor's [setInterval]. *)
Definition on_tick (st : state) : state :=
  if (bool_decide (Unix.client (base st) = None) && Unix.reconnect (base st))
     || (bool_decide (eventClient st = None) && Unix.reconnect (base st) && events st)
  then rec st
  else st.

Inductive event :=
| Request (requester : string) (data : list (string * json)) (timeout : option nat)
| AddListener (func : Unix.listener)
| Destroy
| Connect (requester : string)
| RequestData (chunk : string)
| EventData (chunk : string)
| RequestError
| RequestClose
| EventError
| EventClose
| Tick
| Timeout (p : nat).

Definition step (st : state) (e : event) : state :=
  match e with
  | Request requester data timeout =>
      set_base (snd (Unix.request requester data timeout (base st))) st
  | AddListener func => set_base (Unix.add_event_listener func (base st)) st
  | Destroy => set_base (state_after (Unix.destroy (base st))) st
  | Connect requester => set_base (Unix.on_connect requester (base st)) st
  | RequestData chunk => snd (on_request_data chunk st)
  | EventData chunk => snd (on_event_data chunk st)
  | RequestError | RequestClose => on_request_close st
  | EventError | EventClose => on_event_close st
  | Tick => on_tick st
  | Timeout p => set_base (Unix.timer_fired p (base st)) st
  end.

Definition run (st : state) (es : list event) : state := fold_left step es st.

(** [newWindowsClient(opts)], with [timeout], [reconnect] and [events] as
    read from [opts] (5000, [true] and [true] when not given). *)
Definition init (timeout : nat) (reconnect events : bool) : state :=
  rec (State (Unix.State "" None timeout reconnect ∅ [] [] ∅ 0 [] [] []) "" None events).

End Handlers.

End Windows.

#[global] Instance reference_parser : JsonParser := parse.

(* ===================================================================== *)
(** * Vocabulary of the statements *)
(* ===================================================================== *)

(** The bytes of a sequence of frames on a delimiter-framed channel: each
    document followed by the terminator. *)
Definition frames (fs : list string) : string :=
  fold_right (λ f acc, f +:+ String EOT acc) "" fs.

(** The concatenation of a sequence of chunks. *)
Definition chunks_bytes (chunks : list string) : string :=
  fold_right (λ c acc, c +:+ acc) "" chunks.

(** A text that can stand between two terminators. *)
Definition sentinel_free (s : string) : Prop := includes EOT s = false.

(** A chunk boundary that does not follow a terminator inside the buffer:
    the chunk has no terminator, or it ends with one. *)
Definition aligned (chunk : string) : Prop :=
  sentinel_free chunk ∨ ∃ body, chunk = body +:+ String EOT "".

(** The listeners an event payload reaches: those registered before the
    first one that throws on it, and that one. *)
Fixpoint reached (ls : list Unix.listener) (data : jsval) : list Unix.listener :=
  match ls with
  | [] => []
  | l :: ls' => l :: (if Unix.l_throws l data then [] else reached ls' data)
  end.

(** The states a client can be in: [newUnixClient] or [newClient], followed
    by any events. *)
Definition unix_reachable `{JsonParser} (st : Unix.state) : Prop :=
  ∃ timeout reconnect es, st = Unix.run (Unix.init timeout reconnect) es.

Definition ws_reachable `{JsonParser} (st : Ws.state) : Prop :=
  ∃ timeout retry reconnect es, st = Ws.run (Ws.init timeout retry reconnect) es.

(** How often request [p] was handed to [client.send]. *)
Definition times_sent (p : nat) (st : Ws.state) : nat :=
  length (filter (λ x, x.1 = p) (Ws.sent st)).

(** ** Invariants *)

(** A promise is pending exactly while its timer is armed. *)
Definition timers_wf (st : Unix.state) : Prop :=
  ∀ p, is_Some (Unix.timers st !! p) ↔ Unix.promises st !! p = Some None.

(** Pool entries are closures of promises that exist, no two the same. *)
Definition pool_wf (st : Unix.state) : Prop :=
  (∀ k p, Unix.pool st !! k = Some p → p < length (Unix.promises st))
  ∧ (∀ k1 k2 p, Unix.pool st !! k1 = Some p → Unix.pool st !! k2 = Some p → k1 = k2).

(** The closure of promise [p1] is in the pool under no key, and the promise
    is pending or was rejected by its timer. *)
Definition displaced (p1 : nat) (st : Unix.state) : Prop :=
  (∀ k, Unix.pool st !! k ≠ Some p1)
  ∧ (Unix.promises st !! p1 = Some None
     ∨ Unix.promises st !! p1 = Some (Some (Rejected "Request timed out"))).

(** A request is sent at most once, not at all while its retry interval is
    armed, and requests not made yet have neither interval, timer nor send. *)
Definition retry_wf (st : Ws.state) : Prop :=
  ∀ p,
    times_sent p st ≤ 1
    ∧ (is_Some (Ws.intervals st !! p) → times_sent p st = 0)
    ∧ (length (Ws.promises st) ≤ p →
       Ws.intervals st !! p = None ∧ Ws.timers st !! p = None ∧ times_sent p st = 0).

(** Request [p] has no retry interval any more and was sent [n] times. *)
Definition retired (p n : nat) (st : Ws.state) : Prop :=
  Ws.intervals st !! p = None ∧ p < length (Ws.promises st) ∧ times_sent p st = n.

(** ** Concrete inputs

    Wire texts are written with an apostrophe where the wire has a double
    quote. *)

Definition wire (s : string) : string :=
  string_of_list_ascii
    (map (λ c, if Ascii.eqb c "'" then "034"%char else c) (list_ascii_of_string s)).

Definition frame_a : string := wire "{'requester':'a','data':1}".
Definition frame_b : string := wire "{'requester':'b','data':2}".
Definition doc_a : json := JObj [("requester", JStr "a"); ("data", JNum 1)].
Definition doc_b : json := JObj [("requester", JStr "b"); ("data", JNum 2)].

(** Two frames in two chunks, the boundary inside the second frame. *)
Definition split_chunks : list string :=
  [ frame_a +:+ String EOT (wire "{'requ");
    wire "ester':'b','data':2}" +:+ String EOT "" ].

(** A client with the requests [a] and [b] pending. *)
Definition two_pending : Unix.state :=
  Unix.run (Unix.init 5000 true) [Unix.Request "a" [] None; Unix.Request "b" [] None].

Definition legacy_two_pending : Legacy.state :=
  Legacy.run (Legacy.init 5000 true) [Legacy.Request "a" [] ; Legacy.Request "b" []].

(** Request [abc] with a timeout of 50 ms, pending. *)
Definition abc_pending : Unix.state :=
  Unix.run (Unix.init 5000 true) [Unix.Request "abc" [] (Some 50)].

(** A request pending on a connection that went down. *)
Definition pending_and_down : Unix.state :=
  Unix.run (Unix.init 5000 true) [Unix.Request "r1" [] None; Unix.Close].

(** Two listeners, the first of which throws. *)
Definition with_throwing_listener : Unix.state :=
  Unix.run (Unix.init 5000 true)
    [Unix.AddListener (Unix.Listener 0 (λ _, true));
     Unix.AddListener (Unix.Listener 1 (λ _, false))].

Definition event_frame : string := wire "{'ty':'event','data':{'x':1}}".
Definition event_doc : json :=
  JObj [("ty", JStr "event"); ("data", JObj [("x", JNum 1)])].

(** Requests [r1] and [r2] made on a WebSocket client that is not open yet. *)
Definition ws_two_queued : Ws.state :=
  Ws.run (Ws.init 5000 200 true)
    [Ws.Request "r1" "List Connected Devices" None None;
     Ws.Request "r2" "List Discovered Devices" None None].

(** The socket opens, and the retry intervals of both requests fire, the
    first one twice. *)
Definition ws_after_reconnect : Ws.state :=
  Ws.run (Ws.init 5000 200 true)
    [Ws.Request "r1" "List Connected Devices" None None;
     Ws.Request "r2" "List Discovered Devices" None None;
     Ws.Open; Ws.Retry 0; Ws.Retry 1; Ws.Retry 0].

(** ** Vocabulary of the further properties *)

Definition legacy_reachable `{JsonParser} (st : Legacy.state) : Prop :=
  ∃ timeout reconnect es, st = Legacy.run (Legacy.init timeout reconnect) es.

Definition windows_reachable `{JsonParser} (st : Windows.state) : Prop :=
  ∃ timeout reconnect events es, st = Windows.run (Windows.init timeout reconnect events) es.

(** On the WebSocket client too a promise is pending exactly while its timer
    is armed. *)
Definition ws_timers_wf (st : Ws.state) : Prop :=
  ∀ p, is_Some (Ws.timers st !! p) ↔ Ws.promises st !! p = Some None.

(** Every connection made so far is the current handle or was destroyed. *)
Definition no_leak (st : Unix.state) : Prop :=
  ∀ n, n < Unix.sockets st → n ∈ Unix.destroyed st ∨ Unix.client st = Some n.

(** The listeners a sequence of events registers, in order. *)
Definition registered (es : list Unix.event) : list Unix.listener :=
  omap (λ e, match e with Unix.AddListener func => Some func | _ => None end) es.

(** A promise that was rejected at once because there was no connection. *)
Definition refused (o : option outcome) : bool :=
  match o with
  | Some (Rejected reason) => String.eqb reason "Client not connected"
  | _ => false
  end.

(** The number of requests that were not refused. *)
Definition accepted (st : Unix.state) : nat :=
  length (filter (λ o, refused o = false) (Unix.promises st)).

(** A segment that does not decode to a document tagged as an event. *)
Definition untagged `{JsonParser} (text : string) : Prop :=
  match JSON_parse text with
  | Some obj =>
      match get_prop obj "ty" with
      | Some ty => is_event_tag ty = false
      | None => True
      end
  | None => True
  end.

(** The response frame [{"requester": "abc", "data": 7}]. *)
Definition frame_abc : string := wire "{'requester':'abc','data':7}".
Definition doc_abc : json := JObj [("requester", JStr "abc"); ("data", JNum 7)].

(** The response message [{"RequestID": "abc", "Data": 7}]. *)
Definition message_abc : string := wire "{'RequestID':'abc','Data':7}".
Definition ws_doc_abc : json := JObj [("RequestID", JStr "abc"); ("Data", JNum 7)].

(** A WebSocket client whose socket is open. *)
Definition ws_open : Ws.state := Ws.run (Ws.init 5000 200 true) [Ws.Open].

(** A Windows client whose event pipe went down while the request pipe is
    up. *)
Definition windows_event_down : Windows.state :=
  Windows.run (Windows.init 5000 true true) [Windows.EventClose].

(** A Windows client with a request pending and a listener registered. *)
Definition windows_busy : Windows.state :=
  Windows.run (Windows.init 5000 true true)
    [Windows.Request "abc" [] None;
     Windows.AddListener (Unix.Listener 0 (λ _, false))].

(** The handles of a Windows client are sockets that exist, are not
    destroyed, and differ. *)
Definition handles_wf (st : Windows.state) : Prop :=
  let b := Windows.base st in
  (∀ n, (n ∈ Unix.destroyed b) → n < Unix.sockets b)
  ∧ (∀ c, Unix.client b = Some c →
       (c < Unix.sockets b) ∧ (c ∉ Unix.destroyed b) ∧ (Windows.eventClient st ≠ Some c))
  ∧ (∀ c, Windows.eventClient st = Some c →
       (c < Unix.sockets b) ∧ (c ∉ Unix.destroyed b)).

(** The part of a Windows client that the connections make up. *)
Definition wiring (st : Windows.state) : option nat * option nat * nat * list nat * bool * bool :=
  (Unix.client (Windows.base st), Windows.eventClient st, Unix.sockets (Windows.base st),
   Unix.destroyed (Windows.base st), Unix.reconnect (Windows.base st), Windows.events st).

(** A request made while connected, the connection lost, and a request
    made after that. *)
Definition one_refused : Unix.state :=
  Unix.run (Unix.init 5000 true)
    [Unix.Request "r1" [] None; Unix.Close; Unix.Request "r2" [] None].

(** A WebSocket request that timed out before the socket opened. *)
Definition ws_timed_out : Ws.state :=
  Ws.run (Ws.init 5000 200 true)
    [Ws.Request "r1" "List Connected Devices" None None; Ws.Timeout 0].

(** A payload that already has a [requester] field. *)
Definition payload_with_requester : list (string * json) :=
  [("ty", JStr "socket_version"); ("requester", JStr "mine")].

(** Request [abc], timed out. *)
Definition abc_timed_out : Unix.state :=
  Unix.run (Unix.init 5000 true) [Unix.Request "abc" [] (Some 50); Unix.Timeout 0].

(** The response message [{"RequestID": "r1", "Data": 7}]. *)
Definition message_r1 : string := wire "{'RequestID':'r1','Data':7}".
Definition ws_doc_r1 : json := JObj [("RequestID", JStr "r1"); ("Data", JNum 7)].

(** The pool [m] is the pool of [st] without some entries of promises that
    are settled. *)
Definition without_dead_entries (m : gmap string nat) (st : Unix.state) : Prop :=
  ∀ k, m !! k = Unix.pool st !! k
       ∨ (m !! k = None
          ∧ ∃ p o, Unix.pool st !! k = Some p ∧ Unix.promises st !! p = Some (Some o)).

Definition ws_without_dead_entries (m : gmap string nat) (st : Ws.state) : Prop :=
  ∀ k, m !! k = Ws.pool st !! k
       ∨ (m !! k = None
          ∧ ∃ p o, Ws.pool st !! k = Some p ∧ Ws.promises st !! p = Some (Some o)).

(** Dispatching the decoded documents one after the other. *)
Definition dispatch_all `{JsonParser} (docs : list json) (st : Unix.state) : Unix.state :=
  fold_left (λ s obj, state_after (Unix.dispatch obj s)) docs st.

(* ===================================================================== *)
(** * Strings, [split] and [includes] *)
(* ===================================================================== *)

Section Strings.

Lemma str_app_nil_l (s : string) : "" +:+ s = s.
Proof. reflexivity. Qed.

Lemma str_app_cons (c : ascii) (s t : string) : String c s +:+ t = String c (s +:+ t).
Proof. reflexivity. Qed.

Lemma str_app_nil_r (s : string) : s +:+ "" = s.
Proof.
  induction s as [|c s IH]; [done |].
  by rewrite str_app_cons, IH.
Qed.

Lemma str_app_assoc (a b c : string) : (a +:+ b) +:+ c = a +:+ (b +:+ c).
Proof.
  induction a as [|x a IH]; [done |].
  by rewrite !str_app_cons, IH.
Qed.

Lemma includes_app (a b : string) :
  includes EOT (a +:+ b) = includes EOT a || includes EOT b.
Proof.
  induction a as [|x a IH]; [done |].
  rewrite str_app_cons. simpl. rewrite IH. by rewrite orb_assoc.
Qed.

Lemma split_nonempty (s : string) : split EOT s ≠ [].
Proof.
  induction s as [|c s IH]; simpl; [done |].
  destruct (Ascii.eqb c EOT); [done |].
  by destruct (split EOT s).
Qed.

(** Without a separator the whole string is the one segment. *)
Lemma split_sentinel_free (s : string) : sentinel_free s → split EOT s = [s].
Proof.
  unfold sentinel_free. induction s as [|c s IH]; simpl; [done |].
  destruct (Ascii.eqb c EOT); simpl; [done |].
  intros Hs. by rewrite IH.
Qed.

(** A segment before a separator is split off as it is. *)
Lemma split_app_sentinel (f rest : string) :
  sentinel_free f → split EOT (f +:+ String EOT rest) = f :: split EOT rest.
Proof.
  unfold sentinel_free. induction f as [|c f IH].
  - intros _. by rewrite str_app_nil_l.
  - rewrite str_app_cons. simpl.
    destruct (Ascii.eqb c EOT) eqn:Hc; simpl; [done |].
    intros Hf. by rewrite IH.
Qed.

Lemma split_frames (fs : list string) (rest : string) :
  Forall sentinel_free fs →
  split EOT (frames fs +:+ rest) = fs ++ split EOT rest.
Proof.
  induction 1 as [|f fs Hf _ IH]; simpl; [done |].
  rewrite str_app_assoc, str_app_cons, split_app_sentinel by done.
  by rewrite IH.
Qed.

Lemma includes_frames (fs : list string) :
  fs ≠ [] → includes EOT (frames fs) = true.
Proof.
  destruct fs as [|f fs]; [done |]. intros _. simpl.
  rewrite includes_app. simpl. by rewrite orb_true_r.
Qed.

Lemma frames_app (fs gs : list string) : frames (fs ++ gs) = frames fs +:+ frames gs.
Proof.
  induction fs as [|f fs IH]; simpl; [done |].
  rewrite IH. by rewrite str_app_assoc, str_app_cons.
Qed.

End Strings.
(* ===================================================================== *)
(** * Promises *)
(* ===================================================================== *)

Section Settle.

Lemma settle_length p o (ps : list (option outcome)) : length (settle p o ps) = length ps.
Proof. unfold settle. destruct (ps !! p) as [[|]|]; by rewrite ?length_insert. Qed.

Lemma settle_lookup_ne p q o (ps : list (option outcome)) :
  p ≠ q → settle p o ps !! q = ps !! q.
Proof.
  intros Hne. unfold settle.
  destruct (ps !! p) as [[|]|]; by rewrite ?list_lookup_insert_ne.
Qed.

(** A settled promise keeps its outcome. *)
Lemma settle_settled p q o o' (ps : list (option outcome)) :
  ps !! q = Some (Some o') → settle p o ps !! q = Some (Some o').
Proof.
  intros Hq. destruct (decide (p = q)) as [->|Hne].
  - unfold settle. by rewrite Hq.
  - by rewrite settle_lookup_ne.
Qed.

Lemma settle_pending p o (ps : list (option outcome)) :
  ps !! p = Some None → settle p o ps !! p = Some (Some o).
Proof.
  intros Hp. unfold settle. rewrite Hp.
  apply list_lookup_insert_eq. by eapply lookup_lt_Some.
Qed.

(** After [settle] the promise is not pending, whatever it was. *)
Lemma settle_not_pending p o (ps : list (option outcome)) :
  settle p o ps !! p ≠ Some None.
Proof.
  destruct (ps !! p) as [[o'|]|] eqn:Hp.
  - by rewrite (settle_settled _ _ _ o').
  - by rewrite settle_pending.
  - unfold settle. by rewrite Hp, Hp.
Qed.

End Settle.

(* ===================================================================== *)
(** * Delimiter framing: the ['data'] handler *)
(* ===================================================================== *)

Section Framing.
Context `{JsonParser}.

Lemma unix_segment_malformed (bad : string) (st : Unix.state) :
  JSON_parse bad = None → Unix.segment bad st = (None, st).
Proof.
  intros Hbad. unfold Unix.segment, Unix.try_segment.
  destruct bad; [done |]. by rewrite Hbad.
Qed.

Lemma unix_for_each_app (a b : list string) (st : Unix.state) :
  Unix.for_each (a ++ b) st =
  let '(d1, st1) := Unix.for_each a st in
  let '(d2, st2) := Unix.for_each b st1 in
  (d1 ++ d2, st2).
Proof.
  revert st. induction a as [|x a IH]; intros st; simpl.
  - by destruct (Unix.for_each b st).
  - destruct (Unix.segment x st) as [doc st1]. rewrite IH.
    destruct (Unix.for_each a st1) as [d1 st2].
    destruct (Unix.for_each b st2) as [d2 st3].
    by rewrite (assoc_L (++)).
Qed.

Lemma unix_for_each_drop (pre post : list string) (bad : string) (st : Unix.state) :
  JSON_parse bad = None →
  Unix.for_each (pre ++ bad :: post) st = Unix.for_each (pre ++ post) st.
Proof.
  intros Hbad. rewrite !unix_for_each_app.
  destruct (Unix.for_each pre st) as [d1 st1]. simpl.
  rewrite unix_segment_malformed by done. by destruct (Unix.for_each post st1).
Qed.

(** The [forEach] never reads the buffer. *)
Lemma unix_call_listeners_buffer (b : string) ls data (st : Unix.state) :
  Unix.call_listeners ls data (Unix.set_collected_string b st) =
  match Unix.call_listeners ls data st with
  | Normal st' => Normal (Unix.set_collected_string b st')
  | Throw e st' => Throw e (Unix.set_collected_string b st')
  end.
Proof.
  revert st. induction ls as [|l ls IH]; intros st; simpl; [done |].
  destruct (Unix.l_throws l data); [done |].
  by rewrite <-IH.
Qed.

Lemma unix_segment_buffer (b text : string) (st : Unix.state) :
  Unix.segment text (Unix.set_collected_string b st) =
  let '(doc, st') := Unix.segment text st in (doc, Unix.set_collected_string b st').
Proof.
  unfold Unix.segment, Unix.try_segment. destruct text as [|c text]; [done |].
  destruct (JSON_parse (String c text)) as [obj|]; [| done].
  unfold Unix.dispatch.
  destruct (get_prop obj "ty") as [ty|]; [| done].
  destruct (get_prop obj "data") as [data|]; [| done].
  destruct (get_prop obj "requester") as [requester|]; [| done].
  destruct (is_event_tag ty).
  - rewrite unix_call_listeners_buffer. simpl.
    by destruct (Unix.call_listeners _ _ st).
  - simpl. by destruct (Unix.pool st !! to_key requester).
Qed.

Lemma unix_for_each_buffer (b : string) (segs : list string) (st : Unix.state) :
  Unix.for_each segs (Unix.set_collected_string b st) =
  let '(docs, st') := Unix.for_each segs st in (docs, Unix.set_collected_string b st').
Proof.
  revert st. induction segs as [|x segs IH]; intros st; simpl; [done |].
  rewrite unix_segment_buffer. destruct (Unix.segment x st) as [doc st1].
  rewrite IH. by destruct (Unix.for_each segs st1).
Qed.

(** Two ways to cut the same bytes at a terminator: the first cut ends the
    first frame, or lies behind it. *)
Lemma sentinel_cut (f r x y : string) :
  sentinel_free f →
  f +:+ String EOT r = x +:+ String EOT y →
  (x = f ∧ y = r) ∨ (∃ x', x = f +:+ String EOT x' ∧ r = x' +:+ String EOT y).
Proof.
  unfold sentinel_free. revert x. induction f as [|a f IH]; intros x Hf Heq.
  - rewrite str_app_nil_l in Heq. destruct x as [|c x].
    + rewrite str_app_nil_l in Heq. left. by simplify_eq.
    + rewrite str_app_cons in Heq. right. exists x. simplify_eq.
      split; [by rewrite str_app_nil_l | done].
  - simpl in Hf. apply orb_false_iff in Hf as [Ha Hf].
    rewrite str_app_cons in Heq. destruct x as [|c x].
    + rewrite str_app_nil_l in Heq. by simplify_eq.
    + rewrite str_app_cons in Heq. simplify_eq.
      destruct (IH x Hf) as [[-> ->]|(x' & -> & ->)]; [done | by left |].
      right. exists x'. by rewrite str_app_cons.
Qed.

(** A prefix of a frame sequence that ends with a terminator is a sequence
    of whole frames, and so is what follows it. *)
Lemma frames_cut (fs : list string) (x y : string) :
  Forall sentinel_free fs →
  x +:+ String EOT y = frames fs →
  ∃ fs1 fs2, fs = fs1 ++ fs2 ∧ x +:+ String EOT "" = frames fs1 ∧ y = frames fs2.
Proof.
  intros Hfs. revert x. induction Hfs as [|f fs Hf Hfs IH]; intros x Heq; simpl in Heq.
  - destruct x; by rewrite ?str_app_nil_l, ?str_app_cons in Heq.
  - symmetry in Heq. apply sentinel_cut in Heq as [[-> ->]|(x' & -> & Hr)]; [| | done].
    + by exists [f], fs.
    + symmetry in Hr. destruct (IH x' Hr) as (fs1 & fs2 & -> & Hx & ->).
      exists (f :: fs1), fs2. split; [done |]. split; [| done].
      simpl. by rewrite <-Hx, str_app_assoc, str_app_cons.
Qed.

Lemma frames_sentinel_free (fs : list string) :
  sentinel_free (frames fs) → fs = [].
Proof.
  destruct fs as [|f fs]; [done |]. unfold sentinel_free.
  by rewrite includes_frames.
Qed.

(** What is decoded depends on the segments only. *)
Lemma unix_segment_doc (f : string) (st : Unix.state) :
  f ≠ "" → fst (Unix.segment f st) = JSON_parse f.
Proof.
  intros Hf. unfold Unix.segment, Unix.try_segment. destruct f as [|c f]; [done |].
  by destruct (JSON_parse (String c f)).
Qed.

Lemma unix_for_each_docs (segs : list string) (st : Unix.state) :
  Forall (λ f, f ≠ "") segs →
  fst (Unix.for_each segs st) = omap JSON_parse segs.
Proof.
  intros Hne. revert st. induction Hne as [|f segs Hf _ IH]; intros st; simpl; [done |].
  pose proof (unix_segment_doc f st Hf) as Hdoc.
  destruct (Unix.segment f st) as [doc st1]. specialize (IH st1).
  destruct (Unix.for_each segs st1) as [docs st2]. simpl in *. subst.
  by destruct (JSON_parse f).
Qed.

(** A chunk that completes the buffer to whole frames is decoded frame by
    frame, and empties the buffer. *)
Lemma unix_on_data_whole (fs : list string) (chunk : string) (st : Unix.state) :
  Forall sentinel_free fs →
  Unix.collected_string st +:+ chunk = frames fs →
  Unix.on_data chunk st =
  let '(docs, st') := Unix.for_each fs st in (docs, Unix.set_collected_string "" st').
Proof.
  intros Hfs Hbuf. unfold Unix.on_data. simpl. rewrite Hbuf.
  destruct fs as [|f fs].
  - simpl. done.
  - rewrite includes_frames by done.
    rewrite <-(str_app_nil_r (frames (f :: fs))), split_frames by done.
    simpl split. rewrite unix_for_each_app, unix_for_each_buffer.
    destruct (Unix.for_each (f :: fs) st) as [docs st']. simpl.
    by rewrite (right_id_L [] (++)).
Qed.

Lemma unix_feed_aligned (chunks fs : list string) (st : Unix.state) :
  Forall sentinel_free fs →
  Forall (λ f, f ≠ "") fs →
  Forall aligned chunks →
  sentinel_free (Unix.collected_string st) →
  Unix.collected_string st +:+ chunks_bytes chunks = frames fs →
  fst (Unix.feed chunks st) = omap JSON_parse fs.
Proof.
  intros Hfree Hne Hal. revert fs st Hfree Hne.
  induction Hal as [|c chunks Hc _ IH]; intros fs st Hfree Hne Hbuf Heq; simpl in *.
  - rewrite str_app_nil_r in Heq. rewrite Heq in Hbuf.
    by rewrite (frames_sentinel_free fs Hbuf).
  - rewrite <-str_app_assoc in Heq. destruct Hc as [Hc|[body ->]].
    + assert (Hbuf' : sentinel_free (Unix.collected_string st +:+ c)).
      { unfold sentinel_free in *. by rewrite includes_app, Hbuf, Hc. }
      unfold Unix.on_data. simpl. rewrite Hbuf'.
      specialize (IH fs (Unix.set_collected_string (Unix.collected_string st +:+ c) st)
                    Hfree Hne Hbuf' Heq).
      by destruct (Unix.feed chunks _).
    + rewrite <-str_app_assoc, str_app_assoc in Heq.
      rewrite str_app_cons, str_app_nil_l in Heq.
      destruct (frames_cut fs _ _ Hfree Heq) as (fs1 & fs2 & -> & Hx & Hrest).
      apply Forall_app in Hfree as [Hfree1 Hfree2].
      apply Forall_app in Hne as [Hne1 Hne2].
      rewrite str_app_assoc in Hx.
      rewrite (unix_on_data_whole fs1) by done.
      pose proof (unix_for_each_docs fs1 st Hne1) as Hdocs.
      destruct (Unix.for_each fs1 st) as [docs st1]. simpl in Hdocs. subst docs.
      specialize (IH fs2 (Unix.set_collected_string "" st1) Hfree2 Hne2).
      rewrite omap_app.
      destruct (Unix.feed chunks _) as [docs' st2]. simpl in *. f_equal.
      apply IH; [done |]. by rewrite str_app_nil_l.
Qed.


(** X1: frames split across chunks are all decoded, in order, when no chunk
    boundary follows a terminator inside the buffer: the buffer then holds
    the whole of every frame by the time its terminator arrives. *)
Theorem aligned_chunks_decode_all (chunks fs : list string) (st : Unix.state) :
  Unix.collected_string st = "" →
  Forall sentinel_free fs →
  Forall (λ f, f ≠ "" ∧ is_Some (JSON_parse f)) fs →
  Forall aligned chunks →
  chunks_bytes chunks = frames fs →
  fst (Unix.feed chunks st) = omap JSON_parse fs
  ∧ length (fst (Unix.feed chunks st)) = length fs.
Proof.
  intros Hbuf Hfree Hwf Hal Heq.
  assert (Hdocs : fst (Unix.feed chunks st) = omap JSON_parse fs).
  { apply unix_feed_aligned; try done.
    - eapply Forall_impl; [exact Hwf |]. by intros f [? _].
    - by rewrite Hbuf.
    - by rewrite Hbuf, str_app_nil_l. }
  split; [done |]. rewrite Hdocs. clear -Hwf.
  induction Hwf as [|f fs [_ [doc Hdoc]] _ IH]; simpl; [done |].
  rewrite Hdoc. simpl. f_equal. exact IH.
Qed.

End Framing.

(** C1: the handler at a feed whose chunk boundary falls inside the second
    of two well-formed frames.  The two chunks concatenate to the two frames,
    but one document is decoded: the first turn of the handler parses the
    head of the second frame as a segment of its own and empties the buffer,
    the second turn parses its tail alone.  Request [b] stays pending though
    its response was received.  The same bytes in one chunk give both
    documents.  The older handler behaves alike. *)
Theorem split_after_terminator_loses_frame :
  chunks_bytes split_chunks = frames [frame_a; frame_b]
  ∧ omap JSON_parse [frame_a; frame_b] = [doc_a; doc_b]
  ∧ fst (Unix.feed split_chunks two_pending) = [doc_a]
  ∧ Unix.promises (snd (Unix.feed split_chunks two_pending))
    = [Some (Resolved (Some (JNum 1))); None]
  ∧ Unix.collected_string (snd (Unix.feed split_chunks two_pending)) = ""
  ∧ fst (Legacy.feed split_chunks legacy_two_pending) = [doc_a]
  ∧ fst (Unix.feed [frames [frame_a; frame_b]] two_pending) = [doc_a; doc_b].
Proof. vm_compute. repeat split. Qed.

(* ===================================================================== *)
(** * Classification and correlation of a decoded document *)
(* ===================================================================== *)

Section Correlation.
Context `{JsonParser}.

Lemma unix_set_pool_id (st : Unix.state) : Unix.set_pool (Unix.pool st) st = st.
Proof. by destruct st. Qed.

Lemma ws_set_pool_id (st : Ws.state) : Ws.set_pool (Ws.pool st) st = st.
Proof. by destruct st. Qed.

Lemma call_listeners_reached (ls : list Unix.listener) (data : jsval) (st : Unix.state) :
  state_after (Unix.call_listeners ls data st) =
  Unix.set_delivered
    (Unix.delivered st ++ map (λ l, (Unix.l_id l, data)) (reached ls data)) st.
Proof.
  revert st. induction ls as [|l ls IH]; intros st; simpl.
  - rewrite (right_id_L [] (++)). by destruct st.
  - destruct (Unix.l_throws l data); simpl; [done |].
    rewrite IH. simpl. by rewrite <-(assoc_L (++)).
Qed.

Lemma reached_all (ls : list Unix.listener) (data : jsval) :
  Forall (λ l, Unix.l_throws l data = false) ls → reached ls data = ls.
Proof.
  induction 1 as [|l ls Hl _ IH]; simpl; [done |]. by rewrite Hl, IH.
Qed.

(** C7, as the code has it: on the combined channel a decoded document whose
    [ty] is the string [event] is handed, in registration order, to the
    registered listeners up to and including the first one that throws (to
    all of them when none throws), and touches neither the pool nor any
    promise or timer; any other decoded document is a response, looked up
    in the pool under its [requester] alone, whose entry, if there is one,
    is called and then deleted, and no listener is called.  Reading [ty] of
    the document [null] throws, and the document is dropped. *)
Theorem inbound_classification (obj : json) (st : Unix.state) :
  match get_prop obj "ty", get_prop obj "data", get_prop obj "requester" with
  | Some ty, Some data, Some requester =>
      if is_event_tag ty then
        state_after (Unix.dispatch obj st) =
          Unix.set_delivered
            (Unix.delivered st ++
               map (λ l, (Unix.l_id l, data)) (reached (Unix.event_listeners st) data)) st
        ∧ (Forall (λ l, Unix.l_throws l data = false) (Unix.event_listeners st) →
           reached (Unix.event_listeners st) data = Unix.event_listeners st)
      else
        Unix.dispatch obj st =
          Normal (Unix.set_pool (delete (to_key requester) (Unix.pool st))
                    match Unix.pool st !! to_key requester with
                    | Some p => Unix.run_callback p data st
                    | None => st
                    end)
        ∧ Unix.delivered (state_after (Unix.dispatch obj st)) = Unix.delivered st
  | _, _, _ => state_after (Unix.dispatch obj st) = st
  end.
Proof.
  unfold Unix.dispatch.
  destruct (get_prop obj "ty") as [ty|]; [| done].
  destruct (get_prop obj "data") as [data|]; [| done].
  destruct (get_prop obj "requester") as [requester|]; [| done].
  destruct (is_event_tag ty).
  - split; [apply call_listeners_reached | apply reached_all].
  - by destruct (Unix.pool st !! to_key requester).
Qed.

End Correlation.

Lemma inbound_classification_witness :
  state_after (Unix.dispatch event_doc with_throwing_listener)
  = Unix.set_delivered [(0, Some (JObj [("x", JNum 1)]))] with_throwing_listener.
Proof.
  destruct (inbound_classification event_doc with_throwing_listener) as [Hd _].
  exact Hd.
Defined.

(** C7 as stated fails: with two listeners registered, the first of which
    throws, the event document reaches the first listener only. *)
Lemma event_stops_at_throwing_listener :
  map Unix.l_id (Unix.event_listeners with_throwing_listener) = [0; 1]
  ∧ JSON_parse event_frame = Some event_doc
  ∧ Unix.delivered (snd (Unix.on_data (event_frame +:+ String EOT "") with_throwing_listener))
    = [(0, Some (JObj [("x", JNum 1)]))].
Proof. vm_compute. repeat split. Qed.

(* ===================================================================== *)
(** * The correlation pool of the Unix client over time *)
(* ===================================================================== *)

Section UnixInvariants.
Context `{JsonParser}.
Import Unix.

(** Whatever holds of the state and is kept by the four things the ['data']
    handler does to it, is kept by the handler. *)
Lemma on_data_preserves (P : state → Prop) :
  (∀ st b, P st → P (set_collected_string b st)) →
  (∀ st d, P st → P (set_delivered d st)) →
  (∀ st k, P st → P (set_pool (delete k (pool st)) st)) →
  (∀ st k p data, P st → pool st !! k = Some p → P (run_callback p data st)) →
  ∀ chunk st, P st → P (snd (on_data chunk st)).
Proof.
  intros Hbuf Hdel Hpool Hcb.
  assert (Hls : ∀ ls data st, P st → P (state_after (call_listeners ls data st))).
  { induction ls as [|l ls IH]; intros data st HP; simpl; [done |].
    destruct (l_throws l data); simpl; [by apply Hdel |].
    by apply IH, Hdel. }
  assert (Hseg : ∀ text st, P st → P (snd (segment text st))).
  { intros text st HP. unfold segment, try_segment.
    destruct text as [|c text]; [done |].
    destruct (JSON_parse (String c text)) as [obj|]; [| done]. simpl.
    unfold dispatch.
    destruct (get_prop obj "ty") as [ty|]; [| done].
    destruct (get_prop obj "data") as [data|]; [| done].
    destruct (get_prop obj "requester") as [requester|]; [| done].
    destruct (is_event_tag ty); [by apply Hls |]. simpl.
    apply Hpool. destruct (pool st !! to_key requester) eqn:Hk; [| done].
    by eapply Hcb. }
  assert (Hfe : ∀ segs st, P st → P (snd (for_each segs st))).
  { induction segs as [|x segs IH]; intros st HP; simpl; [done |].
    specialize (Hseg x st HP). destruct (segment x st) as [doc st1].
    specialize (IH st1 Hseg). by destruct (for_each segs st1). }
  intros chunk st HP. unfold on_data.
  destruct (includes EOT _).
  - specialize (Hfe (split EOT (collected_string
       (set_collected_string (collected_string st +:+ chunk) st)))
       (set_collected_string (collected_string st +:+ chunk) st)
       (Hbuf _ _ HP)).
    destruct (for_each _ _) as [docs st2]. by apply Hbuf.
  - by apply Hbuf.
Qed.

(** ** A settled promise stays as it is *)

Lemma step_settled (p : nat) (o : outcome) (e : event) (st : state) :
  promises st !! p = Some (Some o) → promises (step st e) !! p = Some (Some o).
Proof.
  destruct e; simpl; try done.
  - unfold request. destruct (client st); simpl; intros Hp;
      by rewrite lookup_app_l by (by eapply lookup_lt_Some).
  - unfold on_connect, request. destruct (client st); simpl; intros Hp;
      by rewrite lookup_app_l by (by eapply lookup_lt_Some).
  - apply (on_data_preserves (λ st, promises st !! p = Some (Some o))); try done.
    intros st' k q data Hp _. simpl. by apply settle_settled.
  - unfold on_close. by destruct (client st).
  - unfold on_close. by destruct (client st).
  - unfold on_tick. destruct (client st); [done |]. by destruct (reconnect st).
  - unfold timer_fired. destruct (timers st !! p0); [| done]. simpl.
    by apply settle_settled.
Qed.

Lemma run_settled (p : nat) (o : outcome) (es : list event) (st : state) :
  promises st !! p = Some (Some o) → promises (run st es) !! p = Some (Some o).
Proof.
  revert st. induction es as [|e es IH]; intros st Hp; simpl; [done |].
  by apply IH, step_settled.
Qed.

(** ** A promise is pending exactly while its timer is armed *)

Lemma run_callback_wf p data st : timers_wf st → timers_wf (run_callback p data st).
Proof.
  intros Hwf q. simpl. destruct (decide (p = q)) as [->|Hne].
  - rewrite lookup_delete_eq. split; [by intros [? ?] |].
    intros Hq. by apply settle_not_pending in Hq.
  - rewrite lookup_delete_ne, settle_lookup_ne by done. apply Hwf.
Qed.

Lemma timer_fired_wf p st : timers_wf st → timers_wf (timer_fired p st).
Proof.
  intros Hwf. unfold timer_fired. destruct (timers st !! p); [| done].
  intros q. simpl. destruct (decide (p = q)) as [->|Hne].
  - rewrite lookup_delete_eq. split; [by intros [? ?] |].
    intros Hq. by apply settle_not_pending in Hq.
  - rewrite lookup_delete_ne, settle_lookup_ne by done. apply Hwf.
Qed.

Lemma request_wf requester data timeout st :
  timers_wf st → timers_wf (snd (request requester data timeout st)).
Proof.
  intros Hwf q. unfold request.
  assert (Hfresh : timers st !! length (promises st) = None).
  { destruct (timers st !! length (promises st)) eqn:Ht; [| done].
    assert (Hp : promises st !! length (promises st) = Some None) by (apply Hwf; eauto).
    apply lookup_lt_Some in Hp. lia. }
  destruct (client st); simpl.
  - destruct (decide (length (promises st) = q)) as [<-|Hne].
    + rewrite lookup_insert_eq, list_lookup_middle by done.
      split; eauto.
    + rewrite lookup_insert_ne by done. rewrite (Hwf q).
      destruct (decide (q < length (promises st))).
      * by rewrite lookup_app_l.
      * rewrite (lookup_ge_None_2 (promises st)) by lia.
        rewrite lookup_ge_None_2; [done |]. rewrite length_app. simpl. lia.
  - rewrite (Hwf q). destruct (decide (q < length (promises st))).
    + by rewrite lookup_app_l.
    + rewrite (lookup_ge_None_2 (promises st)) by lia.
      destruct (decide (length (promises st) = q)) as [<-|Hne].
      * rewrite list_lookup_middle by done. done.
      * rewrite lookup_ge_None_2; [done |]. rewrite length_app. simpl. lia.
Qed.

Lemma step_wf (e : event) (st : state) : timers_wf st → timers_wf (step st e).
Proof.
  destruct e; simpl; try done.
  - apply request_wf.
  - apply request_wf.
  - apply (on_data_preserves timers_wf); try done.
    intros st' k q data Hwf _. by apply run_callback_wf.
  - unfold on_close. by destruct (client st).
  - unfold on_close. by destruct (client st).
  - unfold on_tick. destruct (client st); [done |]. by destruct (reconnect st).
  - apply timer_fired_wf.
Qed.

Lemma run_wf (es : list event) (st : state) : timers_wf st → timers_wf (run st es).
Proof.
  revert st. induction es as [|e es IH]; intros st Hwf; simpl; [done |].
  by apply IH, step_wf.
Qed.

Lemma init_wf timeout reconnect : timers_wf (init timeout reconnect).
Proof.
  intros p. simpl. rewrite lookup_empty, lookup_nil. split; [by intros [? ?] | done].
Qed.

(** ** Pool entries are distinct closures of promises that exist *)

Lemma request_pool_wf requester data timeout st :
  pool_wf st → pool_wf (snd (request requester data timeout st)).
Proof.
  intros [Hlt Hinj]. unfold pool_wf, request. destruct (client st); simpl.
  - split.
    + intros k p. rewrite length_app. simpl.
      destruct (decide (requester = k)) as [->|Hne].
      * rewrite lookup_insert_eq. intros [= <-]. lia.
      * rewrite lookup_insert_ne by done. intros Hk%Hlt. lia.
    + intros k1 k2 p.
      destruct (decide (requester = k1)) as [<-|Hne1];
        destruct (decide (requester = k2)) as [<-|Hne2];
        rewrite ?lookup_insert_eq, ?lookup_insert_ne by done; try done.
      * intros [= <-] Hk%Hlt. lia.
      * intros Hk%Hlt [= <-]. lia.
      * apply Hinj.
  - split; [| done]. intros k p Hk%Hlt. rewrite length_app. simpl. lia.
Qed.

Lemma step_pool_wf (e : event) (st : state) : pool_wf st → pool_wf (step st e).
Proof.
  destruct e; simpl; try done.
  - apply request_pool_wf.
  - apply request_pool_wf.
  - apply (on_data_preserves pool_wf); try done.
    + intros st' k [Hlt Hinj]. split; simpl.
      * intros k' p [_ Hk]%lookup_delete_Some. by eapply Hlt.
      * intros k1 k2 p [_ Hk1]%lookup_delete_Some [_ Hk2]%lookup_delete_Some.
        by eapply Hinj.
    + intros st' k p data [Hlt Hinj] _. split; simpl; [| done].
      intros k' p'. rewrite settle_length. apply Hlt.
  - unfold on_close. by destruct (client st).
  - unfold on_close. by destruct (client st).
  - unfold on_tick. destruct (client st); [done |]. by destruct (reconnect st).
  - unfold timer_fired. destruct (timers st !! p); [| done].
    intros [Hlt Hinj]. split; simpl; [| done].
    intros k' p'. rewrite settle_length. apply Hlt.
Qed.

Lemma reachable_pool_wf (st : state) : unix_reachable st → pool_wf st.
Proof.
  intros (timeout & reconnect & es & ->).
  assert (Hinit : pool_wf (init timeout reconnect)).
  { split; simpl; intros *; by rewrite lookup_empty. }
  revert Hinit. generalize (init timeout reconnect).
  induction es as [|e es IH]; intros st Hwf; simpl; [done |].
  by apply IH, step_pool_wf.
Qed.

Lemma reachable_timers_wf (st : state) : unix_reachable st → timers_wf st.
Proof. intros (timeout & reconnect & es & ->). apply run_wf, init_wf. Qed.

(** ** A promise whose closure is not in the pool *)

Lemma displaced_settle (p p1 : nat) (o : outcome) (ps : list (option outcome)) :
  (p = p1 → o = Rejected "Request timed out") →
  ps !! p1 = Some None ∨ ps !! p1 = Some (Some (Rejected "Request timed out")) →
  settle p o ps !! p1 = Some None
  ∨ settle p o ps !! p1 = Some (Some (Rejected "Request timed out")).
Proof.
  intros Ho Hp1. destruct (decide (p = p1)) as [->|Hne].
  - right. rewrite Ho by done. destruct Hp1 as [Hp1|Hp1].
    + by apply settle_pending.
    + by apply settle_settled.
  - by rewrite settle_lookup_ne.
Qed.

Lemma step_displaced (p1 : nat) (e : event) (st : state) :
  displaced p1 st → displaced p1 (step st e).
Proof.
  assert (Hreq : ∀ requester data timeout st,
    displaced p1 st → displaced p1 (snd (request requester data timeout st))).
  { intros requester data timeout st' [Hout Hp1]. unfold request.
    assert (Hlt : p1 < length (promises st'))
      by (destruct Hp1 as [Hp1|Hp1]; by eapply lookup_lt_Some).
    unfold displaced.
    destruct (client st'); simpl; (split; [| by rewrite lookup_app_l]); [| done].
    intros k. destruct (decide (requester = k)) as [->|Hne].
    - rewrite lookup_insert_eq. intros [= ?]. lia.
    - by rewrite lookup_insert_ne. }
  destruct e; simpl; try done.
  - apply Hreq.
  - apply Hreq.
  - apply (on_data_preserves (displaced p1)); try done.
    + intros st' k [Hout Hp1]. split; simpl; [| done].
      intros k' [_ Hk]%lookup_delete_Some. by eapply Hout.
    + intros st' k p data [Hout Hp1] Hk. split; simpl; [done |].
      apply displaced_settle; [| done]. intros ->. by destruct (Hout k).
  - unfold on_close. by destruct (client st).
  - unfold on_close. by destruct (client st).
  - unfold on_tick. destruct (client st); [done |]. by destruct (reconnect st).
  - unfold timer_fired. destruct (timers st !! p); [| done].
    intros [Hout Hp1]. split; simpl; [done |]. by apply displaced_settle.
Qed.

Lemma run_displaced (p1 : nat) (es : list event) (st : state) :
  displaced p1 st → displaced p1 (run st es).
Proof.
  revert st. induction es as [|e es IH]; intros st Hd; simpl; [done |].
  by apply IH, step_displaced.
Qed.

(** C9: a request made under an id that is in the pool takes the entry
    over.  The closure of the earlier request is then in the pool under no
    key, now or later, so no response can reach it; its timer is still
    armed, and its promise stays pending until it is rejected by that
    timer. *)
Theorem id_collision_overwrites (st : state) (id : string) (p1 : nat)
    (data : list (string * json)) (timeout : option nat) :
  unix_reachable st →
  is_Some (client st) →
  pool st !! id = Some p1 →
  promises st !! p1 = Some None →
  pool (step st (Request id data timeout)) !! id = Some (length (promises st))
  ∧ length (promises st) ≠ p1
  ∧ is_Some (timers (step st (Request id data timeout)) !! p1)
  ∧ ∀ es,
      (∀ k, pool (run (step st (Request id data timeout)) es) !! k ≠ Some p1)
      ∧ (promises (run (step st (Request id data timeout)) es) !! p1 = Some None
         ∨ promises (run (step st (Request id data timeout)) es) !! p1
           = Some (Some (Rejected "Request timed out"))).
Proof.
  intros Hreach [sock Hsock] Hid Hp1.
  destruct (reachable_pool_wf st Hreach) as [Hlt Hinj].
  pose proof (reachable_timers_wf st Hreach) as Hwf.
  assert (Hne : length (promises st) ≠ p1) by (apply lookup_lt_Some in Hp1; lia).
  simpl. unfold request. rewrite Hsock. simpl.
  split; [by rewrite lookup_insert_eq |]. split; [done |]. split.
  { rewrite lookup_insert_ne by done. by apply Hwf. }
  intros es.
  apply (run_displaced p1 es). split; simpl.
  - intros k. destruct (decide (id = k)) as [->|Hk].
    + rewrite lookup_insert_eq. congruence.
    + rewrite lookup_insert_ne by done. intros Hk'. by specialize (Hinj _ _ _ Hid Hk').
  - left. rewrite lookup_app_l; [done |]. by eapply lookup_lt_Some.
Qed.

End UnixInvariants.

Lemma id_collision_overwrites_witness :
  Unix.pool (Unix.step abc_pending (Unix.Request "abc" [] None)) !! "abc" = Some 1
  ∧ Unix.promises (Unix.run (Unix.step abc_pending (Unix.Request "abc" [] None))
                     [Unix.Data (wire "{'requester':'abc','data':7}" +:+ String EOT "")]) !! 0
    = Some None.
Proof.
  destruct (id_collision_overwrites abc_pending "abc" 0 [] None) as (Hpool & _ & _ & Hlater).
  - by exists 5000, true, [Unix.Request "abc" [] (Some 50)].
  - vm_compute. eauto.
  - vm_compute. reflexivity.
  - reflexivity.
  - split; [exact Hpool |]. vm_compute. reflexivity.
Defined.

(** C3 as stated fails: after the timer of request [abc] fired, its entry
    is still in the pool. *)
Lemma entry_survives_timeout :
  Unix.promises (Unix.step abc_pending (Unix.Timeout 0)) !! 0
    = Some (Some (Rejected "Request timed out"))
  ∧ Unix.pool (Unix.step abc_pending (Unix.Timeout 0)) !! "abc" = Some 0.
Proof. vm_compute. split; reflexivity. Qed.

(* ===================================================================== *)
(** * [destroy] *)
(* ===================================================================== *)

(** C10: [destroy] of the Unix client throws.  In src/index.js it calls
    [opts.destroy], which is [undefined], so it throws a [TypeError] in every
    state; in the older variant it calls [client.destroy()], which throws a
    [TypeError] whenever the handle is [null].  In both cases the client is
    left exactly as it was. *)
Theorem destroy_throws (st : Unix.state) (lst : Legacy.state) :
  Unix.destroy st = Throw TypeError st
  ∧ (Unix.client lst = None → Legacy.destroy lst = Throw TypeError lst).
Proof.
  split; [done |]. intros Hnull. unfold Legacy.destroy. by rewrite Hnull.
Qed.

Lemma destroy_throws_witness :
  Unix.destroy two_pending = Throw TypeError two_pending
  ∧ Legacy.destroy pending_and_down = Throw TypeError pending_and_down.
Proof.
  destruct (destroy_throws two_pending pending_and_down) as [Hnew Hold].
  split; [exact Hnew |]. apply Hold. reflexivity.
Defined.

(** C4, as the code has it: [destroy] completes no request and stops no
    timer.  After it the promises, the request timers and the pool are what
    they were, in src/index.js and in the older variant alike, so a request
    pending at that time stays pending until its response or its own timeout
    settles it; and when the connection is closed after it, the next tick of
    the supervisor opens a new one if [reconnect] is set. *)
Theorem destroy_leaves_requests_and_supervisor `{JsonParser} (st : Unix.state) :
  Unix.promises (state_after (Unix.destroy st)) = Unix.promises st
  ∧ Unix.timers (state_after (Unix.destroy st)) = Unix.timers st
  ∧ Unix.pool (state_after (Unix.destroy st)) = Unix.pool st
  ∧ Unix.promises (state_after (Legacy.destroy st)) = Unix.promises st
  ∧ Unix.timers (state_after (Legacy.destroy st)) = Unix.timers st
  ∧ Unix.pool (state_after (Legacy.destroy st)) = Unix.pool st
  ∧ (Unix.reconnect st = true →
     Unix.sockets (Unix.on_tick (Unix.on_close (state_after (Unix.destroy st))))
       = S (Unix.sockets st)
     ∧ Unix.sockets (Unix.on_tick (Unix.on_close (state_after (Legacy.destroy st))))
       = S (Unix.sockets st)).
Proof.
  split; [done |]. split; [done |]. split; [done |].
  unfold Legacy.destroy, Unix.on_tick, Unix.on_close.
  destruct st as [buf [sock|] t r pl ls ps ts n w d dl]; simpl;
    repeat (split; [done |]); by intros ->.
Qed.

Lemma destroy_leaves_requests_and_supervisor_witness :
  Unix.sockets (Unix.on_tick (Unix.on_close (state_after (Unix.destroy two_pending)))) = 2
  ∧ Unix.sockets (Unix.on_tick (Unix.on_close (state_after (Legacy.destroy two_pending)))) = 2.
Proof.
  destruct (destroy_leaves_requests_and_supervisor two_pending)
    as (_ & _ & _ & _ & _ & _ & Htick).
  apply Htick. reflexivity.
Defined.

(** C4 as stated fails: request [r1] is pending and the connection is down
    when [destroy] is called; after the call the request is still pending
    with its timer armed, and the next tick of the supervisor opens a second
    connection. *)
Lemma destroy_stops_nothing :
  Unix.promises (Unix.run pending_and_down [Unix.Destroy]) !! 0 = Some None
  ∧ Unix.timers (Unix.run pending_and_down [Unix.Destroy]) !! 0 = Some 5000
  ∧ Unix.sockets (Unix.run pending_and_down [Unix.Destroy]) = 1
  ∧ Unix.client (Unix.run pending_and_down [Unix.Destroy; Unix.Tick]) = Some 1
  ∧ Unix.sockets (Unix.run pending_and_down [Unix.Destroy; Unix.Tick]) = 2
  ∧ Unix.promises (Unix.run pending_and_down [Unix.Destroy; Unix.Tick]) !! 0 = Some None.
Proof. vm_compute. repeat split. Qed.

(* ===================================================================== *)
(** * The WebSocket client: queue and retry *)
(* ===================================================================== *)

Section WsRetry.
Context `{JsonParser}.
Import Ws.

Lemma times_sent_send (p q : nat) (doc : json) (st : state) :
  times_sent p (send q doc st) = times_sent p st + (if decide (q = p) then 1 else 0).
Proof.
  unfold times_sent, send. simpl. rewrite filter_app, length_app. f_equal.
  rewrite filter_cons, filter_nil. simpl. by destruct (decide (q = p)).
Qed.

Lemma times_sent_intervals (p : nat) (m : gmap nat json) (st : state) :
  times_sent p (set_intervals m st) = times_sent p st.
Proof. reflexivity. Qed.

(** What the ['message'] handler does to the state it does through the
    pool entry it calls and the [delete] that follows. *)
Lemma on_message_preserves (P : state → Prop) :
  (∀ st k, P st → P (set_pool (delete k (pool st)) st)) →
  (∀ st k p data, P st → pool st !! k = Some p → P (run_callback p data st)) →
  ∀ data st, P st → P (snd (on_message data st)).
Proof.
  intros Hpool Hcb data st HP. unfold on_message, try_message.
  destruct (JSON_parse data) as [obj|]; [| done]. simpl. unfold dispatch.
  destruct (get_prop obj "RequestID") as [id|]; [| done].
  destruct (get_prop obj "Data") as [d|]; [| done]. simpl.
  apply Hpool. destruct (pool st !! to_key id) eqn:Hk; [| done].
  by eapply Hcb.
Qed.

(** ** Sends and retry intervals *)

Lemma request_retry_wf request_id name data timeout st :
  retry_wf st → retry_wf (snd (request request_id name data timeout st)).
Proof.
  intros Hwf p. destruct (Hwf p) as (Hle & Harmed & Hfresh).
  destruct (Hwf (length (promises st))) as (_ & _ & Hnew).
  destruct Hnew as (Hni & Hnt & Hns); [done |].
  unfold request. simpl.
  replace (connected (set_promises (promises st ++ [None]) st)) with (connected st) by done.
  destruct (connected st); simpl.
  - change (times_sent p _) with
      (times_sent p (send (length (promises st)) (JObj (set_field "RequestID" (JStr request_id)
         (set_field "Name" (JStr name) (default [] data)))) st)).
    rewrite !times_sent_send, length_app. simpl.
    destruct (decide (length (promises st) = p)) as [<-|Hne].
    + rewrite Hns, Hni. repeat split; try lia. by intros [? ?].
    + rewrite ?lookup_insert_ne by done.
      repeat split; try lia; try (apply Hfresh; lia).
      intros ?. rewrite Harmed by done. lia.
  - unfold times_sent. simpl. fold (times_sent p st). rewrite length_app. simpl.
    destruct (decide (length (promises st) = p)) as [<-|Hne].
    + rewrite Hns. repeat split; try lia.
    + rewrite !lookup_insert_ne by done.
      repeat split; try lia; try done; apply Hfresh; lia.
Qed.

Lemma step_retry_wf (e : event) (st : state) : retry_wf st → retry_wf (step st e).
Proof.
  destruct e; simpl; try done.
  - apply request_retry_wf.
  - unfold close. by destruct (client st) as [[| | |]|].
  - unfold on_open. by destruct (client st).
  - apply (on_message_preserves retry_wf); try done.
    intros st' k q d Hwf _ p. destruct (Hwf p) as (Hle & Harmed & Hfresh).
    unfold times_sent. simpl. rewrite settle_length.
    repeat split; try done.
    + by apply Hfresh.
    + destruct (decide (q = p)) as [->|Hne];
        [by rewrite lookup_delete_eq | rewrite lookup_delete_ne by done; by apply Hfresh].
    + by apply Hfresh.
  - unfold on_tick. destruct (client st); [done |]. by destruct (reconnect st).
  - intros Hwf q. destruct (Hwf q) as (Hle & Harmed & Hfresh).
    unfold timer_fired. destruct (timers st !! p); [| done].
    unfold times_sent. simpl. rewrite settle_length.
    repeat split; try done.
    + destruct (decide (p = q)) as [->|Hne];
        [rewrite lookup_delete_eq; by intros [? ?] | by rewrite lookup_delete_ne].
    + destruct (decide (p = q)) as [->|Hne];
        [by rewrite lookup_delete_eq | rewrite lookup_delete_ne by done; by apply Hfresh].
    + destruct (decide (p = q)) as [->|Hne];
        [by rewrite lookup_delete_eq | rewrite lookup_delete_ne by done; by apply Hfresh].
    + by apply Hfresh.
  - intros Hwf q. destruct (Hwf q) as (Hle & Harmed & Hfresh).
    unfold retry_fired. destruct (intervals st !! p) as [doc|] eqn:Hp; [| done].
    destruct (connected st); [| done].
    assert (Hp0 : times_sent p st = 0).
    { destruct (Hwf p) as (_ & Hz & _). apply Hz. by rewrite Hp. }
    assert (Hplt : p < length (promises st)).
    { destruct (decide (p < length (promises st))); [done |].
      destruct (Hwf p) as (_ & _ & Hf). destruct Hf as (Hf & _); [lia | congruence]. }
    simpl. rewrite times_sent_intervals, times_sent_send.
    destruct (decide (p = q)) as [->|Hne].
    + rewrite lookup_delete_eq. repeat split; try lia; try done.
    + rewrite lookup_delete_ne by done.
      repeat split; try lia; try done; try (apply Hfresh; lia).
      intros ?. rewrite Harmed by done. lia.
Qed.

Lemma reachable_retry_wf (st : state) : ws_reachable st → retry_wf st.
Proof.
  intros (timeout & retry & reconnect & es & ->).
  assert (Hinit : retry_wf (init timeout retry reconnect)).
  { intros p. unfold times_sent. simpl. rewrite !lookup_empty.
    repeat split; try done; try lia. }
  revert Hinit. generalize (init timeout retry reconnect).
  induction es as [|e es IH]; intros st Hwf; simpl; [done |].
  by apply IH, step_retry_wf.
Qed.

(** ** Once its interval is cleared a request is not sent any more *)

Lemma step_retired (p n : nat) (e : event) (st : state) :
  retired p n st → retired p n (step st e).
Proof.
  intros (Hi & Hlt & Hn). destruct e; simpl.
  - unfold retired, request. simpl.
    replace (connected (set_promises (promises st ++ [None]) st)) with (connected st) by done.
    destruct (connected st); simpl.
    + change (times_sent p _) with
        (times_sent p (send (length (promises st)) (JObj (set_field "RequestID" (JStr request_id)
           (set_field "Name" (JStr name) (default [] data)))) st)).
      rewrite times_sent_send, length_app, decide_False by lia. simpl.
      repeat split; try done; lia.
    + change (times_sent p _) with (times_sent p st).
      rewrite lookup_insert_ne, length_app by lia. simpl.
      repeat split; try done; lia.
  - unfold close. by destruct (client st) as [[| | |]|].
  - unfold on_open. by destruct (client st).
  - apply (on_message_preserves (retired p n)); try done.
    intros st' k q d (Hi' & Hlt' & Hn') _. unfold retired, times_sent. simpl.
    by rewrite settle_length.
  - done.
  - done.
  - unfold on_tick. destruct (client st); [done |]. by destruct (reconnect st).
  - unfold timer_fired. destruct (timers st !! p0); [| done].
    unfold retired, times_sent. simpl. rewrite settle_length.
    repeat split; try done.
    destruct (decide (p0 = p)) as [->|Hne];
      [by rewrite lookup_delete_eq | by rewrite lookup_delete_ne].
  - unfold retry_fired. destruct (intervals st !! p0) as [doc|] eqn:Hp0; [| done].
    destruct (connected st); [| done].
    assert (p0 ≠ p) by congruence.
    unfold retired. simpl.
    rewrite times_sent_intervals, times_sent_send, lookup_delete_ne by done.
    repeat split; try done. destruct (decide (p0 = p)); [done | lia].
Qed.

Lemma run_retired (p n : nat) (es : list event) (st : state) :
  retired p n st → retired p n (run st es).
Proof.
  revert st. induction es as [|e es IH]; intros st Hr; simpl; [done |].
  by apply IH, step_retired.
Qed.

(** C8: a request made while the socket is not open is queued: its retry
    interval is armed and nothing is sent.  A retry that finds the socket not
    open changes nothing, so the interval stays armed; the first retry that
    finds it open sends the request and clears the interval.  In every state
    the client can reach a request was sent at most once, and not at all
    while its interval is armed.  When the timer of the request fires, the
    interval is cleared for good: whatever happens later, the request is not
    sent again. *)
Theorem queue_and_retry (st : state) (p : nat) :
  ws_reachable st →
  times_sent p st ≤ 1
  ∧ (is_Some (intervals st !! p) → times_sent p st = 0)
  ∧ (∀ request_id name data timeout, connected st = false →
       is_Some (intervals (snd (request request_id name data timeout st))
                  !! fst (request request_id name data timeout st))
       ∧ sent (snd (request request_id name data timeout st)) = sent st)
  ∧ (connected st = false → retry_fired p st = st)
  ∧ (∀ doc, intervals st !! p = Some doc → connected st = true →
       sent (retry_fired p st) = sent st ++ [(p, doc)]
       ∧ intervals (retry_fired p st) !! p = None
       ∧ times_sent p (retry_fired p st) = 1)
  ∧ (is_Some (timers st !! p) → ∀ es,
       intervals (run (timer_fired p st) es) !! p = None
       ∧ times_sent p (run (timer_fired p st) es) = times_sent p st).
Proof.
  intros Hreach. pose proof (reachable_retry_wf st Hreach) as Hwf.
  destruct (Hwf p) as (Hle & Harmed & Hfresh).
  split; [done |]. split; [done |]. split; [| split; [| split]].
  - intros request_id name data timeout Hdown. unfold request. simpl.
    replace (connected (set_promises (promises st ++ [None]) st)) with (connected st) by done.
    rewrite Hdown. simpl. by rewrite lookup_insert_eq.
  - intros Hdown. unfold retry_fired. rewrite Hdown. by destruct (intervals st !! p).
  - intros doc Hdoc Hup. unfold retry_fired. rewrite Hdoc, Hup. simpl.
    split; [done |]. split; [by rewrite lookup_delete_eq |].
    rewrite times_sent_intervals, times_sent_send, Harmed by eauto. by rewrite decide_True.
  - intros [ms Ht] es.
    assert (Hlt : p < length (promises st)).
    { destruct (decide (p < length (promises st))); [done |].
      destruct Hfresh as (_ & Hf & _); [lia | congruence]. }
    assert (Hr : retired p (times_sent p st) (timer_fired p st)).
    { unfold timer_fired. rewrite Ht. unfold retired, times_sent. simpl.
      by rewrite lookup_delete_eq, settle_length. }
    by destruct (run_retired p _ es _ Hr) as (? & _ & ?).
Qed.

End WsRetry.

Lemma queue_and_retry_witness :
  times_sent 0 ws_two_queued = 0
  ∧ Ws.retry_fired 0 ws_two_queued = ws_two_queued
  ∧ times_sent 0 ws_after_reconnect ≤ 1.
Proof.
  destruct (queue_and_retry ws_two_queued 0) as (_ & Hqueued & _ & Hdown & _).
  - by exists 5000, 200, true,
      [Ws.Request "r1" "List Connected Devices" None None;
       Ws.Request "r2" "List Discovered Devices" None None].
  - split; [apply Hqueued; vm_compute; eauto |].
    split; [apply Hdown; reflexivity |].
    apply (queue_and_retry ws_after_reconnect 0).
    by exists 5000, 200, true,
      [Ws.Request "r1" "List Connected Devices" None None;
       Ws.Request "r2" "List Discovered Devices" None None;
       Ws.Open; Ws.Retry 0; Ws.Retry 1; Ws.Retry 0].
Defined.

(* ===================================================================== *)
(** * The concrete scenarios of the specification *)
(* ===================================================================== *)

(** A frame split before any terminator is put together again. *)
Lemma aligned_chunks_decode_all_witness :
  fst (Unix.feed [wire "{'requester':'a',"; wire "'data':1}" +:+ String EOT ""] two_pending)
  = omap JSON_parse [frame_a]
  ∧ length (fst (Unix.feed [wire "{'requester':'a',"; wire "'data':1}" +:+ String EOT ""]
                   two_pending))
    = length [frame_a].
Proof.
  apply (aligned_chunks_decode_all
           [wire "{'requester':'a',"; wire "'data':1}" +:+ String EOT ""]
           [frame_a] two_pending).
  - reflexivity.
  - repeat constructor.
  - constructor; [| constructor].
    split; [vm_compute; discriminate | vm_compute; eauto].
  - constructor; [by left |]. constructor; [| constructor].
    right. by exists (wire "'data':1}").
  - vm_compute. reflexivity.
Defined.

(** Two whole frames in one chunk are two documents, each resolving its
    request. *)
Example two_frames_in_one_chunk :
  fst (Unix.feed [frames [frame_a; frame_b]] two_pending) = [doc_a; doc_b]
  ∧ Unix.promises (snd (Unix.feed [frames [frame_a; frame_b]] two_pending))
    = [Some (Resolved (Some (JNum 1))); Some (Resolved (Some (JNum 2)))].
Proof. vm_compute. split; reflexivity. Qed.

(** The response first: the request is resolved, its timer cleared and its
    entry deleted; the timer cannot fire any more. *)
Example response_then_timeout :
  Unix.promises (Unix.run abc_pending
                   [Unix.Data (wire "{'requester':'abc','data':7}" +:+ String EOT "");
                    Unix.Timeout 0]) !! 0
  = Some (Some (Resolved (Some (JNum 7)))).
Proof. vm_compute. reflexivity. Qed.

(** The timeout first: the request is rejected; the late response finds the
    entry, cannot change the outcome, and deletes the entry. *)
Example timeout_then_response :
  Unix.promises (Unix.run abc_pending
                   [Unix.Timeout 0;
                    Unix.Data (wire "{'requester':'abc','data':7}" +:+ String EOT "")]) !! 0
  = Some (Some (Rejected "Request timed out"))
  ∧ Unix.pool (Unix.run abc_pending
                 [Unix.Timeout 0;
                  Unix.Data (wire "{'requester':'abc','data':7}" +:+ String EOT "")]) !! "abc"
    = None.
Proof. vm_compute. split; reflexivity. Qed.

(** Two requests queued before the socket opened are each sent once. *)
Example queued_requests_sent_once :
  map fst (Ws.sent ws_two_queued) = []
  ∧ map fst (Ws.sent ws_after_reconnect) = [0; 1]
  ∧ Ws.intervals ws_after_reconnect = ∅.
Proof. vm_compute. repeat split. Qed.

(* ===================================================================== *)
(** * More of the Unix client *)
(* ===================================================================== *)

Section UnixMore.
Context `{JsonParser}.
Import Unix.

(** What every step keeps holds in every state a client can reach. *)
Lemma unix_reachable_ind (P : state → Prop) :
  (∀ timeout reconnect, P (init timeout reconnect)) →
  (∀ st e, P st → P (step st e)) →
  ∀ st, unix_reachable st → P st.
Proof.
  intros Hinit Hstep st (timeout & reconnect & es & ->).
  specialize (Hinit timeout reconnect). revert Hinit.
  generalize (init timeout reconnect).
  induction es as [|e es IH]; intros st HP; simpl; [done |].
  by apply IH, Hstep.
Qed.

Lemma request_frame requester data timeout (st : state) :
  collected_string (snd (request requester data timeout st)) = collected_string st
  ∧ event_listeners (snd (request requester data timeout st)) = event_listeners st
  ∧ sockets (snd (request requester data timeout st)) = sockets st
  ∧ destroyed (snd (request requester data timeout st)) = destroyed st
  ∧ client (snd (request requester data timeout st)) = client st
  ∧ reconnect (snd (request requester data timeout st)) = reconnect st.
Proof. unfold request. destruct (client st) eqn:Hc; simpl; by rewrite ?Hc. Qed.

(** X2: between two turns of the ['data'] handler the buffer holds no
    terminator: a frame is handled in the turn in which its terminator
    arrives. *)
Theorem buffer_never_holds_a_terminator (st : state) :
  unix_reachable st → sentinel_free (collected_string st).
Proof.
  apply (unix_reachable_ind (λ st, sentinel_free (collected_string st))); [done |].
  clear st. intros st e Hst. destruct e; simpl; try done.
  - by rewrite (proj1 (request_frame _ _ _ _)).
  - unfold on_connect. by rewrite (proj1 (request_frame _ _ _ _)).
  - unfold on_data. simpl.
    destruct (includes EOT (collected_string st +:+ chunk)) eqn:Hinc; [| done].
    by destruct (for_each _ _).
  - unfold on_close. by destruct (client st).
  - unfold on_close. by destruct (client st).
  - unfold on_tick. destruct (client st); [done |]. by destruct (reconnect st).
  - unfold timer_fired. by destruct (timers st !! p).
Qed.


Lemma on_close_no_leak (st : state) : no_leak st → no_leak (on_close st).
Proof.
  intros Hst n Hn. left. unfold on_close in *.
  destruct (client st) as [c|] eqn:Hc; simpl in *.
  - destruct (Hst n Hn) as [Hd|Hd]; apply elem_of_app.
    + by left.
    + right. simplify_eq. by apply list_elem_of_singleton.
  - destruct (Hst n Hn) as [Hd|Hd]; [done | congruence].
Qed.

(** X5: the Unix client opens a connection only when it holds none, and
    destroys the one it holds before it lets go of it: every socket it ever
    made is its current handle or was destroyed. *)
Theorem connections_never_leak (st : state) :
  unix_reachable st → no_leak st.
Proof.
  apply (unix_reachable_ind no_leak).
  { intros timeout reconnect n. simpl. intros Hn. right. f_equal. lia. }
  clear st. intros st e Hst. destruct e; simpl; try done.
  - intros n. destruct (request_frame requester data timeout st) as (_ & _ & -> & -> & -> & _).
    apply Hst.
  - intros n. unfold on_connect.
    destruct (request_frame requester [("ty", JStr "socket_version")] None st)
      as (_ & _ & -> & -> & -> & _).
    apply Hst.
  - by apply (on_data_preserves no_leak).
  - by apply on_close_no_leak.
  - by apply on_close_no_leak.
  - unfold on_tick. destruct (client st) as [c|] eqn:Hc; [done |].
    destruct (reconnect st); [| done].
    intros n. simpl. intros Hn.
    destruct (decide (n = sockets st)) as [->|Hne]; [by right |].
    destruct (Hst n) as [Hd|Hd]; [lia | by left | congruence].
  - unfold timer_fired. by destruct (timers st !! p).
Qed.

Lemma unix_reconnect_disabled (timeout : nat) (es : list event) :
  sockets (run (init timeout false) es) = 1
  ∧ (client (run (init timeout false) es) = Some 0
     ∨ client (run (init timeout false) es) = None).
Proof.
  cut (reconnect (run (init timeout false) es) = false
       ∧ sockets (run (init timeout false) es) = 1
       ∧ (client (run (init timeout false) es) = Some 0
          ∨ client (run (init timeout false) es) = None)).
  { by intros (_ & ? & ?). }
  assert (Hinit : reconnect (init timeout false) = false
                  ∧ sockets (init timeout false) = 1
                  ∧ (client (init timeout false) = Some 0 ∨ client (init timeout false) = None)).
  { simpl. auto. }
  revert Hinit. generalize (init timeout false).
  induction es as [|e es IH]; intros st Hst; simpl; [done |].
  apply IH. destruct Hst as (Hr & Hs & Hc). destruct e; simpl; try done.
  - by destruct (request_frame requester data timeout0 st) as (_ & _ & -> & _ & -> & ->).
  - unfold on_connect.
    by destruct (request_frame requester [("ty", JStr "socket_version")] None st)
      as (_ & _ & -> & _ & -> & ->).
  - by apply (on_data_preserves
      (λ st, reconnect st = false ∧ sockets st = 1 ∧ (client st = Some 0 ∨ client st = None))).
  - unfold on_close. destruct (client st); simpl; auto.
  - unfold on_close. destruct (client st); simpl; auto.
  - unfold on_tick. destruct (client st) eqn:Hcl; [by rewrite Hcl |]. rewrite Hr. by rewrite Hcl.
  - unfold timer_fired. destruct (timers st !! p); simpl; auto.
Qed.

Lemma step_listeners (e : event) (st : state) :
  event_listeners (step st e) = event_listeners st ++ registered [e].
Proof.
  destruct e; simpl; rewrite ?(right_id_L [] (++)); try done.
  - by destruct (request_frame requester data timeout st) as (_ & -> & _).
  - unfold on_connect.
    by destruct (request_frame requester [("ty", JStr "socket_version")] None st)
      as (_ & -> & _).
  - by apply (on_data_preserves (λ st', event_listeners st' = event_listeners st)).
  - unfold on_close. by destruct (client st).
  - unfold on_close. by destruct (client st).
  - unfold on_tick. destruct (client st); [done |]. by destruct (reconnect st).
  - unfold timer_fired. by destruct (timers st !! p).
Qed.

(** X7: listeners are only ever added, at the end: after any events the
    listeners are those there before, followed by the ones registered, in
    the order of their registration and with their repetitions. *)
Theorem listeners_in_registration_order (es : list event) (st : state) :
  event_listeners (run st es) = event_listeners st ++ registered es.
Proof.
  revert st. induction es as [|e es IH]; intros st; simpl.
  - by rewrite (right_id_L [] (++)).
  - rewrite IH, step_listeners. rewrite <-(assoc_L (++)). f_equal.
    unfold registered. simpl. by destruct e.
Qed.

(** X3: a request and its response.  On a connected client with an empty
    buffer, a request under [id] followed by a chunk that is one frame whose
    document is not an event and has [requester] equal to [id] resolves the
    promise of the request with the [data] of the document, deletes the
    entry, clears the timer and leaves the buffer empty. *)
Theorem request_response_round_trip (st : state) (id text : string)
    (data : list (string * json)) (timeout : option nat)
    (obj : json) (ty payload : jsval) :
  is_Some (client st) →
  collected_string st = "" →
  text ≠ "" → sentinel_free text →
  JSON_parse text = Some obj →
  get_prop obj "ty" = Some ty → is_event_tag ty = false →
  get_prop obj "requester" = Some (Some (JStr id)) →
  get_prop obj "data" = Some payload →
  promises (run st [Request id data timeout; Data (text +:+ String EOT "")])
    !! length (promises st) = Some (Some (Resolved payload))
  ∧ pool (run st [Request id data timeout; Data (text +:+ String EOT "")]) !! id = None
  ∧ timers (run st [Request id data timeout; Data (text +:+ String EOT "")])
    !! length (promises st) = None
  ∧ collected_string (run st [Request id data timeout; Data (text +:+ String EOT "")]) = "".
Proof.
  intros [sock Hsock] Hbuf Htext Hfree Hparse Hty Hev Hreq Hdata.
  simpl. unfold request. rewrite Hsock. simpl.
  rewrite (unix_on_data_whole [text]); [| by repeat constructor | by simpl; rewrite Hbuf].
  simpl. unfold segment, try_segment. destruct text as [|c text]; [done |].
  rewrite Hparse. unfold dispatch. rewrite Hty, Hdata, Hreq, Hev. simpl.
  rewrite lookup_insert_eq. simpl.
  rewrite lookup_delete_eq, lookup_delete_eq.
  split; [| done].
  apply settle_pending. by apply list_lookup_middle.
Qed.

Lemma filter_settle (p : nat) (o : outcome) (ps : list (option outcome)) :
  refused (Some o) = false →
  length (filter (λ o, refused o = false) (settle p o ps))
  = length (filter (λ o, refused o = false) ps).
Proof.
  intros Ho. unfold settle. destruct (ps !! p) as [[o'|]|] eqn:Hp; try done.
  rewrite insert_take_drop by (by eapply lookup_lt_Some).
  rewrite <-(take_drop_middle ps p None Hp) at 3.
  rewrite !filter_app, !filter_cons, !length_app.
  rewrite decide_True by done. rewrite (decide_True (P := refused None = false)) by done.
  done.
Qed.

(** X4: a request is written to the socket exactly when it is not refused
    with [Client not connected], and once: the number of documents written is
    the number of promises that are pending, resolved or timed out. *)
Theorem written_iff_accepted (st : state) :
  unix_reachable st → length (written st) = accepted st.
Proof.
  intros (timeout & reconnect & es & ->).
  assert (Hinit : length (written (init timeout reconnect)) = accepted (init timeout reconnect)) by done.
  revert Hinit. generalize (init timeout reconnect).
  assert (Hreq : ∀ requester data tmo st,
    length (written st) = accepted st →
    length (written (snd (request requester data tmo st)))
    = accepted (snd (request requester data tmo st))).
  { intros requester data tmo st Hst. unfold request, accepted in *.
    destruct (client st); simpl.
    - rewrite filter_app, !length_app, Hst. simpl. done.
    - rewrite filter_app, !length_app, Hst. simpl. lia. }
  induction es as [|e es IH]; intros st Hst; simpl; [done |].
  apply IH. destruct e; simpl; try done.
  - by apply Hreq.
  - by apply Hreq.
  - apply (on_data_preserves (λ st, length (written st) = accepted st)); try done.
    intros st' k p d Hst' _. unfold accepted in *. simpl. by rewrite filter_settle.
  - unfold on_close. by destruct (client st).
  - unfold on_close. by destruct (client st).
  - unfold on_tick. destruct (client st); [done |]. by destruct (Unix.reconnect st).
  - unfold timer_fired. destruct (timers st !! p); [| done].
    unfold accepted in *. simpl. by rewrite filter_settle.
Qed.

(** X18: [timeout || opts.timeout] never arms a timer with a delay of 0
    when the default of the client is not 0: a per-request timeout of 0 falls
    back to the default. *)
Theorem timer_delay_never_zero (timeout : nat) (reconnect : bool) (es : list event)
    (p ms : nat) :
  timeout ≠ 0 →
  timers (run (init timeout reconnect) es) !! p = Some ms →
  ms ≠ 0.
Proof.
  intros Ht. revert p ms.
  cut (opts_timeout (run (init timeout reconnect) es) = timeout
       ∧ ∀ p ms, timers (run (init timeout reconnect) es) !! p = Some ms → ms ≠ 0).
  { by intros [_ ?]. }
  assert (Hinit : opts_timeout (init timeout reconnect) = timeout
                  ∧ ∀ p ms, timers (init timeout reconnect) !! p = Some ms → ms ≠ 0).
  { split; [done |]. intros p ms. simpl. by rewrite lookup_empty. }
  revert Hinit. generalize (init timeout reconnect).
  assert (Hreq : ∀ requester data tmo st,
    (opts_timeout st = timeout ∧ ∀ p ms, timers st !! p = Some ms → ms ≠ 0) →
    opts_timeout (snd (request requester data tmo st)) = timeout
    ∧ ∀ p ms, timers (snd (request requester data tmo st)) !! p = Some ms → ms ≠ 0).
  { intros requester data tmo st [Ho Hts]. unfold request.
    destruct (client st); simpl; (split; [done |]); [| done].
    intros p ms. destruct (decide (length (promises st) = p)) as [<-|Hne].
    - rewrite lookup_insert_eq. intros [= <-]. rewrite Ho.
      destruct tmo as [[|t]|]; simpl; done.
    - rewrite lookup_insert_ne by done. apply Hts. }
  induction es as [|e es IH]; intros st Hst; simpl; [done |].
  apply IH. destruct e; simpl; try done.
  - by apply Hreq.
  - by apply Hreq.
  - apply (on_data_preserves
      (λ st, opts_timeout st = timeout ∧ ∀ p ms, timers st !! p = Some ms → ms ≠ 0));
      try done.
    intros st' k q d [Ho Hts] _. split; [done |]. simpl.
    intros p ms [_ Hp]%lookup_delete_Some. by eapply Hts.
  - unfold on_close. by destruct (client st).
  - unfold on_close. by destruct (client st).
  - unfold on_tick. destruct (client st); [done |]. by destruct (Unix.reconnect st).
  - destruct Hst as [Ho Hts]. unfold timer_fired.
    destruct (timers st !! p) eqn:Hp; [| done]. split; [done |]. simpl.
    intros q ms [_ Hq]%lookup_delete_Some. by eapply Hts.
Qed.

End UnixMore.

Section WrittenDocument.

Lemma own_prop_go_absent (k : string) (kvs : list (string * json)) (acc : jsval) :
  k ∉ kvs.*1 →
  fold_left (λ acc kv, if String.eqb (fst kv) k then Some (snd kv) else acc) kvs acc = acc.
Proof.
  revert acc. induction kvs as [|[k' v'] kvs IH]; intros acc Hk; simpl; [done |].
  apply not_elem_of_cons in Hk as [Hne Hk]. simpl in *.
  destruct (String.eqb_spec k' k); [by subst |]. by apply IH.
Qed.

Lemma own_prop_go_set_field (k : string) (v : json) (kvs : list (string * json)) (acc : jsval) :
  NoDup kvs.*1 →
  fold_left (λ acc kv, if String.eqb (fst kv) k then Some (snd kv) else acc)
    (set_field k v kvs) acc = Some v.
Proof.
  revert acc. induction kvs as [|[k' v'] kvs IH]; intros acc Hnd; simpl.
  - by rewrite String.eqb_refl.
  - apply NoDup_cons in Hnd as [Hk' Hnd]. simpl in *.
    destruct (String.eqb_spec k' k) as [->|Hne]; simpl.
    + rewrite String.eqb_refl. by apply own_prop_go_absent.
    + destruct (String.eqb_spec k' k); [done |]. by apply IH.
Qed.

Lemma own_prop_go_other (j k : string) (v : json) (kvs : list (string * json)) (acc : jsval) :
  j ≠ k →
  fold_left (λ acc kv, if String.eqb (fst kv) j then Some (snd kv) else acc)
    (set_field k v kvs) acc
  = fold_left (λ acc kv, if String.eqb (fst kv) j then Some (snd kv) else acc) kvs acc.
Proof.
  intros Hjk. revert acc. induction kvs as [|[k' v'] kvs IH]; intros acc; simpl.
  - destruct (String.eqb_spec k j); [by subst |]. done.
  - destruct (String.eqb_spec k' k) as [->|Hne]; simpl.
    + destruct (String.eqb_spec k j); [by subst |]. done.
    + by rewrite IH.
Qed.

(** X17: the document [request] writes carries the generated id under
    [requester], whatever the payload had there, and every other field of the
    payload as it was. *)
Theorem written_document_carries_id `{JsonParser} (st : Unix.state) (sock : nat)
    (requester : string) (data : list (string * json)) (timeout : option nat) :
  Unix.client st = Some sock →
  NoDup data.*1 →
  ∃ doc,
    Unix.written (snd (Unix.request requester data timeout st))
      = Unix.written st ++ [(sock, doc)]
    ∧ get_prop doc "requester" = Some (Some (JStr requester))
    ∧ ∀ k, k ≠ "requester" → get_prop doc k = Some (own_prop k data).
Proof.
  intros Hsock Hnd. unfold Unix.request. rewrite Hsock. simpl.
  eexists. split; [done |]. simpl. unfold own_prop. split.
  - f_equal. by apply own_prop_go_set_field.
  - intros k Hk. f_equal. by apply own_prop_go_other.
Qed.

End WrittenDocument.

(* ===================================================================== *)
(** * The older handler *)
(* ===================================================================== *)

Section LegacyMore.
Context `{JsonParser}.

(** On a document that is not tagged as an event the two handlers do the
    same. *)
Lemma legacy_segment_untagged (text : string) (st : Unix.state) :
  untagged text → Legacy.segment text st = Unix.segment text st.
Proof.
  unfold untagged, Legacy.segment, Unix.segment, Legacy.try_segment, Unix.try_segment.
  destruct text as [|c text]; [done |].
  destruct (JSON_parse (String c text)) as [obj|]; [| done].
  unfold Legacy.dispatch, Unix.dispatch.
  destruct obj; simpl; try done. by intros ->.
Qed.

Lemma legacy_for_each_untagged (segs : list string) (st : Unix.state) :
  Forall untagged segs → Legacy.for_each segs st = Unix.for_each segs st.
Proof.
  intros Hsegs. revert st. induction Hsegs as [|x segs Hx _ IH]; intros st; simpl; [done |].
  rewrite legacy_segment_untagged by done.
  destruct (Unix.segment x st) as [doc st1]. by rewrite IH.
Qed.

(** X8: the ['data'] handler of the older client, which is also the handler
    of the request pipe of the Windows client, does what the handler of
    src/index.js does on every feed none of whose segments decodes to a
    document tagged as an event: the same documents, the same state. *)
Theorem legacy_handler_agrees_without_events (chunk : string) (st : Unix.state) :
  Forall untagged (split EOT (Unix.collected_string st +:+ chunk)) →
  Legacy.on_data chunk st = Unix.on_data chunk st.
Proof.
  intros Hsegs. unfold Legacy.on_data, Unix.on_data. simpl.
  destruct (includes EOT _); [| done].
  by rewrite legacy_for_each_untagged.
Qed.

(** What the older ['data'] handler keeps. *)
Lemma legacy_on_data_preserves (P : Unix.state → Prop) :
  (∀ st b, P st → P (Unix.set_collected_string b st)) →
  (∀ st k, P st → P (Unix.set_pool (delete k (Unix.pool st)) st)) →
  (∀ st k p data, P st → Unix.pool st !! k = Some p → P (Unix.run_callback p data st)) →
  ∀ chunk st, P st → P (snd (Legacy.on_data chunk st)).
Proof.
  intros Hbuf Hpool Hcb.
  assert (Hseg : ∀ text st, P st → P (snd (Legacy.segment text st))).
  { intros text st HP. unfold Legacy.segment, Legacy.try_segment.
    destruct text as [|c text]; [done |].
    destruct (JSON_parse (String c text)) as [obj|]; [| done]. simpl.
    unfold Legacy.dispatch.
    destruct (get_prop obj "requester") as [requester|]; [| done].
    destruct (get_prop obj "data") as [data|]; [| done]. simpl.
    apply Hpool. destruct (Unix.pool st !! to_key requester) eqn:Hk; [| done].
    by eapply Hcb. }
  assert (Hfe : ∀ segs st, P st → P (snd (Legacy.for_each segs st))).
  { induction segs as [|x segs IH]; intros st HP; simpl; [done |].
    specialize (Hseg x st HP). destruct (Legacy.segment x st) as [doc st1].
    specialize (IH st1 Hseg). by destruct (Legacy.for_each segs st1). }
  intros chunk st HP. unfold Legacy.on_data.
  destruct (includes EOT _).
  - specialize (Hfe (split EOT (Unix.collected_string
       (Unix.set_collected_string (Unix.collected_string st +:+ chunk) st)))
       (Unix.set_collected_string (Unix.collected_string st +:+ chunk) st)
       (Hbuf _ _ HP)).
    destruct (Legacy.for_each _ _) as [docs st2]. by apply Hbuf.
  - by apply Hbuf.
Qed.

Lemma legacy_request_eq requester data (st : Unix.state) :
  Legacy.request requester data st = Unix.request requester data None st.
Proof. done. Qed.

Lemma legacy_on_data_settled (p : nat) (o : outcome) (chunk : string) (st : Unix.state) :
  Unix.promises st !! p = Some (Some o) →
  Unix.promises (snd (Legacy.on_data chunk st)) !! p = Some (Some o).
Proof.
  apply (legacy_on_data_preserves (λ st, Unix.promises st !! p = Some (Some o))); try done.
  intros st' k q data Hp _. simpl. by apply settle_settled.
Qed.

Lemma legacy_on_data_wf (chunk : string) (st : Unix.state) :
  timers_wf st → timers_wf (snd (Legacy.on_data chunk st)).
Proof.
  apply (legacy_on_data_preserves timers_wf); try done.
  intros st' k q data Hwf _. by apply run_callback_wf.
Qed.

Lemma request_settled requester data timeout (p : nat) (o : outcome) (st : Unix.state) :
  Unix.promises st !! p = Some (Some o) →
  Unix.promises (snd (Unix.request requester data timeout st)) !! p = Some (Some o).
Proof. apply (step_settled p o (Unix.Request requester data timeout)). Qed.

Lemma timer_fired_settled (q p : nat) (o : outcome) (st : Unix.state) :
  Unix.promises st !! p = Some (Some o) →
  Unix.promises (Unix.timer_fired q st) !! p = Some (Some o).
Proof. apply (step_settled p o (Unix.Timeout q)). Qed.

(** ** The older client *)

Lemma legacy_step_settled (p : nat) (o : outcome) (e : Legacy.event) (st : Unix.state) :
  Unix.promises st !! p = Some (Some o) →
  Unix.promises (Legacy.step st e) !! p = Some (Some o).
Proof.
  destruct e; simpl; try done.
  - rewrite legacy_request_eq. apply request_settled.
  - unfold Legacy.destroy. by destruct (Unix.client st).
  - unfold Legacy.on_connect. rewrite legacy_request_eq. apply request_settled.
  - apply legacy_on_data_settled.
  - unfold Unix.on_close. by destruct (Unix.client st).
  - unfold Unix.on_close. by destruct (Unix.client st).
  - unfold Unix.on_tick. destruct (Unix.client st); [done |]. by destruct (Unix.reconnect st).
  - apply timer_fired_settled.
Qed.

Lemma legacy_step_wf (e : Legacy.event) (st : Unix.state) :
  timers_wf st → timers_wf (Legacy.step st e).
Proof.
  destruct e; simpl; try done.
  - rewrite legacy_request_eq. apply request_wf.
  - unfold Legacy.destroy. by destruct (Unix.client st).
  - unfold Legacy.on_connect. rewrite legacy_request_eq. apply request_wf.
  - apply legacy_on_data_wf.
  - unfold Unix.on_close. by destruct (Unix.client st).
  - unfold Unix.on_close. by destruct (Unix.client st).
  - unfold Unix.on_tick. destruct (Unix.client st); [done |]. by destruct (Unix.reconnect st).
  - apply timer_fired_wf.
Qed.

(** X13: in the older client too a promise is pending with its timer armed,
    or settled with its timer gone, and once settled it keeps its outcome
    whatever happens later. *)
Theorem legacy_exactly_one_completion (timeout : nat) (reconnect : bool)
    (es : list Legacy.event) (p : nat) :
  match Unix.promises (Legacy.run (Legacy.init timeout reconnect) es) !! p with
  | None => True
  | Some None => is_Some (Unix.timers (Legacy.run (Legacy.init timeout reconnect) es) !! p)
  | Some (Some o) =>
      Unix.timers (Legacy.run (Legacy.init timeout reconnect) es) !! p = None
      ∧ ∀ es', Unix.promises (Legacy.run (Legacy.run (Legacy.init timeout reconnect) es) es') !! p
               = Some (Some o)
  end.
Proof.
  assert (Hwf : timers_wf (Legacy.run (Legacy.init timeout reconnect) es)).
  { pose proof (init_wf timeout reconnect) as Hinit.
    change (Unix.init timeout reconnect) with (Legacy.init timeout reconnect) in Hinit.
    revert Hinit. generalize (Legacy.init timeout reconnect).
    induction es as [|e es IH]; intros st Hst; simpl; [done |].
    by apply IH, legacy_step_wf. }
  specialize (Hwf p).
  destruct (Unix.promises _ !! p) as [[o|]|] eqn:Hp; [| by apply Hwf | done].
  split.
  - destruct (Unix.timers _ !! p) eqn:Ht; [| done].
    assert (Some (Some o) = Some None) by (apply Hwf; eauto). done.
  - intros es'. revert Hp. generalize (Legacy.run (Legacy.init timeout reconnect) es).
    induction es' as [|e es' IH]; intros st Hst; simpl; [done |].
    by apply IH, legacy_step_settled.
Qed.

End LegacyMore.

(* ===================================================================== *)
(** * The Windows client *)
(* ===================================================================== *)

Section WindowsMore.
Context `{JsonParser}.
Import Windows.

Lemma set_delivered_twice (d1 d2 : list (nat * jsval)) (b : Unix.state) :
  Unix.set_delivered d2 (Unix.set_delivered d1 b) = Unix.set_delivered d2 b.
Proof. done. Qed.

Lemma set_delivered_id (b : Unix.state) : Unix.set_delivered (Unix.delivered b) b = b.
Proof. by destruct b. Qed.

(** The handler of the event pipe changes the log of listener calls and
    nothing else of what the request side works on. *)
Lemma event_for_each_base (segs : list string) (b : Unix.state) :
  Unix.set_delivered (Unix.delivered b) (snd (event_for_each segs b)) = b.
Proof.
  revert b. induction segs as [|x segs IH]; intros b; simpl.
  - apply set_delivered_id.
  - assert (Hseg : Unix.set_delivered (Unix.delivered b) (snd (event_segment x b)) = b).
    { unfold event_segment, try_event_segment. destruct x as [|c x]; [apply set_delivered_id |].
      destruct (JSON_parse (String c x)) as [obj|]; [| apply set_delivered_id]. simpl.
      unfold event_dispatch.
      destruct (get_prop obj "ty") as [ty|]; [| apply set_delivered_id].
      destruct (get_prop obj "data") as [data|]; [| apply set_delivered_id].
      destruct (is_event_tag ty); [| apply set_delivered_id].
      rewrite call_listeners_reached, set_delivered_twice. apply set_delivered_id. }
    destruct (event_segment x b) as [doc b1]. simpl in Hseg.
    specialize (IH b1). destruct (event_for_each segs b1) as [docs b2]. simpl in *.
    rewrite <-IH in Hseg. by rewrite set_delivered_twice in Hseg.
Qed.

Lemma on_event_data_base (chunk : string) (st : state) :
  Unix.set_delivered (Unix.delivered (base st)) (base (snd (on_event_data chunk st))) = base st.
Proof.
  unfold on_event_data. simpl. destruct (includes EOT _); [| apply set_delivered_id].
  pose proof (event_for_each_base
    (split EOT (collected_string_event st +:+ chunk)) (base st)) as Hb.
  by destruct (event_for_each _ _).
Qed.

Lemma on_event_data_frame (chunk : string) (st : state) :
  Unix.client (base (snd (on_event_data chunk st))) = Unix.client (base st)
  ∧ Unix.sockets (base (snd (on_event_data chunk st))) = Unix.sockets (base st)
  ∧ Unix.destroyed (base (snd (on_event_data chunk st))) = Unix.destroyed (base st)
  ∧ Unix.reconnect (base (snd (on_event_data chunk st))) = Unix.reconnect (base st)
  ∧ Unix.promises (base (snd (on_event_data chunk st))) = Unix.promises (base st)
  ∧ Unix.timers (base (snd (on_event_data chunk st))) = Unix.timers (base st)
  ∧ Unix.pool (base (snd (on_event_data chunk st))) = Unix.pool (base st)
  ∧ eventClient (snd (on_event_data chunk st)) = eventClient st
  ∧ events (snd (on_event_data chunk st)) = events st.
Proof.
  pose proof (on_event_data_base chunk st) as Hb.
  assert (Hf : ∀ (A : Type) (f : Unix.state → A),
    (∀ d b, f (Unix.set_delivered d b) = f b) →
    f (base (snd (on_event_data chunk st))) = f (base st)).
  { intros A f Hfd.
    rewrite <-(Hfd (Unix.delivered (base st)) (base (snd (on_event_data chunk st)))).
    by rewrite Hb. }
  repeat (split; [by apply Hf |]).
  unfold on_event_data. simpl. destruct (includes EOT _); [| done].
  by destruct (event_for_each _ _).
Qed.

(** X9: the two pipes of the Windows client are separate.  A chunk on the
    event pipe changes, of what the request side works on, the log of
    listener calls only: pool, promises, timers and handles are as before.
    A chunk on the request pipe calls no listener and leaves the listeners,
    the event buffer and the event handle alone. *)
Theorem pipes_are_separate (chunk : string) (st : state) :
  (Unix.set_delivered (Unix.delivered (base st)) (base (snd (on_event_data chunk st))) = base st
   ∧ eventClient (snd (on_event_data chunk st)) = eventClient st)
  ∧ (Unix.delivered (base (snd (on_request_data chunk st))) = Unix.delivered (base st)
     ∧ Unix.event_listeners (base (snd (on_request_data chunk st)))
       = Unix.event_listeners (base st)
     ∧ collected_string_event (snd (on_request_data chunk st)) = collected_string_event st
     ∧ eventClient (snd (on_request_data chunk st)) = eventClient st).
Proof.
  split; [split; [apply on_event_data_base |] |].
  - unfold on_event_data. simpl. destruct (includes EOT _); [| done].
    by destruct (event_for_each _ _).
  - unfold on_request_data.
    pose proof (legacy_on_data_preserves
      (λ b, Unix.delivered b = Unix.delivered (base st)
            ∧ Unix.event_listeners b = Unix.event_listeners (base st))) as Hp.
    specialize (Hp ltac:(done) ltac:(done) ltac:(done) chunk (base st) ltac:(done)).
    destruct (Legacy.on_data chunk (base st)) as [docs b]. simpl in *.
    by destruct Hp.
Qed.

Lemma windows_reachable_ind (P : state → Prop) :
  (∀ timeout reconnect events, P (init timeout reconnect events)) →
  (∀ st e, P st → P (step st e)) →
  ∀ st, windows_reachable st → P st.
Proof.
  intros Hinit Hstep st (timeout & reconnect & events & es & ->).
  specialize (Hinit timeout reconnect events). revert Hinit.
  generalize (init timeout reconnect events).
  induction es as [|e es IH]; intros st HP; simpl; [done |].
  by apply IH, Hstep.
Qed.

(** Only the socket events and the supervisor change the wiring. *)
Lemma step_wiring (e : event) (st : state) :
  match e with
  | RequestError | RequestClose | EventError | EventClose | Tick => True
  | _ => wiring (step st e) = wiring st
  end.
Proof.
  unfold wiring. destruct e; simpl; try done.
  - by destruct (request_frame requester data timeout (base st)) as (_ & _ & -> & -> & -> & ->).
  - unfold Unix.on_connect.
    by destruct (request_frame requester [("ty", JStr "socket_version")] None (base st))
      as (_ & _ & -> & -> & -> & ->).
  - unfold on_request_data.
    pose proof (legacy_on_data_preserves
      (λ b, Unix.client b = Unix.client (base st) ∧ Unix.sockets b = Unix.sockets (base st)
            ∧ Unix.destroyed b = Unix.destroyed (base st)
            ∧ Unix.reconnect b = Unix.reconnect (base st))) as Hp.
    specialize (Hp ltac:(done) ltac:(done) ltac:(done) chunk (base st) ltac:(done)).
    destruct (Legacy.on_data chunk (base st)) as [docs b]. simpl in *.
    by destruct Hp as (-> & -> & -> & ->).
  - by destruct (on_event_data_frame chunk st) as (-> & -> & -> & -> & _ & _ & _ & -> & ->).
  - unfold Unix.timer_fired. by destruct (Unix.timers (base st) !! p).
Qed.


Lemma wiring_handles_wf (st st' : state) :
  wiring st' = wiring st → handles_wf st → handles_wf st'.
Proof.
  unfold wiring, handles_wf. simpl. intros [= H1 H2 H3 H4 _ _].
  by rewrite H1, H2, H3, H4.
Qed.

Lemma rec_handles_wf (st : state) : handles_wf st → handles_wf (rec st).
Proof.
  unfold handles_wf, rec. simpl. intros (Hd & Hc & He).
  destruct (events st); simpl.
  - split; [intros n Hn%Hd; lia |]. split.
    + intros c [= <-]. split; [lia |]. split; [| intros [= ?]; lia].
      intros Hn%Hd. lia.
    + intros c [= <-]. split; [lia |]. intros Hn%Hd. lia.
  - split; [intros n Hn%Hd; lia |]. split.
    + intros c [= <-]. split; [lia |]. split; [intros Hn%Hd; lia |].
      intros He'. apply He in He' as [? _]. lia.
    + intros c Hc'. destruct (He c Hc') as [? ?]. split; [lia | done].
Qed.

Lemma step_handles_wf (e : event) (st : state) : handles_wf st → handles_wf (step st e).
Proof.
  intros Hst. pose proof (step_wiring e st) as Hw.
  destruct e; try (by eapply wiring_handles_wf).
  - destruct Hst as (Hd & Hc & He). unfold handles_wf. simpl. unfold Unix.on_close.
    destruct (Unix.client (base st)) as [c|] eqn:Hcl; simpl.
    + destruct (Hc c eq_refl) as (Hlt & Hnd & Hne).
      split; [intros n [Hn%Hd|Hn%list_elem_of_singleton]%elem_of_app; [lia | by subst] |].
      split; [done |]. intros e Hev. destruct (He e Hev) as [? ?].
      split; [done |]. intros [?|Heq%list_elem_of_singleton]%elem_of_app; [done |]. subst.
      by destruct Hne.
    + split; [done |]. split; [done |]. done.
  - destruct Hst as (Hd & Hc & He). unfold handles_wf. simpl. unfold Unix.on_close.
    destruct (Unix.client (base st)) as [c|] eqn:Hcl; simpl.
    + destruct (Hc c eq_refl) as (Hlt & Hnd & Hne).
      split; [intros n [Hn%Hd|Hn%list_elem_of_singleton]%elem_of_app; [lia | by subst] |].
      split; [done |]. intros e Hev. destruct (He e Hev) as [? ?].
      split; [done |]. intros [?|Heq%list_elem_of_singleton]%elem_of_app; [done |]. subst.
      by destruct Hne.
    + split; [done |]. split; [done |]. done.
  - destruct Hst as (Hd & Hc & He). unfold handles_wf. simpl. unfold on_event_close.
    destruct (eventClient st) as [e|] eqn:Hev; simpl.
    + destruct (He e eq_refl) as (Hlt & Hnd).
      split; [intros n [Hn%Hd|Hn%list_elem_of_singleton]%elem_of_app; [lia | by subst] |].
      split; [| done]. intros c Hcl. destruct (Hc c Hcl) as (? & ? & Hne).
      split; [done |]. split; [| done].
      intros [?|Heq%list_elem_of_singleton]%elem_of_app; [done |]. subst. by destruct Hne.
    + split; [done |]. split; [| done]. intros c Hcl. destruct (Hc c Hcl) as (? & ? & _). done.
  - destruct Hst as (Hd & Hc & He). unfold handles_wf. simpl. unfold on_event_close.
    destruct (eventClient st) as [e|] eqn:Hev; simpl.
    + destruct (He e eq_refl) as (Hlt & Hnd).
      split; [intros n [Hn%Hd|Hn%list_elem_of_singleton]%elem_of_app; [lia | by subst] |].
      split; [| done]. intros c Hcl. destruct (Hc c Hcl) as (? & ? & Hne).
      split; [done |]. split; [| done].
      intros [?|Heq%list_elem_of_singleton]%elem_of_app; [done |]. subst. by destruct Hne.
    + split; [done |]. split; [| done]. intros c Hcl. destruct (Hc c Hcl) as (? & ? & _). done.
  - simpl. unfold on_tick. destruct (_ || _); [by apply rec_handles_wf | done].
Qed.

Lemma reachable_handles_wf (st : state) : windows_reachable st → handles_wf st.
Proof.
  apply (windows_reachable_ind handles_wf); [| intros; by apply step_handles_wf].
  intros timeout reconnect events. apply rec_handles_wf.
  unfold handles_wf. simpl. split; [by intros n ?%elem_of_nil |]. done.
Qed.

(** X10: [rec()] reconnects both pipes.  When the event pipe is down and
    the request pipe is up, the next tick of the supervisor (with [reconnect]
    and [events] set) replaces the request handle by a new connection as
    well; the connection it held is then no handle of the client any more and
    [destroy()] was not called on it. *)
Theorem tick_replaces_live_request_pipe (st : state) (c : nat) :
  windows_reachable st →
  Unix.client (base st) = Some c →
  eventClient st = None →
  Unix.reconnect (base st) = true →
  events st = true →
  Unix.client (base (on_tick st)) = Some (Unix.sockets (base st))
  ∧ eventClient (on_tick st) = Some (S (Unix.sockets (base st)))
  ∧ c < Unix.sockets (base st)
  ∧ c ∉ Unix.destroyed (base (on_tick st)).
Proof.
  intros Hreach Hc He Hr Hev.
  destruct (reachable_handles_wf st Hreach) as (_ & Hcl & _).
  destruct (Hcl c Hc) as (Hlt & Hnd & _).
  unfold on_tick, rec. rewrite He, Hr, Hev, Hc. simpl. done.
Qed.

(** X11: with [events] off the Windows client never opens the event pipe:
    whatever happens, its event handle stays [null]. *)
Theorem events_disabled_never_opens_event_pipe (timeout : nat) (reconnect : bool)
    (es : list event) :
  eventClient (run (init timeout reconnect false) es) = None
  ∧ events (run (init timeout reconnect false) es) = false.
Proof.
  assert (Hinit : eventClient (init timeout reconnect false) = None
                  ∧ events (init timeout reconnect false) = false) by done.
  revert Hinit. generalize (init timeout reconnect false).
  induction es as [|e es IH]; intros st [He Hev]; simpl; [done |].
  apply IH. pose proof (step_wiring e st) as Hw. unfold wiring in Hw.
  destruct e; simpl in *;
    try (injection Hw as _ Hec _ _ _ Hevs; by rewrite Hec, Hevs);
    try done;
    unfold on_event_close, on_tick, rec; rewrite ?He, ?Hev; try done.
  by match goal with |- context [if ?c then _ else _] => destruct c end.
Qed.

Lemma windows_step_settled (p : nat) (o : outcome) (e : event) (st : state) :
  Unix.promises (base st) !! p = Some (Some o) →
  Unix.promises (base (step st e)) !! p = Some (Some o).
Proof.
  destruct e; simpl; try done.
  - apply request_settled.
  - apply request_settled.
  - unfold on_request_data.
    pose proof (legacy_on_data_settled p o chunk (base st)) as Hs.
    destruct (Legacy.on_data chunk (base st)). done.
  - by destruct (on_event_data_frame chunk st) as (_ & _ & _ & _ & -> & _).
  - unfold Unix.on_close. by destruct (Unix.client (base st)).
  - unfold Unix.on_close. by destruct (Unix.client (base st)).
  - unfold on_event_close. by destruct (eventClient st).
  - unfold on_event_close. by destruct (eventClient st).
  - unfold on_tick, rec.
    match goal with |- context [if ?c then _ else _] => destruct c end; [| done].
    by destruct (events st).
  - apply timer_fired_settled.
Qed.

Lemma windows_step_wf (e : event) (st : state) :
  timers_wf (base st) → timers_wf (base (step st e)).
Proof.
  destruct e; simpl; try done.
  - apply request_wf.
  - apply request_wf.
  - unfold on_request_data.
    pose proof (legacy_on_data_wf chunk (base st)) as Hs.
    destruct (Legacy.on_data chunk (base st)). done.
  - intros Hwf q.
    destruct (on_event_data_frame chunk st) as (_ & _ & _ & _ & -> & -> & _). apply Hwf.
  - unfold Unix.on_close. by destruct (Unix.client (base st)).
  - unfold Unix.on_close. by destruct (Unix.client (base st)).
  - unfold on_event_close. by destruct (eventClient st).
  - unfold on_event_close. by destruct (eventClient st).
  - unfold on_tick, rec.
    match goal with |- context [if ?c then _ else _] => destruct c end; [| done].
    by destruct (events st).
  - apply timer_fired_wf.
Qed.

(** X12: in the Windows client too a promise is pending with its timer
    armed, or settled with its timer gone, and once settled it keeps its
    outcome whatever happens later on either pipe. *)
Theorem windows_exactly_one_completion (timeout : nat) (reconnect events : bool)
    (es : list event) (p : nat) :
  match Unix.promises (base (run (init timeout reconnect events) es)) !! p with
  | None => True
  | Some None =>
      is_Some (Unix.timers (base (run (init timeout reconnect events) es)) !! p)
  | Some (Some o) =>
      Unix.timers (base (run (init timeout reconnect events) es)) !! p = None
      ∧ ∀ es',
          Unix.promises
            (base (run (run (init timeout reconnect events) es) es'))
            !! p = Some (Some o)
  end.
Proof.
  assert (Hwf : timers_wf (base (run (init timeout reconnect events) es))).
  { assert (Hinit : timers_wf (base (init timeout reconnect events))).
    { intros q. unfold init, rec. simpl.
      destruct events; simpl; rewrite lookup_empty, lookup_nil;
        (split; [by intros [? ?] | done]). }
    revert Hinit. generalize (init timeout reconnect events).
    induction es as [|e es IH]; intros st Hst; simpl; [done |].
    by apply IH, windows_step_wf. }
  specialize (Hwf p).
  destruct (Unix.promises _ !! p) as [[o|]|] eqn:Hp; [| by apply Hwf | done].
  split.
  - destruct (Unix.timers _ !! p) eqn:Ht; [| done].
    assert (Some (Some o) = Some None) by (apply Hwf; eauto). done.
  - intros es'. revert Hp.
    generalize (run (init timeout reconnect events) es).
    induction es' as [|e es' IH]; intros st Hst; simpl; [done |].
    by apply IH, windows_step_settled.
Qed.

Lemma windows_reconnect_disabled (timeout : nat) (events : bool) (es : list event) :
  Unix.sockets (base (run (init timeout false events) es))
  = (if events then 2 else 1).
Proof.
  cut (Unix.sockets (base (run (init timeout false events) es))
         = (if events then 2 else 1)
       ∧ Unix.reconnect (base (run (init timeout false events) es))
         = false); [by intros [? _] |].
  assert (Hinit : Unix.sockets (base (init timeout false events))
                    = (if events then 2 else 1)
                  ∧ Unix.reconnect (base (init timeout false events)) = false).
  { unfold init, rec. simpl. by destruct events. }
  revert Hinit. generalize (init timeout false events).
  induction es as [|e es IH]; intros st (Hs & Hr); simpl; [done |].
  apply IH. pose proof (step_wiring e st) as Hw. unfold wiring in Hw.
  destruct e;
    try (pose proof (f_equal (λ t, t.1.1.1.2) Hw) as Hs';
         pose proof (f_equal (λ t, t.1.2) Hw) as Hr';
         simpl in Hs', Hr' |- *; rewrite ?Hs', ?Hr'; by auto);
    simpl;
    try (by auto);
    try (unfold Unix.on_close; destruct (Unix.client _); simpl; by auto);
    try (unfold on_event_close; destruct (eventClient st); simpl; by auto).
  unfold on_tick. rewrite Hr, !andb_false_r. simpl. auto.
Qed.

End WindowsMore.

(* ===================================================================== *)
(** * More of the WebSocket client *)
(* ===================================================================== *)

Section WsMore.
Context `{JsonParser}.
Import Ws.

Lemma ws_reachable_ind (P : state → Prop) :
  (∀ timeout retry reconnect, P (init timeout retry reconnect)) →
  (∀ st e, P st → P (step st e)) →
  ∀ st, ws_reachable st → P st.
Proof.
  intros Hinit Hstep st (timeout & retry & reconnect & es & ->).
  specialize (Hinit timeout retry reconnect). revert Hinit.
  generalize (init timeout retry reconnect).
  induction es as [|e es IH]; intros st HP; simpl; [done |].
  by apply IH, Hstep.
Qed.

(** What a step does to the promises: it adds a pending one, settles one
    that is pending as resolved or as timed out, or leaves them alone. *)
Lemma ws_step_promises (e : event) (st : state) :
  promises (step st e) = promises st
  ∨ promises (step st e) = promises st ++ [None]
  ∨ (∃ p o, promises (step st e) = settle p o (promises st)
            ∧ (o = Rejected "Request timed out" ∨ ∃ v, o = Resolved v)).
Proof.
  destruct e; simpl.
  - right. left. unfold request. simpl. by destruct (connected _).
  - left. unfold close. by destruct (client st) as [[| | |]|].
  - left. unfold on_open. by destruct (client st).
  - unfold on_message, try_message.
    destruct (JSON_parse data) as [obj|]; [| by left]. simpl. unfold dispatch.
    destruct (get_prop obj "RequestID") as [id|]; [| by left].
    destruct (get_prop obj "Data") as [d|]; [| by left]. simpl.
    destruct (pool st !! to_key id) as [p|]; [| by left].
    right. right. exists p, (Resolved d). eauto.
  - by left.
  - by left.
  - left. unfold on_tick. destruct (client st); [done |]. by destruct (reconnect st).
  - unfold timer_fired. destruct (timers st !! p); [| by left].
    right. right. exists p, (Rejected "Request timed out"). eauto.
  - left. unfold retry_fired. destruct (intervals st !! p); [| done].
    by destruct (connected st).
Qed.

(** X16: the WebSocket client never refuses a request: the only failure a
    caller can see is [Request timed out]. *)
Theorem ws_only_failure_is_timeout (st : state) (p : nat) (reason : string) :
  ws_reachable st →
  promises st !! p = Some (Some (Rejected reason)) →
  reason = "Request timed out".
Proof.
  intros Hreach. revert p reason.
  apply (ws_reachable_ind (λ st, ∀ p reason,
    promises st !! p = Some (Some (Rejected reason)) → reason = "Request timed out"));
    [| | done].
  - intros timeout retry reconnect p reason. simpl. by rewrite lookup_nil.
  - clear st Hreach. intros st e IH p reason.
    destruct (ws_step_promises e st) as [->|[->|(q & o & -> & Ho)]].
    + apply IH.
    + intros Hp. destruct (decide (p < length (promises st))).
      * rewrite lookup_app_l in Hp by done. by eapply IH.
      * destruct (decide (p = length (promises st))) as [->|].
        -- by rewrite list_lookup_middle in Hp.
        -- rewrite lookup_ge_None_2 in Hp; [done |]. rewrite length_app. simpl. lia.
    + intros Hp. destruct (decide (q = p)) as [->|Hne].
      * destruct (promises st !! p) as [[o'|]|] eqn:Hq.
        -- rewrite (settle_settled _ _ _ o') in Hp by done. simplify_eq. by eapply IH.
        -- rewrite settle_pending in Hp by done.
           destruct Ho as [->|[v ->]]; by simplify_eq.
        -- unfold settle in Hp. rewrite Hq in Hp. by rewrite Hq in Hp.
      * rewrite settle_lookup_ne in Hp by done. by eapply IH.
Qed.

Lemma ws_step_timers_wf (e : event) (st : state) : ws_timers_wf st → ws_timers_wf (step st e).
Proof.
  assert (Hsettle : ∀ st p o (ts : gmap nat nat),
    ws_timers_wf st →
    (∀ q, ts !! q = delete p (timers st) !! q) →
    ∀ q, is_Some (ts !! q) ↔ settle p o (promises st) !! q = Some None).
  { intros st' p o ts Hwf Hts q. rewrite Hts. destruct (decide (p = q)) as [->|Hne].
    - rewrite lookup_delete_eq. split; [by intros [? ?] |].
      intros Hq. by apply settle_not_pending in Hq.
    - rewrite lookup_delete_ne, settle_lookup_ne by done. apply Hwf. }
  destruct e; simpl; try done.
  - intros Hwf q. unfold request. simpl.
    assert (Hfresh : timers st !! length (promises st) = None).
    { destruct (timers st !! length (promises st)) eqn:Ht; [| done].
      assert (Hp : promises st !! length (promises st) = Some None) by (apply Hwf; eauto).
      apply lookup_lt_Some in Hp. lia. }
    replace (connected (set_promises (promises st ++ [None]) st)) with (connected st) by done.
    assert (Hgoal : is_Some (<[length (promises st) := or_default timeout (opts_timeout st)]>
                               (timers st) !! q)
                    ↔ (promises st ++ [None]) !! q = Some None).
    { destruct (decide (length (promises st) = q)) as [<-|Hne].
      - rewrite lookup_insert_eq, list_lookup_middle by done. split; eauto.
      - rewrite lookup_insert_ne by done. rewrite (Hwf q).
        destruct (decide (q < length (promises st))).
        + by rewrite lookup_app_l.
        + rewrite (lookup_ge_None_2 (promises st)) by lia.
          rewrite lookup_ge_None_2; [done |]. rewrite length_app. simpl. lia. }
    by destruct (connected st).
  - unfold close. by destruct (client st) as [[| | |]|].
  - unfold on_open. by destruct (client st).
  - apply (on_message_preserves ws_timers_wf); try done.
    intros st' k p d Hwf _ q. simpl. by apply Hsettle.
  - unfold on_tick. destruct (client st); [done |]. by destruct (reconnect st).
  - intros Hwf. unfold timer_fired. destruct (timers st !! p); [| done].
    intros q. simpl. by apply Hsettle.
  - unfold retry_fired. destruct (intervals st !! p); [| done].
    by destruct (connected st).
Qed.

Lemma ws_step_settled (p : nat) (o : outcome) (e : event) (st : state) :
  promises st !! p = Some (Some o) → promises (step st e) !! p = Some (Some o).
Proof.
  intros Hp. destruct (ws_step_promises e st) as [->|[->|(q & o' & -> & _)]].
  - done.
  - rewrite lookup_app_l; [done |]. by eapply lookup_lt_Some.
  - by apply settle_settled.
Qed.

(** X14: in the WebSocket client too a promise is pending with its timer
    armed, or settled with its timer gone, and once settled it keeps its
    outcome whatever happens later. *)
Theorem ws_exactly_one_completion (timeout retry : nat) (reconnect : bool)
    (es : list event) (p : nat) :
  match promises (run (init timeout retry reconnect) es) !! p with
  | None => True
  | Some None => is_Some (timers (run (init timeout retry reconnect) es) !! p)
  | Some (Some o) =>
      timers (run (init timeout retry reconnect) es) !! p = None
      ∧ ∀ es', promises (run (run (init timeout retry reconnect) es) es') !! p = Some (Some o)
  end.
Proof.
  assert (Hwf : ws_timers_wf (run (init timeout retry reconnect) es)).
  { apply (ws_reachable_ind ws_timers_wf).
    - intros t r rc q. simpl. rewrite lookup_empty, lookup_nil.
      split; [by intros [? ?] | done].
    - intros st e. apply ws_step_timers_wf.
    - by exists timeout, retry, reconnect, es. }
  specialize (Hwf p).
  destruct (promises _ !! p) as [[o|]|] eqn:Hp; [| by apply Hwf | done].
  split.
  - destruct (timers _ !! p) eqn:Ht; [| done].
    assert (Some (Some o) = Some None) by (apply Hwf; eauto). done.
  - intros es'. revert Hp. generalize (run (init timeout retry reconnect) es).
    induction es' as [|e es' IH]; intros st Hst; simpl; [done |].
    by apply IH, ws_step_settled.
Qed.

(** X15: a request and its response on an open WebSocket.  The request is
    sent at once, with no retry interval, as a document with [Name] and
    [RequestID]; a message whose [RequestID] is that id then resolves the
    promise with the [Data] of the message, deletes the entry and clears the
    timer. *)
Theorem ws_request_response_round_trip (st : state) (request_id name text : string)
    (data : option (list (string * json))) (timeout : option nat)
    (obj : json) (payload : jsval) :
  connected st = true →
  JSON_parse text = Some obj →
  get_prop obj "RequestID" = Some (Some (JStr request_id)) →
  get_prop obj "Data" = Some payload →
  sent (run st [Request request_id name data timeout; Message text])
    = sent st ++ [(length (promises st),
                   JObj (set_field "RequestID" (JStr request_id)
                           (set_field "Name" (JStr name) (default [] data))))]
  ∧ intervals (run st [Request request_id name data timeout; Message text]) = intervals st
  ∧ promises (run st [Request request_id name data timeout; Message text])
      !! length (promises st) = Some (Some (Resolved payload))
  ∧ pool (run st [Request request_id name data timeout; Message text]) !! request_id = None
  ∧ timers (run st [Request request_id name data timeout; Message text])
      !! length (promises st) = None.
Proof.
  intros Hup Hparse Hid Hdata. simpl. unfold request. simpl.
  replace (connected (set_promises (promises st ++ [None]) st)) with (connected st) by done.
  rewrite Hup. unfold on_message, try_message. rewrite Hparse. simpl.
  unfold dispatch. rewrite Hid, Hdata. simpl.
  rewrite lookup_insert_eq. simpl. rewrite !lookup_delete_eq.
  repeat (split; [done |]). split; [| done].
  apply settle_pending. by apply list_lookup_middle.
Qed.

Lemma ws_reconnect_disabled (timeout retry : nat) (es : list event) :
  sockets (run (init timeout retry false) es) = 1.
Proof.
  cut (reconnect (run (init timeout retry false) es) = false
       ∧ sockets (run (init timeout retry false) es) = 1); [by intros [_ ?] |].
  assert (Hinit : reconnect (init timeout retry false) = false
                  ∧ sockets (init timeout retry false) = 1) by done.
  revert Hinit. generalize (init timeout retry false).
  induction es as [|e es IH]; intros st [Hr Hs]; simpl; [done |].
  apply IH. destruct e; simpl; try done.
  - unfold request. simpl. by destruct (connected _).
  - unfold close. by destruct (client st) as [[| | |]|].
  - unfold on_open. by destruct (client st).
  - by apply (on_message_preserves (λ st, reconnect st = false ∧ sockets st = 1)).
  - unfold on_tick. destruct (client st); [done |]. by rewrite Hr.
  - unfold timer_fired. by destruct (timers st !! p).
  - unfold retry_fired. destruct (intervals st !! p); [| done].
    by destruct (connected st).
Qed.

End WsMore.

(* ===================================================================== *)
(** * The supervisors *)
(* ===================================================================== *)

(** X6: with [reconnect] off no client ever reconnects: whatever happens,
    the connections made are those of the first [rec()], one for the Unix
    and the WebSocket client, one or two (with [events]) for the Windows
    client. *)
Theorem reconnect_disabled_never_reconnects `{JsonParser} :
  (∀ timeout es, Unix.sockets (Unix.run (Unix.init timeout false) es) = 1)
  ∧ (∀ timeout retry es, Ws.sockets (Ws.run (Ws.init timeout retry false) es) = 1)
  ∧ (∀ timeout events es,
       Unix.sockets (Windows.base (Windows.run (Windows.init timeout false events) es))
       = (if events then 2 else 1)).
Proof.
  split; [| split].
  - intros timeout es. apply unix_reconnect_disabled.
  - apply ws_reconnect_disabled.
  - apply windows_reconnect_disabled.
Qed.

(* ===================================================================== *)
(** * The further properties at concrete inputs *)
(* ===================================================================== *)

Lemma buffer_never_holds_a_terminator_witness :
  sentinel_free (Unix.collected_string two_pending).
Proof.
  apply (buffer_never_holds_a_terminator two_pending).
  by exists 5000, true, [Unix.Request "a" [] None; Unix.Request "b" [] None].
Defined.

Lemma request_response_round_trip_witness :
  Unix.promises (Unix.run (Unix.init 5000 true)
                   [Unix.Request "abc" [] None; Unix.Data (frame_abc +:+ String EOT "")])
    !! length (Unix.promises (Unix.init 5000 true))
  = Some (Some (Resolved (Some (JNum 7))))
  ∧ Unix.pool (Unix.run (Unix.init 5000 true)
                 [Unix.Request "abc" [] None; Unix.Data (frame_abc +:+ String EOT "")])
      !! "abc" = None
  ∧ Unix.timers (Unix.run (Unix.init 5000 true)
                   [Unix.Request "abc" [] None; Unix.Data (frame_abc +:+ String EOT "")])
      !! length (Unix.promises (Unix.init 5000 true)) = None
  ∧ Unix.collected_string
      (Unix.run (Unix.init 5000 true)
         [Unix.Request "abc" [] None; Unix.Data (frame_abc +:+ String EOT "")]) = "".
Proof.
  apply (request_response_round_trip (Unix.init 5000 true) "abc" frame_abc [] None
           doc_abc None (Some (JNum 7))).
  - vm_compute. eauto.
  - reflexivity.
  - vm_compute. discriminate.
  - vm_compute. reflexivity.
  - vm_compute. reflexivity.
  - reflexivity.
  - reflexivity.
  - reflexivity.
  - reflexivity.
Defined.

Lemma written_iff_accepted_witness :
  length (Unix.written one_refused) = accepted one_refused.
Proof.
  apply (written_iff_accepted one_refused).
  by exists 5000, true,
    [Unix.Request "r1" [] None; Unix.Close; Unix.Request "r2" [] None].
Defined.

Lemma connections_never_leak_witness : no_leak pending_and_down.
Proof.
  apply (connections_never_leak pending_and_down).
  by exists 5000, true, [Unix.Request "r1" [] None; Unix.Close].
Defined.

Lemma timer_delay_never_zero_witness :
  Unix.timers (Unix.run (Unix.init 5000 true) [Unix.Request "abc" [] (Some 0)]) !! 0
  = Some 5000
  ∧ 5000 ≠ 0.
Proof.
  assert (Ht : Unix.timers (Unix.run (Unix.init 5000 true) [Unix.Request "abc" [] (Some 0)]) !! 0
               = Some 5000) by (vm_compute; reflexivity).
  split; [exact Ht |].
  apply (timer_delay_never_zero 5000 true [Unix.Request "abc" [] (Some 0)] 0 5000).
  - discriminate.
  - exact Ht.
Defined.

Lemma written_document_carries_id_witness :
  ∃ doc,
    Unix.written (snd (Unix.request "abc" payload_with_requester None (Unix.init 5000 true)))
      = [(0, doc)]
    ∧ get_prop doc "requester" = Some (Some (JStr "abc"))
    ∧ get_prop doc "ty" = Some (Some (JStr "socket_version")).
Proof.
  destruct (written_document_carries_id (Unix.init 5000 true) 0 "abc"
              payload_with_requester None) as (doc & Hw & Hid & Hother).
  - reflexivity.
  - apply (bool_decide_unpack (NoDup payload_with_requester.*1)). vm_compute. exact I.
  - exists doc. split; [exact Hw |]. split; [exact Hid |].
    apply Hother. discriminate.
Defined.

Lemma legacy_handler_agrees_without_events_witness :
  Legacy.on_data (frame_a +:+ String EOT "") two_pending
  = Unix.on_data (frame_a +:+ String EOT "") two_pending.
Proof.
  apply (legacy_handler_agrees_without_events (frame_a +:+ String EOT "") two_pending).
  assert (Hs : split EOT (Unix.collected_string two_pending +:+ (frame_a +:+ String EOT ""))
               = [frame_a; ""]) by (vm_compute; reflexivity).
  rewrite Hs. constructor; [vm_compute; reflexivity |].
  constructor; [vm_compute; exact I | constructor].
Defined.

Lemma tick_replaces_live_request_pipe_witness :
  Unix.client (Windows.base (Windows.on_tick windows_event_down)) = Some 2
  ∧ Windows.eventClient (Windows.on_tick windows_event_down) = Some 3
  ∧ 0 < 2
  ∧ 0 ∉ Unix.destroyed (Windows.base (Windows.on_tick windows_event_down)).
Proof.
  apply (tick_replaces_live_request_pipe windows_event_down 0).
  - by exists 5000, true, true, [Windows.EventClose].
  - reflexivity.
  - reflexivity.
  - reflexivity.
  - reflexivity.
Defined.

Lemma ws_only_failure_is_timeout_witness :
  Ws.promises ws_timed_out !! 0 = Some (Some (Rejected "Request timed out"))
  ∧ "Request timed out" = "Request timed out".
Proof.
  assert (Hp : Ws.promises ws_timed_out !! 0 = Some (Some (Rejected "Request timed out")))
    by (vm_compute; reflexivity).
  split; [exact Hp |].
  apply (ws_only_failure_is_timeout ws_timed_out 0 "Request timed out").
  - by exists 5000, 200, true,
      [Ws.Request "r1" "List Connected Devices" None None; Ws.Timeout 0].
  - exact Hp.
Defined.

Lemma ws_request_response_round_trip_witness :
  Ws.promises (Ws.run ws_open
                 [Ws.Request "abc" "List Connected Devices" None None; Ws.Message message_abc])
    !! length (Ws.promises ws_open)
  = Some (Some (Resolved (Some (JNum 7)))).
Proof.
  destruct (ws_request_response_round_trip ws_open "abc" "List Connected Devices"
              message_abc None None ws_doc_abc (Some (JNum 7)))
    as (_ & _ & Hp & _).
  - reflexivity.
  - vm_compute. reflexivity.
  - reflexivity.
  - reflexivity.
  - exact Hp.
Defined.

(* ===================================================================== *)
(** * Completion of a request: response, timer, and what arrives late *)
(* ===================================================================== *)

Section Completion.
Context `{JsonParser}.

(** [resolve] and [reject] of a promise that is not pending change nothing. *)
Lemma settle_id p o (ps : list (option outcome)) :
  ps !! p ≠ Some None → settle p o ps = ps.
Proof. intros Hp. unfold settle. by destruct (ps !! p) as [[?|]|]. Qed.

(** A document that has one of the properties read is not [null], and has
    the others, [undefined] included. *)
Lemma get_prop_total (obj : json) (k k' : string) (v : jsval) :
  get_prop obj k = Some v → is_Some (get_prop obj k').
Proof. destruct obj; simpl; eauto. Qed.

(** The pool entry of a promise that is not pending does nothing. *)
Lemma unix_run_callback_id (p : nat) (data : jsval) (st : Unix.state) :
  timers_wf st → Unix.promises st !! p ≠ Some None → Unix.run_callback p data st = st.
Proof.
  intros Hwf Hp. unfold Unix.run_callback. rewrite settle_id by done.
  rewrite delete_id; [by destruct st |].
  destruct (Unix.timers st !! p) eqn:Ht; [| done].
  destruct Hp. apply Hwf. eauto.
Qed.

Lemma ws_run_callback_id (p : nat) (data : jsval) (st : Ws.state) :
  ws_timers_wf st → Ws.promises st !! p ≠ Some None → Ws.run_callback p data st = st.
Proof.
  intros Hwf Hp. unfold Ws.run_callback. rewrite settle_id by done.
  rewrite delete_id; [by destruct st |].
  destruct (Ws.timers st !! p) eqn:Ht; [| done].
  destruct Hp. apply Hwf. eauto.
Qed.

Lemma ws_reachable_timers_wf (st : Ws.state) : ws_reachable st → ws_timers_wf st.
Proof.
  apply (ws_reachable_ind ws_timers_wf).
  - intros t r rc q. simpl. rewrite lookup_empty, lookup_nil.
    split; [by intros [? ?] | done].
  - intros st' e. apply ws_step_timers_wf.
Qed.

Lemma ws_reachable_pool_lt (st : Ws.state) :
  ws_reachable st → ∀ k p, Ws.pool st !! k = Some p → is_Some (Ws.promises st !! p).
Proof.
  apply (ws_reachable_ind (λ st, ∀ k p, Ws.pool st !! k = Some p → is_Some (Ws.promises st !! p))).
  - intros t r rc k p. simpl. by rewrite lookup_empty.
  - intros st' e IH. destruct e; simpl; try done.
    + intros k p. unfold Ws.request. simpl.
      assert (Hgoal : <[request_id := length (Ws.promises st')]> (Ws.pool st') !! k = Some p →
                      is_Some ((Ws.promises st' ++ [None]) !! p)).
      { destruct (decide (request_id = k)) as [->|Hne].
        - rewrite lookup_insert_eq. intros [= <-]. rewrite list_lookup_middle by done. eauto.
        - rewrite lookup_insert_ne by done. intros Hk. apply lookup_lt_is_Some.
          rewrite length_app. apply IH, lookup_lt_is_Some in Hk. lia. }
      by destruct (Ws.connected _).
    + unfold Ws.close. by destruct (Ws.client st') as [[| | |]|].
    + unfold Ws.on_open. by destruct (Ws.client st').
    + apply (on_message_preserves
        (λ st, ∀ k p, Ws.pool st !! k = Some p → is_Some (Ws.promises st !! p))); [| | done].
      * intros st1 k1 IH1 k p. simpl. intros [_ Hk]%lookup_delete_Some. by eapply IH1.
      * intros st1 k1 p1 d IH1 _ k p Hk. simpl. apply lookup_lt_is_Some.
        rewrite settle_length. apply lookup_lt_is_Some. by eapply IH1.
    + unfold Ws.on_tick. destruct (Ws.client st'); [done |]. by destruct (Ws.reconnect st').
    + unfold Ws.timer_fired. destruct (Ws.timers st' !! p); [| done].
      intros k q Hk. simpl. apply lookup_lt_is_Some.
      rewrite settle_length. apply lookup_lt_is_Some. by eapply IH.
    + unfold Ws.retry_fired. destruct (Ws.intervals st' !! p); [| done].
      by destruct (Ws.connected st').
Qed.

(** What the handler does with a segment that decodes to a response. *)
Lemma unix_segment_response (text : string) (obj : json) (ty requester data : jsval)
    (st : Unix.state) :
  text ≠ "" →
  JSON_parse text = Some obj →
  get_prop obj "ty" = Some ty → is_event_tag ty = false →
  get_prop obj "requester" = Some requester →
  get_prop obj "data" = Some data →
  Unix.segment text st =
  (Some obj,
   Unix.set_pool (delete (to_key requester) (Unix.pool st))
     match Unix.pool st !! to_key requester with
     | Some p => Unix.run_callback p data st
     | None => st
     end).
Proof.
  intros Htext Hparse Hty Hev Hreq Hdata.
  unfold Unix.segment, Unix.try_segment. destruct text as [|c text]; [done |].
  rewrite Hparse. unfold Unix.dispatch. rewrite Hty, Hdata, Hreq, Hev. simpl.
  by destruct (Unix.pool st !! to_key requester).
Qed.

Lemma ws_message_response (text : string) (obj : json) (id data : jsval) (st : Ws.state) :
  JSON_parse text = Some obj →
  get_prop obj "RequestID" = Some id →
  get_prop obj "Data" = Some data →
  Ws.on_message text st =
  (Some obj,
   Ws.set_pool (delete (to_key id) (Ws.pool st))
     match Ws.pool st !! to_key id with
     | Some p => Ws.run_callback p data st
     | None => st
     end).
Proof.
  intros Hparse Hid Hdata. unfold Ws.on_message, Ws.try_message.
  rewrite Hparse. unfold Ws.dispatch. rewrite Hid, Hdata. simpl.
  by destruct (Ws.pool st !! to_key id).
Qed.

(** One frame arriving whole on an empty buffer is one turn of the
    [forEach], and the buffer is empty again. *)
Lemma unix_on_data_frame (text : string) (st : Unix.state) :
  Unix.collected_string st = "" →
  sentinel_free text →
  Unix.on_data (text +:+ String EOT "") st =
  let '(doc, st') := Unix.segment text st in (option_list doc, st').
Proof.
  intros Hbuf Hfree.
  rewrite (unix_on_data_whole [text]); [| by repeat constructor | by rewrite Hbuf, str_app_nil_l].
  simpl. pose proof (unix_segment_buffer "" text st) as Hb.
  replace (Unix.set_collected_string "" st) with st in Hb by (rewrite <-Hbuf; by destruct st).
  destruct (Unix.segment text st) as [doc st']. rewrite (right_id_L [] (++)).
  f_equal. by simplify_eq.
Qed.

(** A promise that is pending is later pending, resolved by a response, or
    rejected by its timer. *)
Lemma settle_answered (p q : nat) (o : outcome) (ps : list (option outcome)) :
  (o = Rejected "Request timed out" ∨ ∃ v, o = Resolved v) →
  ps !! q = Some None ∨ (∃ v, ps !! q = Some (Some (Resolved v)))
    ∨ ps !! q = Some (Some (Rejected "Request timed out")) →
  settle p o ps !! q = Some None ∨ (∃ v, settle p o ps !! q = Some (Some (Resolved v)))
    ∨ settle p o ps !! q = Some (Some (Rejected "Request timed out")).
Proof.
  intros Ho Hq. destruct (decide (p = q)) as [->|Hne]; [| by rewrite settle_lookup_ne].
  destruct Hq as [Hq|[[v Hq]|Hq]].
  - rewrite settle_pending by done. destruct Ho as [->|[v ->]]; eauto.
  - right. left. exists v. by apply settle_settled.
  - right. right. by apply settle_settled.
Qed.

Lemma unix_step_answered (q : nat) (e : Unix.event) (st : Unix.state) :
  Unix.promises st !! q = Some None
    ∨ (∃ v, Unix.promises st !! q = Some (Some (Resolved v)))
    ∨ Unix.promises st !! q = Some (Some (Rejected "Request timed out")) →
  Unix.promises (Unix.step st e) !! q = Some None
    ∨ (∃ v, Unix.promises (Unix.step st e) !! q = Some (Some (Resolved v)))
    ∨ Unix.promises (Unix.step st e) !! q = Some (Some (Rejected "Request timed out")).
Proof.
  assert (Hreq : ∀ requester data timeout,
    Unix.promises st !! q = Some None
      ∨ (∃ v, Unix.promises st !! q = Some (Some (Resolved v)))
      ∨ Unix.promises st !! q = Some (Some (Rejected "Request timed out")) →
    Unix.promises (snd (Unix.request requester data timeout st)) !! q = Some None
      ∨ (∃ v, Unix.promises (snd (Unix.request requester data timeout st)) !! q
              = Some (Some (Resolved v)))
      ∨ Unix.promises (snd (Unix.request requester data timeout st)) !! q
        = Some (Some (Rejected "Request timed out"))).
  { intros requester data timeout Hq.
    assert (Hlt : q < length (Unix.promises st)).
    { destruct Hq as [Hq|[[v Hq]|Hq]]; by eapply lookup_lt_Some. }
    unfold Unix.request. destruct (Unix.client st); simpl; by rewrite lookup_app_l. }
  destruct e; simpl; try done.
  - apply Hreq.
  - apply Hreq.
  - apply (on_data_preserves (λ st,
      Unix.promises st !! q = Some None
      ∨ (∃ v, Unix.promises st !! q = Some (Some (Resolved v)))
      ∨ Unix.promises st !! q = Some (Some (Rejected "Request timed out")))); try done.
    intros st' k p data Hq _. simpl. apply settle_answered; eauto.
  - unfold Unix.on_close. by destruct (Unix.client st).
  - unfold Unix.on_close. by destruct (Unix.client st).
  - unfold Unix.on_tick. destruct (Unix.client st); [done |]. by destruct (Unix.reconnect st).
  - unfold Unix.timer_fired. destruct (Unix.timers st !! p); [| done]. simpl.
    apply settle_answered; eauto.
Qed.

Lemma unix_run_answered (q : nat) (es : list Unix.event) (st : Unix.state) :
  Unix.promises st !! q = Some None →
  Unix.promises (Unix.run st es) !! q = Some None
    ∨ (∃ v, Unix.promises (Unix.run st es) !! q = Some (Some (Resolved v)))
    ∨ Unix.promises (Unix.run st es) !! q = Some (Some (Rejected "Request timed out")).
Proof.
  intros Hq.
  assert (Hst : Unix.promises st !! q = Some None
    ∨ (∃ v, Unix.promises st !! q = Some (Some (Resolved v)))
    ∨ Unix.promises st !! q = Some (Some (Rejected "Request timed out"))) by eauto.
  clear Hq. revert st Hst. induction es as [|e es IH]; intros st Hst; simpl; [done |].
  by apply IH, unix_step_answered.
Qed.

(** ** A client without the pool entries of settled promises

    Such entries are dead: what their closure does, it does to a promise
    that is settled and a timer that is gone.  A client without them goes
    through the same events in the same way. *)

Lemma unix_call_listeners_pool (m : gmap string nat) ls data (st : Unix.state) :
  Unix.call_listeners ls data (Unix.set_pool m st) =
  match Unix.call_listeners ls data st with
  | Normal st' => Normal (Unix.set_pool m st')
  | Throw e st' => Throw e (Unix.set_pool m st')
  end.
Proof.
  revert st. induction ls as [|l ls IH]; intros st; simpl; [done |].
  destruct (Unix.l_throws l data); [done |].
  by rewrite <-IH.
Qed.

Lemma without_dead_entries_delete (k : string) (p : nat) (o : outcome) (data : jsval)
    (m : gmap string nat) (st : Unix.state) (ps : list (option outcome)) :
  without_dead_entries m st →
  (∀ q o', Unix.promises st !! q = Some (Some o') → ps !! q = Some (Some o')) →
  ∀ st', Unix.pool st' = delete k (Unix.pool st) → Unix.promises st' = ps →
  without_dead_entries (delete k m) st'.
Proof.
  intros Hm Hps st' Hpool Hpromises k'. rewrite Hpool, Hpromises.
  destruct (decide (k = k')) as [->|Hne].
  - left. by rewrite !lookup_delete_eq.
  - rewrite !lookup_delete_ne by done. destruct (Hm k') as [Hk|(Hk & q & o' & Hq & Ho')].
    + by left.
    + right. split; [done |]. exists q, o'. split; [done |]. by apply Hps.
Qed.

Lemma unix_segment_without (text : string) (m : gmap string nat) (st : Unix.state) :
  timers_wf st → without_dead_entries m st →
  ∃ m',
    Unix.segment text (Unix.set_pool m st)
    = (fst (Unix.segment text st), Unix.set_pool m' (snd (Unix.segment text st)))
    ∧ without_dead_entries m' (snd (Unix.segment text st))
    ∧ timers_wf (snd (Unix.segment text st)).
Proof.
  intros Hwf Hm. unfold Unix.segment, Unix.try_segment.
  destruct text as [|c text]; [by exists m |].
  destruct (JSON_parse (String c text)) as [obj|]; [| by exists m]. simpl.
  unfold Unix.dispatch.
  destruct (get_prop obj "ty") as [ty|]; [| by exists m].
  destruct (get_prop obj "data") as [data|]; [| by exists m].
  destruct (get_prop obj "requester") as [requester|]; [| by exists m].
  destruct (is_event_tag ty).
  - exists m. change (Unix.event_listeners (Unix.set_pool m st)) with (Unix.event_listeners st).
    rewrite unix_call_listeners_pool.
    pose proof (call_listeners_reached (Unix.event_listeners st) data st) as Hls.
    destruct (Unix.call_listeners (Unix.event_listeners st) data st) as [st'|e st'];
      simpl in *; subst st'; done.
  - exists (delete (to_key requester) m). simpl.
    change (Unix.pool (Unix.set_pool m st)) with m.
    destruct (Hm (to_key requester)) as [Hk|(Hk & p & o & Hp & Ho)].
    + rewrite Hk. destruct (Unix.pool st !! to_key requester) as [p|] eqn:Hp; simpl.
      * split; [done |]. split.
        -- eapply (without_dead_entries_delete _ p (Resolved data) data); [done | | done | done].
           intros q o' Hq. simpl. by apply settle_settled.
        -- by apply (run_callback_wf p data st).
      * split; [done |]. split; [| done].
        by eapply (without_dead_entries_delete _ 0 (Resolved data) data).
    + rewrite Hk, Hp. simpl. rewrite unix_run_callback_id by (done || by rewrite Ho).
      split; [done |]. split; [| done].
      by eapply (without_dead_entries_delete _ p (Resolved data) data).
Qed.

Lemma unix_for_each_without (segs : list string) (m : gmap string nat) (st : Unix.state) :
  timers_wf st → without_dead_entries m st →
  ∃ m',
    Unix.for_each segs (Unix.set_pool m st)
    = (fst (Unix.for_each segs st), Unix.set_pool m' (snd (Unix.for_each segs st)))
    ∧ without_dead_entries m' (snd (Unix.for_each segs st))
    ∧ timers_wf (snd (Unix.for_each segs st)).
Proof.
  revert m st. induction segs as [|x segs IH]; intros m st Hwf Hm; simpl; [by exists m |].
  destruct (unix_segment_without x m st Hwf Hm) as (m1 & -> & Hm1 & Hwf1).
  destruct (Unix.segment x st) as [doc st1]. simpl in *.
  destruct (IH m1 st1 Hwf1 Hm1) as (m2 & -> & Hm2 & Hwf2).
  destruct (Unix.for_each segs st1) as [docs st2]. simpl in *.
  by exists m2.
Qed.

Lemma unix_step_without (e : Unix.event) (m : gmap string nat) (st : Unix.state) :
  timers_wf st → without_dead_entries m st →
  ∃ m', Unix.step (Unix.set_pool m st) e = Unix.set_pool m' (Unix.step st e)
        ∧ without_dead_entries m' (Unix.step st e).
Proof.
  intros Hwf Hm.
  assert (Hreq : ∀ requester data timeout,
    ∃ m', snd (Unix.request requester data timeout (Unix.set_pool m st))
          = Unix.set_pool m' (snd (Unix.request requester data timeout st))
          ∧ without_dead_entries m' (snd (Unix.request requester data timeout st))).
  { intros requester data timeout. unfold Unix.request.
    change (Unix.client (Unix.set_pool m st)) with (Unix.client st).
    destruct (Unix.client st) as [sock|]; simpl.
    - exists (<[requester := length (Unix.promises st)]> m). split; [done |].
      intros k. simpl. destruct (decide (requester = k)) as [->|Hne].
      + left. by rewrite !lookup_insert_eq.
      + rewrite !lookup_insert_ne by done.
        destruct (Hm k) as [Hk|(Hk & q & o' & Hq & Ho')]; [by left |].
        right. split; [done |]. exists q, o'. split; [done |].
        rewrite lookup_app_l; [done |]. by eapply lookup_lt_Some.
    - exists m. split; [done |]. intros k. simpl.
      destruct (Hm k) as [Hk|(Hk & q & o' & Hq & Ho')]; [by left |].
      right. split; [done |]. exists q, o'. split; [done |].
      rewrite lookup_app_l; [done |]. by eapply lookup_lt_Some. }
  destruct e; simpl.
  - apply Hreq.
  - by exists m.
  - by exists m.
  - apply Hreq.
  - unfold Unix.on_data. simpl.
    destruct (includes EOT (Unix.collected_string st +:+ chunk)); [| by exists m].
    change (Unix.set_collected_string (Unix.collected_string st +:+ chunk) (Unix.set_pool m st))
      with (Unix.set_pool m (Unix.set_collected_string (Unix.collected_string st +:+ chunk) st)).
    destruct (unix_for_each_without (split EOT (Unix.collected_string st +:+ chunk)) m
                (Unix.set_collected_string (Unix.collected_string st +:+ chunk) st))
      as (m' & Heq & Hm' & _); [done | done |].
    rewrite Heq.
    destruct (Unix.for_each _ (Unix.set_collected_string _ st)) as [docs st2]. simpl in *.
    by exists m'.
  - exists m. unfold Unix.on_close.
    change (Unix.client (Unix.set_pool m st)) with (Unix.client st).
    by destruct (Unix.client st).
  - exists m. unfold Unix.on_close.
    change (Unix.client (Unix.set_pool m st)) with (Unix.client st).
    by destruct (Unix.client st).
  - exists m. unfold Unix.on_tick.
    change (Unix.client (Unix.set_pool m st)) with (Unix.client st).
    change (Unix.reconnect (Unix.set_pool m st)) with (Unix.reconnect st).
    destruct (Unix.client st); [done |]. by destruct (Unix.reconnect st).
  - exists m. unfold Unix.timer_fired.
    change (Unix.timers (Unix.set_pool m st)) with (Unix.timers st).
    destruct (Unix.timers st !! p); [| done]. split; [done |].
    intros k. simpl. destruct (Hm k) as [Hk|(Hk & q & o' & Hq & Ho')]; [by left |].
    right. split; [done |]. exists q, o'. split; [done |]. by apply settle_settled.
Qed.

Lemma unix_run_without (es : list Unix.event) (m : gmap string nat) (st : Unix.state) :
  timers_wf st → without_dead_entries m st →
  ∃ m', Unix.run (Unix.set_pool m st) es = Unix.set_pool m' (Unix.run st es).
Proof.
  revert m st. induction es as [|e es IH]; intros m st Hwf Hm; simpl; [by exists m |].
  destruct (unix_step_without e m st Hwf Hm) as (m1 & -> & Hm1).
  apply IH; [by apply step_wf | done].
Qed.

Lemma ws_step_without (e : Ws.event) (m : gmap string nat) (st : Ws.state) :
  ws_timers_wf st → ws_without_dead_entries m st →
  ∃ m', Ws.step (Ws.set_pool m st) e = Ws.set_pool m' (Ws.step st e)
        ∧ ws_without_dead_entries m' (Ws.step st e).
Proof.
  intros Hwf Hm.
  assert (Hkeep : ∀ st' : Ws.state,
    Ws.pool st' = Ws.pool st →
    (∀ q o', Ws.promises st !! q = Some (Some o') → Ws.promises st' !! q = Some (Some o')) →
    ws_without_dead_entries m st').
  { intros st' Hpool Hps k. rewrite Hpool.
    destruct (Hm k) as [Hk|(Hk & q & o' & Hq & Ho')]; [by left |].
    right. split; [done |]. exists q, o'. split; [done |]. by apply Hps. }
  assert (Hdel : ∀ (st' : Ws.state) k,
    Ws.pool st' = delete k (Ws.pool st) →
    (∀ q o', Ws.promises st !! q = Some (Some o') → Ws.promises st' !! q = Some (Some o')) →
    ws_without_dead_entries (delete k m) st').
  { intros st' k Hpool Hps k'. rewrite Hpool. destruct (decide (k = k')) as [->|Hne].
    - left. by rewrite !lookup_delete_eq.
    - rewrite !lookup_delete_ne by done.
      destruct (Hm k') as [Hk|(Hk & q & o' & Hq & Ho')]; [by left |].
      right. split; [done |]. exists q, o'. split; [done |]. by apply Hps. }
  destruct e; simpl.
  - unfold Ws.request. simpl.
    replace (Ws.connected (Ws.set_promises (Ws.promises st ++ [None]) (Ws.set_pool m st)))
      with (Ws.connected st) by done.
    replace (Ws.connected (Ws.set_promises (Ws.promises st ++ [None]) st))
      with (Ws.connected st) by done.
    exists (<[request_id := length (Ws.promises st)]> m).
    split; [by destruct (Ws.connected st) |].
    intros k. destruct (decide (request_id = k)) as [->|Hne].
    + left. destruct (Ws.connected st); simpl; by rewrite !lookup_insert_eq.
    + assert (Hgoal : <[request_id := length (Ws.promises st)]> m !! k
                      = <[request_id := length (Ws.promises st)]> (Ws.pool st) !! k
                      ∨ (<[request_id := length (Ws.promises st)]> m !! k = None
                         ∧ ∃ p o, <[request_id := length (Ws.promises st)]> (Ws.pool st) !! k
                                  = Some p
                                  ∧ (Ws.promises st ++ [None]) !! p = Some (Some o))).
      { rewrite !lookup_insert_ne by done.
        destruct (Hm k) as [Hk|(Hk & q & o' & Hq & Ho')]; [by left |].
        right. split; [done |]. exists q, o'. split; [done |].
        rewrite lookup_app_l; [done |]. by eapply lookup_lt_Some. }
      by destruct (Ws.connected st).
  - exists m. unfold Ws.close.
    change (Ws.client (Ws.set_pool m st)) with (Ws.client st).
    destruct (Ws.client st) as [[| | |]|]; simpl; split; try done; by apply Hkeep.
  - exists m. unfold Ws.on_open.
    change (Ws.client (Ws.set_pool m st)) with (Ws.client st).
    destruct (Ws.client st); split; try done; by apply Hkeep.
  - unfold Ws.on_message, Ws.try_message.
    destruct (JSON_parse data) as [obj|]; [| by exists m]. simpl. unfold Ws.dispatch.
    destruct (get_prop obj "RequestID") as [id|]; [| by exists m].
    destruct (get_prop obj "Data") as [d|]; [| by exists m]. simpl.
    exists (delete (to_key id) m).
    destruct (Hm (to_key id)) as [Hk|(Hk & p & o & Hp & Ho)].
    + rewrite Hk. destruct (Ws.pool st !! to_key id) as [p|] eqn:Hp; simpl.
      * split; [done |]. apply Hdel; [done |].
        intros q o' Hq. simpl. by apply settle_settled.
      * split; [done |]. by apply Hdel.
    + rewrite Hk, Hp. simpl. rewrite ws_run_callback_id by (done || by rewrite Ho).
      split; [done |]. by apply Hdel.
  - exists m. split; [done |]. by apply Hkeep.
  - exists m. split; [done |]. by apply Hkeep.
  - exists m. unfold Ws.on_tick.
    change (Ws.client (Ws.set_pool m st)) with (Ws.client st).
    change (Ws.reconnect (Ws.set_pool m st)) with (Ws.reconnect st).
    destruct (Ws.client st); [done |]. destruct (Ws.reconnect st); [| done].
    split; [done |]. by apply Hkeep.
  - exists m. unfold Ws.timer_fired.
    change (Ws.timers (Ws.set_pool m st)) with (Ws.timers st).
    destruct (Ws.timers st !! p); [| done]. split; [done |].
    apply Hkeep; [done |]. intros q o' Hq. simpl. by apply settle_settled.
  - exists m. unfold Ws.retry_fired.
    change (Ws.intervals (Ws.set_pool m st)) with (Ws.intervals st).
    change (Ws.connected (Ws.set_pool m st)) with (Ws.connected st).
    destruct (Ws.intervals st !! p); [| done].
    destruct (Ws.connected st); [| done]. split; [done |]. by apply Hkeep.
Qed.

Lemma ws_run_without (es : list Ws.event) (m : gmap string nat) (st : Ws.state) :
  ws_timers_wf st → ws_without_dead_entries m st →
  ∃ m', Ws.run (Ws.set_pool m st) es = Ws.set_pool m' (Ws.run st es).
Proof.
  revert m st. induction es as [|e es IH]; intros m st Hwf Hm; simpl; [by exists m |].
  destruct (ws_step_without e m st Hwf Hm) as (m1 & -> & Hm1).
  apply IH; [by apply ws_step_timers_wf | done].
Qed.

(** The documents a turn of the [forEach] decodes, and what it does with
    them. *)
Lemma unix_for_each_dispatch (segs : list string) (st : Unix.state) :
  Forall (λ f, f ≠ "") segs →
  Unix.for_each segs st
  = (omap JSON_parse segs, dispatch_all (omap JSON_parse segs) st).
Proof.
  intros Hne. revert st. induction Hne as [|f segs Hf _ IH]; intros st; simpl; [done |].
  unfold Unix.segment, Unix.try_segment. destruct f as [|c f]; [done |].
  destruct (JSON_parse (String c f)) as [obj|]; simpl; by rewrite IH.
Qed.

(** C2: a request's future is completed once, by its response or by its
    timer.  In a state a client can reach:

    - a request made on a connected client is registered in the pool with
      its promise pending;
    - while a promise is pending its timer is armed; the expiry of the timer
      rejects it with [Request timed out], a response frame for the id it is
      registered under resolves it with the payload of the response, and
      whatever happens it is, from then on, pending, resolved, or rejected
      with [Request timed out];
    - once a promise is settled its timer is gone; the expiry finds nothing
      to run and leaves the client as it is, the pool entry called does
      nothing, so that a late response frame removes the entry from the pool
      and changes nothing else, and whatever happens later the promise keeps
      the outcome it has. *)
Theorem exactly_one_completion (st : Unix.state) (p : nat) :
  unix_reachable st →
  (∀ id data timeout,
     is_Some (Unix.client st) →
     Unix.pool (Unix.step st (Unix.Request id data timeout)) !! id
       = Some (length (Unix.promises st))
     ∧ Unix.promises (Unix.step st (Unix.Request id data timeout)) !! length (Unix.promises st)
       = Some None)
  ∧ (Unix.promises st !! p = Some None →
     is_Some (Unix.timers st !! p)
     ∧ Unix.promises (Unix.step st (Unix.Timeout p)) !! p
       = Some (Some (Rejected "Request timed out"))
     ∧ (∀ text obj ty requester data,
          Unix.collected_string st = "" → text ≠ "" → sentinel_free text →
          JSON_parse text = Some obj →
          get_prop obj "ty" = Some ty → is_event_tag ty = false →
          get_prop obj "requester" = Some requester →
          get_prop obj "data" = Some data →
          Unix.pool st !! to_key requester = Some p →
          Unix.promises (Unix.step st (Unix.Data (text +:+ String EOT ""))) !! p
          = Some (Some (Resolved data)))
     ∧ (∀ es,
          Unix.promises (Unix.run st es) !! p = Some None
          ∨ (∃ v, Unix.promises (Unix.run st es) !! p = Some (Some (Resolved v)))
          ∨ Unix.promises (Unix.run st es) !! p = Some (Some (Rejected "Request timed out"))))
  ∧ (∀ o, Unix.promises st !! p = Some (Some o) →
     Unix.timers st !! p = None
     ∧ Unix.step st (Unix.Timeout p) = st
     ∧ (∀ v, Unix.run_callback p v st = st)
     ∧ (∀ text obj ty requester data,
          Unix.collected_string st = "" → text ≠ "" → sentinel_free text →
          JSON_parse text = Some obj →
          get_prop obj "ty" = Some ty → is_event_tag ty = false →
          get_prop obj "requester" = Some requester →
          get_prop obj "data" = Some data →
          Unix.pool st !! to_key requester = Some p →
          Unix.step st (Unix.Data (text +:+ String EOT ""))
          = Unix.set_pool (delete (to_key requester) (Unix.pool st)) st)
     ∧ (∀ es, Unix.promises (Unix.run st es) !! p = Some (Some o))).
Proof.
  intros Hreach. pose proof (reachable_timers_wf st Hreach) as Hwf.
  split; [| split].
  - intros id data timeout [sock Hsock]. simpl. unfold Unix.request. rewrite Hsock. simpl.
    split; [by rewrite lookup_insert_eq | by rewrite list_lookup_middle].
  - intros Hp. assert (Ht : is_Some (Unix.timers st !! p)) by by apply Hwf.
    split; [done |]. split; [| split].
    + destruct Ht as [ms Ht]. simpl. unfold Unix.timer_fired. rewrite Ht. simpl.
      by apply settle_pending.
    + intros text obj ty requester data Hbuf Htext Hfree Hparse Hty Hev Hreq Hdata Hpool.
      simpl. rewrite unix_on_data_frame by done.
      rewrite (unix_segment_response text obj ty requester data) by done.
      rewrite Hpool. simpl. by apply settle_pending.
    + intros es. by apply unix_run_answered.
  - intros o Hp.
    assert (Hnp : Unix.promises st !! p ≠ Some None) by by rewrite Hp.
    assert (Ht : Unix.timers st !! p = None).
    { destruct (Unix.timers st !! p) eqn:Ht; [| done].
      destruct Hnp. apply Hwf. eauto. }
    split; [done |]. split; [| split; [| split]].
    + simpl. unfold Unix.timer_fired. by rewrite Ht.
    + intros v. by apply unix_run_callback_id.
    + intros text obj ty requester data Hbuf Htext Hfree Hparse Hty Hev Hreq Hdata Hpool.
      simpl. rewrite unix_on_data_frame by done.
      rewrite (unix_segment_response text obj ty requester data) by done.
      rewrite Hpool. simpl. by rewrite unix_run_callback_id.
    + intros es. by apply run_settled.
Qed.

(** C3, as the code has it: when the timer of a pending request fires, its
    promise is rejected with [Request timed out] and the timer is gone; the
    entry of the request is not removed: the pool is left as it is.  Stated
    for the timer of the Unix client ([st]) and for the timer of the
    WebSocket client ([ws]), which clears the retry interval of the request
    as well. *)
Theorem timeout_rejects_and_keeps_entry (st : Unix.state) (ws : Ws.state)
    (id wid : string) (p wp : nat) :
  (unix_reachable st →
   Unix.pool st !! id = Some p →
   is_Some (Unix.timers st !! p) →
   Unix.promises (Unix.step st (Unix.Timeout p)) !! p
     = Some (Some (Rejected "Request timed out"))
   ∧ Unix.timers (Unix.step st (Unix.Timeout p)) !! p = None
   ∧ Unix.pool (Unix.step st (Unix.Timeout p)) !! id = Some p
   ∧ Unix.pool (Unix.step st (Unix.Timeout p)) = Unix.pool st)
  ∧ (ws_reachable ws →
     Ws.pool ws !! wid = Some wp →
     is_Some (Ws.timers ws !! wp) →
     Ws.promises (Ws.step ws (Ws.Timeout wp)) !! wp
       = Some (Some (Rejected "Request timed out"))
     ∧ Ws.timers (Ws.step ws (Ws.Timeout wp)) !! wp = None
     ∧ Ws.intervals (Ws.step ws (Ws.Timeout wp)) !! wp = None
     ∧ Ws.pool (Ws.step ws (Ws.Timeout wp)) !! wid = Some wp
     ∧ Ws.pool (Ws.step ws (Ws.Timeout wp)) = Ws.pool ws).
Proof.
  split.
  - intros Hreach Hid [ms Ht].
    assert (Hp : Unix.promises st !! p = Some None) by (apply reachable_timers_wf; eauto).
    simpl. unfold Unix.timer_fired. rewrite Ht. simpl.
    split; [by apply settle_pending |]. split; [by rewrite lookup_delete_eq | done].
  - intros Hreach Hid [ms Ht].
    assert (Hp : Ws.promises ws !! wp = Some None) by (apply ws_reachable_timers_wf; eauto).
    simpl. unfold Ws.timer_fired. rewrite Ht. simpl.
    split; [by apply settle_pending |].
    split; [by rewrite lookup_delete_eq |]. split; [by rewrite lookup_delete_eq | done].
Qed.

(** C5: a segment [JSON.parse] refuses is dropped without a trace, and the
    segments around it are decoded and dispatched.  On the delimiter-framed
    channel a feed that holds it between other segments does what the feed
    without it does: the same documents are decoded and the client ends in
    the same state; the connection handle is the one it was and no socket
    is destroyed; the documents decoded are those of the segments before it
    followed by those of the segments after it, and the client ends in the
    state that dispatching these documents in order leads to.  The
    [SyntaxError] is caught inside the handler.  With a response before it
    and a response after it,
    for two pending requests, both documents are decoded, both promises are
    resolved with the payload of their response, both entries leave the
    pool, and the connection handle is the one it was.  On the
    message-framed channel such a message leaves the client as it was. *)
Theorem malformed_segment_dropped (pre post : list string) (bad : string)
    (st : Unix.state) (ws : Ws.state) :
  JSON_parse bad = None →
  Forall sentinel_free (pre ++ bad :: post) →
  Unix.collected_string st = "" →
  Unix.on_data (frames (pre ++ bad :: post)) st = Unix.on_data (frames (pre ++ post)) st
  ∧ Unix.try_segment bad st = (None, Throw SyntaxError st)
  ∧ Ws.on_message bad ws = (None, ws)
  ∧ Unix.client (snd (Unix.on_data (frames (pre ++ bad :: post)) st)) = Unix.client st
  ∧ Unix.destroyed (snd (Unix.on_data (frames (pre ++ bad :: post)) st)) = Unix.destroyed st
  ∧ (Forall (λ f, f ≠ "") (pre ++ post) →
     Unix.on_data (frames (pre ++ bad :: post)) st
     = (omap JSON_parse pre ++ omap JSON_parse post,
        Unix.set_collected_string ""
          (dispatch_all (omap JSON_parse pre ++ omap JSON_parse post) st)))
  ∧ (∀ before after obj1 obj2 ty1 ty2 requester1 requester2 data1 data2 p1 p2,
       unix_reachable st →
       sentinel_free before → sentinel_free after →
       before ≠ "" → after ≠ "" →
       JSON_parse before = Some obj1 → JSON_parse after = Some obj2 →
       get_prop obj1 "ty" = Some ty1 → is_event_tag ty1 = false →
       get_prop obj2 "ty" = Some ty2 → is_event_tag ty2 = false →
       get_prop obj1 "requester" = Some requester1 →
       get_prop obj2 "requester" = Some requester2 →
       get_prop obj1 "data" = Some data1 →
       get_prop obj2 "data" = Some data2 →
       to_key requester1 ≠ to_key requester2 →
       Unix.pool st !! to_key requester1 = Some p1 →
       Unix.pool st !! to_key requester2 = Some p2 →
       Unix.promises st !! p1 = Some None →
       Unix.promises st !! p2 = Some None →
       fst (Unix.on_data (frames [before; bad; after]) st) = [obj1; obj2]
       ∧ Unix.promises (snd (Unix.on_data (frames [before; bad; after]) st)) !! p1
         = Some (Some (Resolved data1))
       ∧ Unix.promises (snd (Unix.on_data (frames [before; bad; after]) st)) !! p2
         = Some (Some (Resolved data2))
       ∧ Unix.pool (snd (Unix.on_data (frames [before; bad; after]) st)) !! to_key requester1
         = None
       ∧ Unix.pool (snd (Unix.on_data (frames [before; bad; after]) st)) !! to_key requester2
         = None
       ∧ Unix.client (snd (Unix.on_data (frames [before; bad; after]) st)) = Unix.client st).
Proof.
  intros Hbad Hfree Hbuf.
  assert (Hfree' : Forall sentinel_free (pre ++ post)).
  { apply Forall_app in Hfree as [Hpre Hpost].
    apply Forall_app. split; [done |]. by apply Forall_cons_1 in Hpost as [_ ?]. }
  assert (Hsame : Unix.on_data (frames (pre ++ bad :: post)) st
                  = Unix.on_data (frames (pre ++ post)) st).
  { rewrite (unix_on_data_whole (pre ++ bad :: post)), (unix_on_data_whole (pre ++ post));
      rewrite ?Hbuf, ?str_app_nil_l; try done.
    by rewrite unix_for_each_drop. }
  split; [done |]. split; [| split; [| split; [| split; [| split]]]].
  - unfold Unix.try_segment. by rewrite Hbad.
  - unfold Ws.on_message, Ws.try_message. by rewrite Hbad.
  - by apply (on_data_preserves (λ s, Unix.client s = Unix.client st)).
  - by apply (on_data_preserves (λ s, Unix.destroyed s = Unix.destroyed st)).
  - intros Hne. rewrite Hsame, (unix_on_data_whole (pre ++ post));
      rewrite ?Hbuf, ?str_app_nil_l; try done.
    by rewrite unix_for_each_dispatch, omap_app.
  - intros before after obj1 obj2 ty1 ty2 requester1 requester2 data1 data2 p1 p2
      Hreach Hf1 Hf2 Hn1 Hn2 Hparse1 Hparse2 Hty1 Hev1 Hty2 Hev2 Hreq1 Hreq2 Hd1 Hd2
      Hkeys Hpool1 Hpool2 Hp1 Hp2.
    assert (Hne : p1 ≠ p2).
    { intros ->. destruct (reachable_pool_wf st Hreach) as [_ Hinj].
      by specialize (Hinj _ _ _ Hpool1 Hpool2). }
    assert (Hfbad : sentinel_free bad).
    { apply Forall_app in Hfree as [_ Hpost]. by apply Forall_cons_1 in Hpost as [? _]. }
    rewrite (unix_on_data_whole [before; bad; after]);
      [| by repeat (apply Forall_cons; split; [done |]) | by rewrite Hbuf, str_app_nil_l].
    simpl.
    rewrite (unix_segment_response before obj1 ty1 requester1 data1) by done.
    rewrite Hpool1, unix_segment_malformed by done.
    rewrite (unix_segment_response after obj2 ty2 requester2 data2) by done.
    simpl. rewrite lookup_delete_ne, Hpool2 by done. simpl.
    split; [done |]. split; [| split; [| split; [| split]]].
    + apply settle_settled. by apply settle_pending.
    + apply settle_pending. by rewrite settle_lookup_ne.
    + by rewrite lookup_delete_ne, lookup_delete_eq.
    + by rewrite lookup_delete_eq.
    + done.
Qed.

(** C6: a response whose id has no pending entry in the pool is decoded and
    then changes nothing a caller can see.  The id is unknown (the pool has
    no entry under it) or stale (the entry is the closure of a promise that
    is settled, as after a timeout).  In both cases the handler returns
    normally with every promise, every timer and every listener call as they
    were; the entries under other keys are as they were; an unknown id
    leaves the whole client as it was, a stale one takes its own entry out
    of the pool; and whatever events follow, every promise, timer and
    listener call is what it would have been had the response not arrived.
    Stated for the ['data'] handler of the Unix client ([st])
    and the ['message'] handler of the WebSocket client ([ws]), with the key
    each reads the id from. *)
Theorem unknown_id_ignored (text wtext : string) (obj wobj : json)
    (ty requester id : jsval) (st : Unix.state) (ws : Ws.state) :
  text ≠ "" →
  JSON_parse text = Some obj →
  get_prop obj "ty" = Some ty → is_event_tag ty = false →
  get_prop obj "requester" = Some requester →
  JSON_parse wtext = Some wobj →
  get_prop wobj "RequestID" = Some id →
  (Unix.pool st !! to_key requester = None →
   Unix.segment text st = (Some obj, st))
  ∧ (Ws.pool ws !! to_key id = None →
     Ws.on_message wtext ws = (Some wobj, ws))
  ∧ (unix_reachable st →
     (∀ p, Unix.pool st !! to_key requester = Some p → Unix.promises st !! p ≠ Some None) →
     Unix.try_segment text st
       = (Some obj, Normal (Unix.set_pool (delete (to_key requester) (Unix.pool st)) st))
     ∧ Unix.segment text st
       = (Some obj, Unix.set_pool (delete (to_key requester) (Unix.pool st)) st)
     ∧ (Unix.collected_string st = "" → sentinel_free text →
        Unix.on_data (text +:+ String EOT "") st
        = ([obj], Unix.set_pool (delete (to_key requester) (Unix.pool st)) st))
     ∧ Unix.promises (snd (Unix.segment text st)) = Unix.promises st
     ∧ Unix.timers (snd (Unix.segment text st)) = Unix.timers st
     ∧ Unix.delivered (snd (Unix.segment text st)) = Unix.delivered st
     ∧ (∀ k, k ≠ to_key requester →
          Unix.pool (snd (Unix.segment text st)) !! k = Unix.pool st !! k)
     ∧ (∀ es,
          Unix.promises (Unix.run (snd (Unix.segment text st)) es)
            = Unix.promises (Unix.run st es)
          ∧ Unix.timers (Unix.run (snd (Unix.segment text st)) es)
            = Unix.timers (Unix.run st es)
          ∧ Unix.delivered (Unix.run (snd (Unix.segment text st)) es)
            = Unix.delivered (Unix.run st es)))
  ∧ (ws_reachable ws →
     (∀ p, Ws.pool ws !! to_key id = Some p → Ws.promises ws !! p ≠ Some None) →
     Ws.try_message wtext ws
       = (Some wobj, Normal (Ws.set_pool (delete (to_key id) (Ws.pool ws)) ws))
     ∧ Ws.on_message wtext ws
       = (Some wobj, Ws.set_pool (delete (to_key id) (Ws.pool ws)) ws)
     ∧ Ws.promises (snd (Ws.on_message wtext ws)) = Ws.promises ws
     ∧ Ws.timers (snd (Ws.on_message wtext ws)) = Ws.timers ws
     ∧ Ws.intervals (snd (Ws.on_message wtext ws)) = Ws.intervals ws
     ∧ (∀ k, k ≠ to_key id →
          Ws.pool (snd (Ws.on_message wtext ws)) !! k = Ws.pool ws !! k)
     ∧ (∀ es,
          Ws.promises (Ws.run (snd (Ws.on_message wtext ws)) es)
            = Ws.promises (Ws.run ws es)
          ∧ Ws.timers (Ws.run (snd (Ws.on_message wtext ws)) es)
            = Ws.timers (Ws.run ws es)
          ∧ Ws.sent (Ws.run (snd (Ws.on_message wtext ws)) es)
            = Ws.sent (Ws.run ws es))).
Proof.
  intros Htext Hparse Hty Hev Hreq Hwparse Hid.
  destruct (get_prop_total obj "ty" "data" ty Hty) as [data Hdata].
  destruct (get_prop_total wobj "RequestID" "Data" id Hid) as [wdata Hwdata].
  assert (Htry : Unix.try_segment text st =
    (Some obj, Normal (Unix.set_pool (delete (to_key requester) (Unix.pool st))
       match Unix.pool st !! to_key requester with
       | Some p => Unix.run_callback p data st
       | None => st
       end))).
  { unfold Unix.try_segment. rewrite Hparse. unfold Unix.dispatch.
    rewrite Hty, Hdata, Hreq, Hev. simpl. by destruct (Unix.pool st !! to_key requester). }
  assert (Hwtry : Ws.try_message wtext ws =
    (Some wobj, Normal (Ws.set_pool (delete (to_key id) (Ws.pool ws))
       match Ws.pool ws !! to_key id with
       | Some p => Ws.run_callback p wdata ws
       | None => ws
       end))).
  { unfold Ws.try_message. rewrite Hwparse. unfold Ws.dispatch.
    rewrite Hid, Hwdata. simpl. by destruct (Ws.pool ws !! to_key id). }
  pose proof (unix_segment_response text obj ty requester data st
                Htext Hparse Hty Hev Hreq Hdata) as Hseg.
  pose proof (ws_message_response wtext wobj id wdata ws Hwparse Hid Hwdata) as Hmsg.
  split; [| split; [| split]].
  - intros Hpool. rewrite Hseg, Hpool. by rewrite delete_id, unix_set_pool_id.
  - intros Hpool. rewrite Hmsg, Hpool. by rewrite delete_id, ws_set_pool_id.
  - intros Hreach Hstale.
    assert (Hst1 : match Unix.pool st !! to_key requester with
                   | Some p => Unix.run_callback p data st
                   | None => st
                   end = st).
    { destruct (Unix.pool st !! to_key requester) as [p|] eqn:Hpool; [| done].
      apply unix_run_callback_id; [by apply reachable_timers_wf | by apply Hstale]. }
    rewrite Hst1 in Htry, Hseg. rewrite Hseg.
    split; [done |]. split; [done |].
    split; [| split; [done |]; split; [done |]; split; [done |]; split].
    + intros Hbuf Hfree. rewrite unix_on_data_frame by done. by rewrite Hseg.
    + intros k Hk. simpl. by rewrite lookup_delete_ne.
    + intros es. simpl.
      destruct (unix_run_without es (delete (to_key requester) (Unix.pool st)) st)
        as [m' ->]; [by apply reachable_timers_wf | | done].
      intros k. destruct (decide (k = to_key requester)) as [->|Hk];
        [| left; by rewrite lookup_delete_ne].
      rewrite lookup_delete_eq.
      destruct (Unix.pool st !! to_key requester) as [p|] eqn:Hpool; [| by left].
      right. split; [done |]. exists p.
      destruct (reachable_pool_wf st Hreach) as [Hlt _].
      destruct (lookup_lt_is_Some_2 (Unix.promises st) p (Hlt _ _ Hpool)) as [[o|] Hp].
      * by exists o.
      * exfalso. by apply (Hstale p).
  - intros Hreach Hstale.
    assert (Hst1 : match Ws.pool ws !! to_key id with
                   | Some p => Ws.run_callback p wdata ws
                   | None => ws
                   end = ws).
    { destruct (Ws.pool ws !! to_key id) as [p|] eqn:Hpool; [| done].
      apply ws_run_callback_id; [by apply ws_reachable_timers_wf | by apply Hstale]. }
    rewrite Hst1 in Hwtry, Hmsg. rewrite Hmsg.
    split; [done |]. split; [done |]. split; [done |]. split; [done |]. split; [done |].
    split; [intros k Hk; simpl; by rewrite lookup_delete_ne |].
    intros es. simpl.
    destruct (ws_run_without es (delete (to_key id) (Ws.pool ws)) ws)
      as [m' ->]; [by apply ws_reachable_timers_wf | | done].
    intros k. destruct (decide (k = to_key id)) as [->|Hk];
      [| left; by rewrite lookup_delete_ne].
    rewrite lookup_delete_eq.
    destruct (Ws.pool ws !! to_key id) as [p|] eqn:Hpool; [| by left].
    right. split; [done |]. exists p.
    destruct (ws_reachable_pool_lt ws Hreach _ _ Hpool) as [[o|] Hp].
    * by exists o.
    * exfalso. by apply (Hstale p).
Qed.

End Completion.

Lemma exactly_one_completion_witness :
  (Unix.promises (Unix.step abc_pending (Unix.Timeout 0)) !! 0
     = Some (Some (Rejected "Request timed out"))
   ∧ Unix.promises (Unix.step abc_pending (Unix.Data (frame_abc +:+ String EOT ""))) !! 0
     = Some (Some (Resolved (Some (JNum 7)))))
  ∧ (Unix.step abc_timed_out (Unix.Timeout 0) = abc_timed_out
     ∧ Unix.step abc_timed_out (Unix.Data (frame_abc +:+ String EOT ""))
       = Unix.set_pool (delete "abc" (Unix.pool abc_timed_out)) abc_timed_out
     ∧ ∀ es, Unix.promises (Unix.run abc_timed_out es) !! 0
             = Some (Some (Rejected "Request timed out"))).
Proof.
  split.
  - destruct (exactly_one_completion abc_pending 0) as (_ & Hpending & _).
    { by exists 5000, true, [Unix.Request "abc" [] (Some 50)]. }
    destruct Hpending as (_ & Htimer & Hresponse & _); [reflexivity |].
    split; [exact Htimer |].
    apply (Hresponse frame_abc doc_abc None (Some (JStr "abc")) (Some (JNum 7))).
    + reflexivity.
    + vm_compute. discriminate.
    + vm_compute. reflexivity.
    + vm_compute. reflexivity.
    + reflexivity.
    + reflexivity.
    + reflexivity.
    + reflexivity.
    + vm_compute. reflexivity.
  - destruct (exactly_one_completion abc_timed_out 0) as (_ & _ & Hsettled).
    { by exists 5000, true, [Unix.Request "abc" [] (Some 50); Unix.Timeout 0]. }
    destruct (Hsettled (Rejected "Request timed out")) as (_ & Htimer & _ & Hresponse & Hkept);
      [vm_compute; reflexivity |].
    split; [exact Htimer |]. split; [| exact Hkept].
    apply (Hresponse frame_abc doc_abc None (Some (JStr "abc")) (Some (JNum 7))).
    + reflexivity.
    + vm_compute. discriminate.
    + vm_compute. reflexivity.
    + vm_compute. reflexivity.
    + reflexivity.
    + reflexivity.
    + reflexivity.
    + reflexivity.
    + vm_compute. reflexivity.
Defined.

Lemma timeout_rejects_and_keeps_entry_witness :
  (Unix.promises (Unix.step abc_pending (Unix.Timeout 0)) !! 0
     = Some (Some (Rejected "Request timed out"))
   ∧ Unix.timers (Unix.step abc_pending (Unix.Timeout 0)) !! 0 = None
   ∧ Unix.pool (Unix.step abc_pending (Unix.Timeout 0)) !! "abc" = Some 0
   ∧ Unix.pool (Unix.step abc_pending (Unix.Timeout 0)) = Unix.pool abc_pending)
  ∧ (Ws.promises (Ws.step ws_two_queued (Ws.Timeout 0)) !! 0
       = Some (Some (Rejected "Request timed out"))
     ∧ Ws.timers (Ws.step ws_two_queued (Ws.Timeout 0)) !! 0 = None
     ∧ Ws.intervals (Ws.step ws_two_queued (Ws.Timeout 0)) !! 0 = None
     ∧ Ws.pool (Ws.step ws_two_queued (Ws.Timeout 0)) !! "r1" = Some 0
     ∧ Ws.pool (Ws.step ws_two_queued (Ws.Timeout 0)) = Ws.pool ws_two_queued).
Proof.
  destruct (timeout_rejects_and_keeps_entry abc_pending ws_two_queued "abc" "r1" 0 0)
    as [Hunix Hws].
  split.
  - apply Hunix.
    + by exists 5000, true, [Unix.Request "abc" [] (Some 50)].
    + vm_compute. reflexivity.
    + vm_compute. eauto.
  - apply Hws.
    + by exists 5000, 200, true,
        [Ws.Request "r1" "List Connected Devices" None None;
         Ws.Request "r2" "List Discovered Devices" None None].
    + vm_compute. reflexivity.
    + vm_compute. eauto.
Defined.

Lemma malformed_segment_dropped_witness :
  (Unix.on_data (frames [frame_a; "{oops"; frame_b]) two_pending
     = Unix.on_data (frames [frame_a; frame_b]) two_pending
   ∧ Unix.try_segment "{oops" two_pending = (None, Throw SyntaxError two_pending)
   ∧ Ws.on_message "{oops" ws_two_queued = (None, ws_two_queued))
  ∧ fst (Unix.on_data (frames [frame_a; "{oops"; frame_b]) two_pending) = [doc_a; doc_b]
  ∧ Unix.promises (snd (Unix.on_data (frames [frame_a; "{oops"; frame_b]) two_pending)) !! 0
    = Some (Some (Resolved (Some (JNum 1))))
  ∧ Unix.promises (snd (Unix.on_data (frames [frame_a; "{oops"; frame_b]) two_pending)) !! 1
    = Some (Some (Resolved (Some (JNum 2))))
  ∧ Unix.client (snd (Unix.on_data (frames [frame_a; "{oops"; frame_b]) two_pending))
    = Unix.client two_pending.
Proof.
  destruct (malformed_segment_dropped [frame_a] [frame_b] "{oops" two_pending ws_two_queued)
    as (Hsame & Hcaught & Hws & _ & _ & _ & Hboth).
  - vm_compute. reflexivity.
  - repeat constructor.
  - reflexivity.
  - split; [exact (conj Hsame (conj Hcaught Hws)) |].
    destruct (Hboth frame_a frame_b doc_a doc_b None None
                (Some (JStr "a")) (Some (JStr "b")) (Some (JNum 1)) (Some (JNum 2)) 0 1)
      as (Hd & Hp1 & Hp2 & _ & _ & Hclient).
    + by exists 5000, true, [Unix.Request "a" [] None; Unix.Request "b" [] None].
    + vm_compute. reflexivity.
    + vm_compute. reflexivity.
    + vm_compute. discriminate.
    + vm_compute. discriminate.
    + vm_compute. reflexivity.
    + vm_compute. reflexivity.
    + reflexivity.
    + reflexivity.
    + reflexivity.
    + reflexivity.
    + reflexivity.
    + reflexivity.
    + reflexivity.
    + reflexivity.
    + vm_compute. discriminate.
    + vm_compute. reflexivity.
    + vm_compute. reflexivity.
    + vm_compute. reflexivity.
    + vm_compute. reflexivity.
    + split; [exact Hd |]. split; [exact Hp1 |]. split; [exact Hp2 | exact Hclient].
Defined.

Lemma unknown_id_ignored_witness :
  (Unix.segment frame_a abc_pending = (Some doc_a, abc_pending)
   ∧ Ws.on_message message_abc ws_two_queued = (Some ws_doc_abc, ws_two_queued))
  ∧ (Unix.on_data (frame_abc +:+ String EOT "") abc_timed_out
       = ([doc_abc], Unix.set_pool (delete "abc" (Unix.pool abc_timed_out)) abc_timed_out)
     ∧ Unix.promises (snd (Unix.segment frame_abc abc_timed_out))
       = [Some (Rejected "Request timed out")])
  ∧ (Ws.on_message message_r1 ws_timed_out
       = (Some ws_doc_r1, Ws.set_pool (delete "r1" (Ws.pool ws_timed_out)) ws_timed_out)
     ∧ Ws.promises (snd (Ws.on_message message_r1 ws_timed_out))
       = [Some (Rejected "Request timed out")]).
Proof.
  split; [| split].
  - destruct (unknown_id_ignored frame_a message_abc doc_a ws_doc_abc
                None (Some (JStr "a")) (Some (JStr "abc")) abc_pending ws_two_queued)
      as (Hunix & Hws & _).
    + vm_compute. discriminate.
    + vm_compute. reflexivity.
    + reflexivity.
    + reflexivity.
    + reflexivity.
    + vm_compute. reflexivity.
    + reflexivity.
    + split; [apply Hunix | apply Hws]; vm_compute; reflexivity.
  - destruct (unknown_id_ignored frame_abc message_r1 doc_abc ws_doc_r1
                None (Some (JStr "abc")) (Some (JStr "r1")) abc_timed_out ws_timed_out)
      as (_ & _ & Hunix & _).
    + vm_compute. discriminate.
    + vm_compute. reflexivity.
    + reflexivity.
    + reflexivity.
    + reflexivity.
    + vm_compute. reflexivity.
    + reflexivity.
    + destruct Hunix as (_ & _ & Hdata & Hpromises & _).
      * by exists 5000, true, [Unix.Request "abc" [] (Some 50); Unix.Timeout 0].
      * intros p Hp. vm_compute in Hp. injection Hp as <-. vm_compute. discriminate.
      * split; [apply Hdata; vm_compute; reflexivity | exact Hpromises].
  - destruct (unknown_id_ignored frame_abc message_r1 doc_abc ws_doc_r1
                None (Some (JStr "abc")) (Some (JStr "r1")) abc_timed_out ws_timed_out)
      as (_ & _ & _ & Hws).
    + vm_compute. discriminate.
    + vm_compute. reflexivity.
    + reflexivity.
    + reflexivity.
    + reflexivity.
    + vm_compute. reflexivity.
    + reflexivity.
    + destruct Hws as (_ & Hmsg & Hpromises & _).
      * by exists 5000, 200, true,
          [Ws.Request "r1" "List Connected Devices" None None; Ws.Timeout 0].
      * intros p Hp. vm_compute in Hp. injection Hp as <-. vm_compute. discriminate.
      * split; [exact Hmsg | exact Hpromises].
Defined.
